(** * RechtsInfo: citation guard, chunker and law-version store

    A shallow embedding of the retrieval-and-verification core of the
    RechtsInfo application:

    - [src/guards/citationGuard.js]: [NORM_REGEX], [normalizeNorm],
      [extractNorms], [buildNormAllowlist], [resolveToAllowedNorm],
      [sanitizeAnswerCitations];
    - [scripts/ingest-laws.js]: [splitText], the ingestion transaction of
      [main] and [markVersionFailed];
    - the retrievers ([retrieveLegalSources] of the server, in its two
      versions, with [mergeLegalSourcesUnique], and [retrieveLaws] of
      [ai/retrieveLawsPg.js]);
    - [ai/utils/citationsGuard.js] and [ai/legalAnswer.js]: [guardAnswer]
      and the answerer that calls it;
    - [scripts/update-laws-monthly.js]: [pruneOldVersions],
      [getCurrentActiveVersion] and [stripHtml].

    JavaScript strings are sequences of UTF-16 code units; they are modelled
    as [list N].  Regular expressions are interpreted by a backtracking
    matcher that follows the ECMAScript semantics of the constructs the
    sources use (greedy quantifiers, ordered alternation, [\b], the global
    scan of [String.prototype.match] and [String.prototype.replace]). *)

From Stdlib Require Import NArith ZArith List String Ascii Bool Lia.
From stdpp Require Import base list gmap.

Local Open Scope N_scope.

(** ** JavaScript strings *)

Module Js.

(** Decoding of a UTF-8 byte sequence (the encoding of the source files and
    of the literals below) into UTF-16 code units. *)
Fixpoint utf16_of_bytes (l : list N) : list N :=
  match l with
  | [] => []
  | b1 :: l1 =>
      if b1 <? 128 then b1 :: utf16_of_bytes l1
      else match l1 with
      | [] => [b1]
      | b2 :: l2 =>
          if b1 <? 224 then
            (N.land b1 31 * 64 + N.land b2 63) :: utf16_of_bytes l2
          else match l2 with
          | [] => [b1; b2]
          | b3 :: l3 =>
              if b1 <? 240 then
                (N.land b1 15 * 4096 + N.land b2 63 * 64 + N.land b3 63)
                  :: utf16_of_bytes l3
              else match l3 with
              | [] => [b1; b2; b3]
              | b4 :: l4 =>
                  let cp := N.land b1 7 * 262144 + N.land b2 63 * 4096
                            + N.land b3 63 * 64 + N.land b4 63 in
                  let v := cp - 65536 in
                  (55296 + v / 1024) :: (56320 + v mod 1024)
                    :: utf16_of_bytes l4
              end
          end
      end
  end.

Fixpoint bytes_of_string (s : string) : list N :=
  match s with
  | EmptyString => []
  | String a s' => N_of_ascii a :: bytes_of_string s'
  end.

(** The string value denoted by a literal of the source text. *)
Definition lit (s : string) : list N := utf16_of_bytes (bytes_of_string s).

(** *** Character classes *)

Definition in_range (lo hi c : N) : bool := (lo <=? c) && (c <=? hi).

(** [\s], which is also the set [String.prototype.trim] strips: WhiteSpace
    and LineTerminator of ECMA-262. *)
Definition is_space (c : N) : bool :=
  in_range 9 13 c || (c =? 32) || (c =? 160) || (c =? 5760)
  || in_range 8192 8202 c || (c =? 8232) || (c =? 8233) || (c =? 8239)
  || (c =? 8287) || (c =? 12288) || (c =? 65279).

(** [\d] *)
Definition is_digit (c : N) : bool := in_range 48 57 c.

Definition is_upper (c : N) : bool := in_range 65 90 c.
Definition is_lower (c : N) : bool := in_range 97 122 c.

(** [[a-zA-Z]] *)
Definition is_alpha (c : N) : bool := is_lower c || is_upper c.

(** [\w], the word characters that [\b] looks at (no [i] or [u] flag). *)
Definition is_word (c : N) : bool := is_alpha c || is_digit c || (c =? 95).

(** *** Library functions on strings *)

Fixpoint drop_space (s : list N) : list N :=
  match s with
  | c :: s' => if is_space c then drop_space s' else s
  | [] => []
  end.

(** [String.prototype.trim] *)
Definition trim (s : list N) : list N :=
  rev (drop_space (rev (drop_space s))).

Fixpoint str_eqb (a b : list N) : bool :=
  match a, b with
  | [], [] => true
  | x :: a', y :: b' => (x =? y) && str_eqb a' b'
  | _, _ => false
  end.

(** [strip_prefix p s] is the rest of [s] after its prefix [p]. *)
Fixpoint strip_prefix (p s : list N) : option (list N) :=
  match p with
  | [] => Some s
  | x :: p' =>
      match s with
      | y :: s' => if x =? y then strip_prefix p' s' else None
      | [] => None
      end
  end.

(** [String.prototype.indexOf]: the text before and after the first
    occurrence of [pat] in [s]. *)
Fixpoint find_first (pat s : list N) : option (list N * list N) :=
  match strip_prefix pat s with
  | Some rest => Some ([], rest)
  | None =>
      match s with
      | [] => None
      | c :: s' =>
          match find_first pat s' with
          | Some (pre, post) => Some (c :: pre, post)
          | None => None
          end
      end
  end.

(** [String.prototype.split(" ")]: the fields between single spaces; the
    result is never empty. *)
Fixpoint split_space (s : list N) : list (list N) :=
  match s with
  | [] => [[]]
  | c :: s' =>
      if c =? 32 then [] :: split_space s'
      else match split_space s' with
           | f :: fs => (c :: f) :: fs
           | [] => [[c]]
           end
  end.

(** GetSubstitution of ECMA-262 for a pattern without capture groups: in a
    replacement template [$$] is a dollar sign, [$&] the matched text,
    [$`] the text before the match and [$'] the text after it; any other
    dollar sign stands for itself. *)
Fixpoint getSubstitution (matched before after tpl : list N) : list N :=
  match tpl with
  | [] => []
  | c :: t =>
      if c =? 36 then
        match t with
        | [] => [c]
        | d :: t' =>
            if d =? 36 then 36 :: getSubstitution matched before after t'
            else if d =? 38 then
              matched ++ getSubstitution matched before after t'
            else if d =? 96 then
              before ++ getSubstitution matched before after t'
            else if d =? 39 then
              after ++ getSubstitution matched before after t'
            else c :: getSubstitution matched before after t
        end
      else c :: getSubstitution matched before after t
  end.

(** [s.replace(pat, tpl)] for a string pattern: only the first occurrence
    is replaced; without an occurrence the string is returned as it is. *)
Definition replace_str (s pat tpl : list N) : list N :=
  match find_first pat s with
  | Some (pre, post) => pre ++ getSubstitution pat pre post tpl ++ post
  | None => s
  end.

(** [rest.lastIndexOf(" ", pos)] as an integer: the greatest index
    [i <= pos] with a space at [i], or [-1]. *)
Fixpoint lastIndexOf_space_from (i : Z) (s : list N) (pos : Z) : Z :=
  match s with
  | [] => (-1)%Z
  | c :: s' =>
      let later := lastIndexOf_space_from (i + 1) s' pos in
      if (0 <=? later)%Z then later
      else if (c =? 32) && (i <=? pos)%Z then i else (-1)%Z
  end.

Definition lastIndexOf_space (s : list N) (pos : Z) : Z :=
  lastIndexOf_space_from 0 s pos.

(** [s.slice(0, n)] and [s.slice(n)] for [0 <= n]. *)
Definition slice_to (s : list N) (n : Z) : list N := take (Z.to_nat n) s.
Definition slice_from (s : list N) (n : Z) : list N := drop (Z.to_nat n) s.

End Js.

(** ** Regular expressions *)

Module Re.
Import Js.

(** The constructs that occur in the regular expressions of the sources.
    Every quantified atom of the sources is a character class, except the
    optional groups [(?:...)?]. *)
Inductive regex : Type :=
| Chr (p : N -> bool)                              (* one unit of a class *)
| Lit (l : list N)                                 (* a literal sequence *)
| Rep (p : N -> bool) (min : nat) (max : option nat)
                                    (* greedy [p*], [p+], [p?], [p{m,n}] *)
| Seq (r1 r2 : regex)
| Alt (r1 r2 : regex)                              (* [r1|r2], [r1] first *)
| Opt (r : regex)                                  (* greedy [(?:r)?] *)
| WordB.                                           (* [\b] *)

(** The units an expression can consume. *)
Fixpoint accepts (r : regex) (c : N) : bool :=
  match r with
  | Chr p => p c
  | Lit l => existsb (N.eqb c) l
  | Rep p _ _ => p c
  | Seq r1 r2 => accepts r1 c || accepts r2 c
  | Alt r1 r2 => accepts r1 c || accepts r2 c
  | Opt r1 => accepts r1 c
  | WordB => false
  end.

(** A matcher state is the input that is left together with a flag telling
    whether the unit just before it is a word character; a continuation
    receives the state after a partial match and answers with the final
    result, [None] asking the matcher to backtrack. *)
Definition cont (A : Type) : Type := bool -> list N -> option A.

Definition next_is_word (s : list N) : bool :=
  match s with
  | c :: _ => is_word c
  | [] => false
  end.

Fixpoint m_lit {A} (l : list N) (pw : bool) (s : list N) (k : cont A)
  : option A :=
  match l with
  | [] => k pw s
  | x :: l' =>
      match s with
      | c :: s' => if x =? c then m_lit l' (is_word c) s' k else None
      | [] => None
      end
  end.

(** Greedy repetition of a class: one more unit is tried first, the
    continuation only afterwards. *)
Fixpoint m_rep {A} (p : N -> bool) (min : nat) (max : option nat)
    (pw : bool) (s : list N) (k : cont A) : option A :=
  let more :=
    match max, s with
    | Some O, _ => None
    | _, c :: s' =>
        if p c then m_rep p (pred min) (option_map pred max) (is_word c) s' k
        else None
    | _, [] => None
    end in
  match more with
  | Some x => Some x
  | None => match min with O => k pw s | S _ => None end
  end.

Fixpoint m {A} (r : regex) (pw : bool) (s : list N) (k : cont A)
  : option A :=
  match r with
  | Chr p =>
      match s with
      | c :: s' => if p c then k (is_word c) s' else None
      | [] => None
      end
  | Lit l => m_lit l pw s k
  | Rep p min max => m_rep p min max pw s k
  | Seq r1 r2 => m r1 pw s (fun pw' s' => m r2 pw' s' k)
  | Alt r1 r2 =>
      match m r1 pw s k with
      | Some x => Some x
      | None => m r2 pw s k
      end
  | Opt r1 =>
      match m r1 pw s (fun pw' s' =>
              if (length s' <? length s)%nat then k pw' s' else None) with
      | Some x => Some x
      | None => k pw s
      end
  | WordB => if xorb pw (next_is_word s) then k pw s else None
  end.

(** One attempt at the current position: the input left after the match. *)
Definition exec (r : regex) (pw : bool) (s : list N) : option (list N) :=
  m r pw s (fun _ s' => Some s').

(** The global scan shared by [s.match(/r/g)] and [s.replace(/r/g, _)]:
    the text is cut into the matches, from left to right and without
    overlap, and the units between them.  After an empty match the scan
    steps over one unit. *)
Inductive piece : Type :=
| Keep (c : N)
| Hit (mt : list N).

Fixpoint scan (fuel : nat) (r : regex) (pw : bool) (s : list N)
  : list piece :=
  match fuel with
  | O => []
  | S fuel' =>
      let step := fun _ : unit =>
        match s with
        | [] => []
        | c :: s' => Keep c :: scan fuel' r (is_word c) s'
        end in
      match exec r pw s with
      | None => step tt
      | Some rest =>
          let n := (length s - length rest)%nat in
          match n with
          | O => Hit [] :: step tt
          | S _ =>
              let mt := take n s in
              Hit mt :: scan fuel' r (is_word (List.last mt 0)) rest
          end
      end
  end.

Definition pieces (r : regex) (s : list N) : list piece :=
  scan (S (length s)) r false s.

Definition piece_text (p : piece) : list N :=
  match p with
  | Keep c => [c]
  | Hit mt => mt
  end.

(** [s.match(/r/g) || []] *)
Definition match_g (r : regex) (s : list N) : list (list N) :=
  omap (fun p => match p with Hit mt => Some mt | Keep _ => None end)
       (pieces r s).

Fixpoint rebuild (tpl before : list N) (ps : list piece) : list N :=
  match ps with
  | [] => []
  | Keep c :: ps' => c :: rebuild tpl (before ++ [c]) ps'
  | Hit mt :: ps' =>
      getSubstitution mt before (concat (map piece_text ps')) tpl
        ++ rebuild tpl (before ++ mt) ps'
  end.

(** [s.replace(/r/g, tpl)] *)
Definition replace_g (r : regex) (tpl s : list N) : list N :=
  rebuild tpl [] (pieces r s).

Definition star (p : N -> bool) : regex := Rep p 0 None.
Definition plus (p : N -> bool) : regex := Rep p 1 None.
Definition ch (c : N) : N -> bool := N.eqb c.

Fixpoint seqs (rs : list regex) : regex :=
  match rs with
  | [] => Lit []
  | [r] => r
  | r :: rs' => Seq r (seqs rs')
  end.

End Re.

(** ** The citation guard ([src/guards/citationGuard.js]) *)

Module Guard.
Import Js Re.

Definition sp : regex := star is_space.          (* [\s*] *)
Definition digits : regex := plus is_digit.      (* [\d+] *)
Definition letters : regex := star is_alpha.     (* [[a-zA-Z]*] *)

(** [[A-Za-zÄÖÜäöü]] *)
Definition is_law_letter (c : N) : bool :=
  is_upper c || is_lower c || (c =? 196) || (c =? 214) || (c =? 220)
  || (c =? 228) || (c =? 246) || (c =? 252).

(** [[IVX]] *)
Definition is_roman (c : N) : bool := (c =? 73) || (c =? 86) || (c =? 88).

Definition NORM_REGEX : regex :=
  seqs
    [ Alt (seqs [Lit (lit "§"); sp; digits; letters])
          (seqs [Lit (lit "Art."); sp; digits; letters]);
      sp;
      Opt (seqs [Alt (Lit (lit "Abs.")) (Lit (lit "Absatz"));
                 sp; digits; letters; sp]);
      Opt (seqs [Lit (lit "Satz"); sp; digits; sp]);
      Opt (seqs [Alt (Lit (lit "Nr.")) (Lit (lit "Nummer")); sp; digits; sp]);
      Opt (seqs [Lit (lit "lit"); Rep (ch 46) 0 (Some 1%nat);
                 sp; Chr is_lower; sp]);
      Opt (seqs [Alt (Lit (lit "Buchst.")) (Lit (lit "Buchstabe"));
                 sp; Chr is_lower; sp]);
      Opt (seqs [Rep is_law_letter 2 None;
                 Opt (seqs [sp; Alt (Rep is_roman 1 (Some 4%nat))
                                    (Rep is_digit 1 (Some 3%nat))])]);
      WordB ].

(** [.replace(/tok\s*/g, "tok ")] *)
Definition space_after (tok : list N) (s : list N) : list N :=
  replace_g (Seq (Lit tok) sp) (tok ++ [32]) s.

(** [.replace(/\s+/g, " ")] *)
Definition collapse_spaces (s : list N) : list N :=
  replace_g (plus is_space) (lit " ") s.

Definition normalizeNorm (s : list N) : list N :=
  let s := collapse_spaces s in
  let s := space_after (lit "§") s in
  let s := space_after (lit "Art.") s in
  let s := space_after (lit "Abs.") s in
  let s := space_after (lit "Nr.") s in
  let s := space_after (lit "Satz") s in
  let s := space_after (lit "lit.") s in
  let s := space_after (lit "Buchst.") s in
  trim s.

(** The tokens of [normalizeNorm], in the order of its calls. *)
Definition norm_tokens : list (list N) :=
  [lit "§"; lit "Art."; lit "Abs."; lit "Nr."; lit "Satz"; lit "lit.";
   lit "Buchst."].

Definition spaced (toks : list (list N)) (s : list N) : list N :=
  fold_left (fun acc tok => space_after tok acc) toks s.

(** A [Set] of strings keeps its insertion order: a list, with [has] and
    [add]. *)
Definition set_has (x : list N) (l : list (list N)) : bool :=
  existsb (str_eqb x) l.

Definition set_add (x : list N) (l : list (list N)) : list (list N) :=
  if set_has x l then l else l ++ [x].

Definition extractNorms (text : list N) : list (list N) :=
  fold_left (fun out mt => set_add (normalizeNorm mt) out)
            (match_g NORM_REGEX text) [].

(** [parts[0] + (parts[1] ? ` ${parts[1]}` : "")] *)
Definition head_of (parts : list (list N)) : list N :=
  match parts with
  | [] => []
  | p0 :: ps =>
      match ps with
      | (c :: p1) :: _ => p0 ++ 32 :: c :: p1
      | _ => p0
      end
  end.

(** [parts[parts.length - 1]] *)
Definition tail_of (parts : list (list N)) : list N := List.last parts [].

(** [Array.prototype.sort] with [(a, b) => a.length - b.length]: a stable
    sort by length. *)
Fixpoint insert_by_length (a : list N) (l : list (list N))
  : list (list N) :=
  match l with
  | [] => [a]
  | b :: l' =>
      if (length a <=? length b)%nat then a :: l
      else b :: insert_by_length a l'
  end.

Definition sort_by_length (l : list (list N)) : list (list N) :=
  foldr insert_by_length [] l.

Record resolution : Type := Resolution {
  ok : bool;
  norm : list N;
  replacedFrom : option (list N)
}.

(** [ahead === head && atail === tail] for the norm [n] and the allowed
    norm [a]. *)
Definition same_head_tail (n a : list N) : bool :=
  let parts := split_space n in
  let head := head_of parts in
  let tail := tail_of parts in
  let ap := split_space a in
  str_eqb (head_of ap) head && str_eqb (tail_of ap) tail.

Definition candidates_of (n : list N) (allowedNorms : list (list N))
  : list (list N) :=
  List.filter (same_head_tail n) allowedNorms.

Definition resolveToAllowedNorm (raw : list N)
    (allowedNorms : list (list N)) : resolution :=
  let n := normalizeNorm raw in
  if set_has n allowedNorms then Resolution true n None
  else
    match sort_by_length (candidates_of n allowedNorms) with
    | [] => Resolution false n None
    | c :: _ => Resolution true c (Some n)
    end.

Definition PLACEHOLDER : list N :=
  lit "соответствующая норма (не подтверждена источниками)".

Record sanitized : Type := Sanitized {
  sanitizedText : list N;
  removedNorms : list (list N);
  replacedNorms : list (list N * list N)        (* [{from, to}] *)
}.

(** One turn of the loop [for (const raw of found)]. *)
Definition sanitize_step (allowedNorms : list (list N))
    (st : sanitized) (raw : list N) : sanitized :=
  let res := resolveToAllowedNorm raw allowedNorms in
  if negb (ok res) then
    Sanitized (replace_str (sanitizedText st) raw PLACEHOLDER)
              (set_add (normalizeNorm raw) (removedNorms st))
              (replacedNorms st)
  else
    match replacedFrom res with
    | Some (c :: from) =>
        Sanitized (replace_str (sanitizedText st) raw (norm res))
                  (removedNorms st)
                  (replacedNorms st ++ [(c :: from, norm res)])
    | _ => st
    end.

(** [answerText] is the string [String(answerText || "")]. *)
Definition sanitizeAnswerCitations (answerText : list N)
    (allowedNorms : list (list N)) : sanitized :=
  let text := answerText in
  let found := match_g NORM_REGEX text in
  match found with
  | [] => Sanitized text [] []
  | _ => fold_left (sanitize_step allowedNorms) found (Sanitized text [] [])
  end.

End Guard.

(** ** The chunker ([splitText] of [scripts/ingest-laws.js]) *)

Module Chunker.
Import Js.

(** [Math.floor(maxChars * 0.6)].  For an integer [maxChars] (below
    [2^50]) the double product is [3 * maxChars / 5] when that is an
    integer and is otherwise nearer to it than to an integer, so its floor
    is the integer quotient. *)
Definition floor_06 (maxChars : Z) : Z := (3 * maxChars / 5)%Z.

(** The index at which one turn of the loop cuts [rest]. *)
Definition cut_index (rest : list N) (maxChars : Z) : Z :=
  let idx := lastIndexOf_space rest maxChars in
  if (idx <? floor_06 maxChars)%Z then maxChars else idx.

(** The [while] loop, for the rule [cut] that picks the index of a turn;
    [None] when the fuel runs out before the loop ends.  [maxChars] is a
    non-negative integer. *)
Fixpoint split_loop (cut : list N -> Z -> Z) (fuel : nat)
    (chunks : list (list N)) (rest : list N) (maxChars : Z)
  : option (list (list N)) :=
  match fuel with
  | O => None
  | S fuel' =>
      if (maxChars <? Z.of_nat (length rest))%Z then
        let idx := cut rest maxChars in
        split_loop cut fuel'
          (chunks ++ [trim (slice_to rest idx)])
          (trim (slice_from rest idx)) maxChars
      else
        Some (match rest with [] => chunks | _ :: _ => chunks ++ [rest] end)
  end.

Definition splitText (text : list N) (maxChars : Z)
  : option (list (list N)) :=
  split_loop cut_index (S (length text)) [] (trim text) maxChars.

(** The cut as the specification words it: at the last whitespace at or
    before [maxChars], and at [maxChars] itself when the first 60% of the
    window holds no whitespace. *)
Fixpoint last_space_upto (i : Z) (s : list N) (pos : Z) : Z :=
  match s with
  | [] => (-1)%Z
  | c :: s' =>
      let later := last_space_upto (i + 1) s' pos in
      if (0 <=? later)%Z then later
      else if is_space c && (i <=? pos)%Z then i else (-1)%Z
  end.

Definition spec_cut_index (rest : list N) (maxChars : Z) : Z :=
  if existsb is_space (slice_to rest (floor_06 maxChars))
  then last_space_upto 0 rest maxChars
  else maxChars.

(** [r] is the result of [s.lastIndexOf(" ", pos)]: the greatest index up
    to [pos] that holds a space, or [-1] when there is none. *)
Definition is_last_space (s : list N) (pos r : Z) : Prop :=
  (r = (-1)%Z /\
   forall j : nat, (Z.of_nat j <= pos)%Z -> s !! j <> Some 32) \/
  ((0 <= r <= pos)%Z /\ s !! Z.to_nat r = Some 32 /\
   forall j : nat, (r < Z.of_nat j <= pos)%Z -> s !! j <> Some 32).

Definition spec_splitText (text : list N) (maxChars : Z)
  : option (list (list N)) :=
  split_loop spec_cut_index (S (length text)) [] (trim text) maxChars.

(** The greedy split, as a relation between a text and its chunks: a
    text of at most [maxChars] units is one chunk (none when it is
    empty); a longer one is cut at the last space (U+0020) at an index
    from [floor (0.6 * maxChars)] to [maxChars], and at [maxChars] when
    there is no space at such an index; the chunk is the text before the
    cut, trimmed, and the split goes on with the text from the cut,
    trimmed. *)
Inductive greedy_split (maxChars : Z) : list N -> list (list N) -> Prop :=
| split_end rest :
    (Z.of_nat (length rest) <= maxChars)%Z ->
    greedy_split maxChars rest
      (match rest with [] => [] | _ :: _ => [rest] end)
| split_at_space rest i chunks :
    (maxChars < Z.of_nat (length rest))%Z ->
    (floor_06 maxChars <= Z.of_nat i <= maxChars)%Z ->
    rest !! i = Some 32 ->
    (forall j : nat, (Z.of_nat i < Z.of_nat j <= maxChars)%Z ->
                     rest !! j <> Some 32) ->
    greedy_split maxChars (trim (drop i rest)) chunks ->
    greedy_split maxChars rest (trim (take i rest) :: chunks)
| split_hard rest chunks :
    (maxChars < Z.of_nat (length rest))%Z ->
    (forall j : nat, (floor_06 maxChars <= Z.of_nat j <= maxChars)%Z ->
                     rest !! j <> Some 32) ->
    greedy_split maxChars (trim (drop (Z.to_nat maxChars) rest)) chunks ->
    greedy_split maxChars rest
      (trim (take (Z.to_nat maxChars) rest) :: chunks).

End Chunker.

(** ** The version store and the ingestion run
       ([scripts/ingest-laws.js], tables of [sql/law_chunks.sql]) *)

Module Store.
Import Js.

Inductive status : Type := loading | active | failed | archived.

#[global] Instance status_eq_dec : EqDecision status.
Proof. solve_decision. Defined.

(** A row of [law_dataset_versions], keyed by [version_tag]. *)
Record version : Type := Version {
  source_url : option (list N);
  imported_at : Z;
  v_status : status
}.

(** A row of [law_dataset_meta], keyed by [key]. *)
Record meta : Type := Meta {
  value : list N;
  updated_at : Z
}.

(** A row of [law_chunks]; [E] is the type of embedding vectors.  The
    columns [id] (a serial key) and [created_at], which the database fills
    in and no statement of the programs modelled here reads, are left
    out: the model holds the content of a row, not its identity. *)
Record chunk (E : Type) : Type := Chunk {
  version_tag : list N;
  law : list N;
  section : option (list N);
  title : option (list N);
  text : list N;
  source : list N;
  embedding : E
}.
Arguments Chunk {E}.
Arguments version_tag {E}.
Arguments law {E}.
Arguments section {E}.
Arguments title {E}.
Arguments text {E}.
Arguments source {E}.
Arguments embedding {E}.

Record db (E : Type) : Type := Db {
  law_dataset_versions : gmap (list N) version;
  law_chunks : list (chunk E);
  law_dataset_meta : gmap (list N) meta
}.
Arguments Db {E}.
Arguments law_dataset_versions {E}.
Arguments law_chunks {E}.
Arguments law_dataset_meta {E}.

Definition active_version_tag : list N := lit "active_version_tag".

Definition set_status (st : status) (v : version) : version :=
  Version (source_url v) (imported_at v) st.

Definition status_of {E} (d : db E) (tag : list N) : option status :=
  v_status <$> law_dataset_versions d !! tag.

(** The value of the active pointer. *)
Definition pointer {E} (d : db E) : option (list N) :=
  value <$> law_dataset_meta d !! active_version_tag.

Definition chunks_of {E} (d : db E) (tag : list N) : list (chunk E) :=
  List.filter (fun c => str_eqb (version_tag c) tag) (law_chunks d).

(** At most one version has the status [active]. *)
Definition at_most_one_active {E} (d : db E) : Prop :=
  forall t1 t2,
    status_of d t1 = Some active -> status_of d t2 = Some active -> t1 = t2.

Section Statements.
Context {E : Type}.

(** [INSERT INTO law_dataset_versions ... VALUES ($1, $2, 'loading')
     ON CONFLICT (version_tag) DO UPDATE SET source_url = ...,
     status = 'loading', imported_at = NOW()] *)
Definition beginVersion (tag : list N) (url : option (list N)) (now : Z)
    (d : db E) : db E :=
  Db (<[tag := Version url now loading]> (law_dataset_versions d))
     (law_chunks d) (law_dataset_meta d).

(** [DELETE FROM law_chunks WHERE version_tag = $1] *)
Definition deleteChunks (tag : list N) (d : db E) : db E :=
  Db (law_dataset_versions d)
     (List.filter (fun c => negb (str_eqb (version_tag c) tag))
                  (law_chunks d))
     (law_dataset_meta d).

(** [INSERT INTO law_chunks (version_tag, law, ...) VALUES (...)] *)
Definition insertChunk (c : chunk E) (d : db E) : db E :=
  Db (law_dataset_versions d) (law_chunks d ++ [c]) (law_dataset_meta d).

(** [UPDATE law_dataset_versions SET status = 'archived'
     WHERE status = 'active' AND version_tag <> $1] *)
Definition archiveOthers (tag : list N) (d : db E) : db E :=
  Db (map_imap (fun t v =>
        Some (if decide (v_status v = active /\ t <> tag)
              then set_status archived v else v))
        (law_dataset_versions d))
     (law_chunks d) (law_dataset_meta d).

(** [UPDATE law_dataset_versions SET status = 'active'
     WHERE version_tag = $1] *)
Definition activate (tag : list N) (d : db E) : db E :=
  Db (alter (set_status active) tag (law_dataset_versions d))
     (law_chunks d) (law_dataset_meta d).

(** [INSERT INTO law_dataset_meta (key, value)
     VALUES ('active_version_tag', $1)
     ON CONFLICT (key) DO UPDATE SET value = ..., updated_at = NOW()] *)
Definition setPointer (tag : list N) (now : Z) (d : db E) : db E :=
  Db (law_dataset_versions d) (law_chunks d)
     (<[active_version_tag := Meta tag now]> (law_dataset_meta d)).

(** The three statements that end a successful run. *)
Definition commitVersion (tag : list N) (now : Z) (d : db E) : db E :=
  setPointer tag now (activate tag (archiveOthers tag d)).

(** [UPDATE law_dataset_versions SET status = 'failed',
     imported_at = NOW() WHERE version_tag = $1] *)
Definition markVersionFailed (tag : list N) (now : Z) (d : db E) : db E :=
  Db (alter (fun v => Version (source_url v) now failed) tag
            (law_dataset_versions d))
     (law_chunks d) (law_dataset_meta d).

(** One operation of the version store. *)
Inductive step : db E -> db E -> Prop :=
| step_begin tag url now d : step d (beginVersion tag url now d)
| step_commit tag now d : step d (commitVersion tag now d)
| step_fail tag now d : step d (markVersionFailed tag now d).

Inductive reachable (d0 : db E) : db E -> Prop :=
| reach_refl : reachable d0 d0
| reach_step d d' : reachable d0 d -> step d d' -> reachable d0 d'.

(** *** The transaction of [main]

    A statement sent to the store either runs or throws; [fails k] tells
    whether the [k]-th statement of the transaction throws.  The body runs
    on a working copy of the database: [COMMIT] publishes it, [ROLLBACK]
    drops it. *)
Definition tx (A : Type) : Type := db E * nat -> option (A * (db E * nat)).

Definition ret {A} (a : A) : tx A := fun s => Some (a, s).

Definition bind {A B} (c : tx A) (f : A -> tx B) : tx B :=
  fun s => match c s with
           | Some (a, s') => f a s'
           | None => None
           end.

Definition throw {A} : tx A := fun _ => None.

(** [await client.query(...)] *)
Definition query (fails : nat -> bool) (f : db E -> db E) : tx unit :=
  fun s => if fails (snd s) then None else Some (tt, (f (fst s), S (snd s))).

Definition lift {A} (o : option A) : tx A :=
  match o with
  | Some a => ret a
  | None => throw
  end.

End Statements.

Notation "x <- c ;; k" := (bind c (fun x => k))
  (at level 100, c at next level, right associativity).
Notation "c ;;; k" := (bind c (fun _ => k))
  (at level 100, right associativity).

(** A row produced by [parseNormBlocks]. *)
Record row : Type := Row {
  r_law : list N;
  r_section : option (list N);
  r_title : option (list N);
  r_text : list N;
  r_source : list N
}.

Inductive ingest_mode : Type := replace | append.

Section Ingest.
Context {E : Type}.
(** The embedding provider: [None] when the request throws. *)
Variable embedBatch : list (list N) -> option (list E).
Variable fails : nat -> bool.
Variable LAW_VERSION_TAG : list N.
Variable LAW_SOURCE_URL : list N.
Variable LAW_INGEST_MODE : ingest_mode.
(** [EMB_BATCH_SIZE - 1]: the batch size is positive. *)
Variable batch_pred : nat.
Variable now : Z.

(** [insertRows]: [embeddings[i].join] throws when the provider returned
    too few vectors. *)
Fixpoint insertRows (rows : list row) (embeddings : list E) : tx unit :=
  match rows with
  | [] => ret tt
  | r :: rows' =>
      match embeddings with
      | [] => throw
      | e :: embeddings' =>
          query fails (insertChunk
            (Chunk LAW_VERSION_TAG (r_law r) (r_section r) (r_title r)
                   (r_text r) (r_source r) e)) ;;;
          insertRows rows' embeddings'
      end
  end.

(** [for (let i = 0; i < rows.length; i += EMB_BATCH_SIZE)] *)
Fixpoint ingestBatches (fuel : nat) (rows : list row) : tx unit :=
  match fuel with
  | O => ret tt
  | S fuel' =>
      match rows with
      | [] => ret tt
      | _ :: _ =>
          let batch := take (S batch_pred) rows in
          embeddings <- lift (embedBatch (map r_text batch)) ;;
          insertRows batch embeddings ;;;
          ingestBatches fuel' (drop (S batch_pred) rows)
      end
  end.

(** [for (const filePath of xmlFiles)], each file given by the rows that
    [parseNormBlocks] reads from it. *)
Fixpoint ingestFiles (xmlFiles : list (list row)) : tx unit :=
  match xmlFiles with
  | [] => ret tt
  | rows :: files' =>
      ingestBatches (length rows) rows ;;;
      ingestFiles files'
  end.

(** The body of the [try] block, from [BEGIN] to [COMMIT]. *)
Definition transaction (xmlFiles : list (list row)) : tx unit :=
  query fails id ;;;
  query fails (beginVersion LAW_VERSION_TAG
                 (match LAW_SOURCE_URL with [] => None | _ => Some LAW_SOURCE_URL end)
                 now) ;;;
  match LAW_INGEST_MODE with
  | replace => query fails (deleteChunks LAW_VERSION_TAG)
  | append => ret tt
  end ;;;
  ingestFiles xmlFiles ;;;
  query fails (archiveOthers LAW_VERSION_TAG) ;;;
  query fails (activate LAW_VERSION_TAG) ;;;
  query fails (setPointer LAW_VERSION_TAG now) ;;;
  query fails id.

Inductive outcome : Type :=
| NoFiles          (* [if (!xmlFiles.length) return] *)
| Done             (* the transaction was committed *)
| INGEST_FAILED.   (* the error was rethrown *)

(** [main].  [mark_throws] tells whether the statement of
    [markVersionFailed] throws (the error is swallowed); [now'] is the time
    of that statement. *)
Definition main (mark_throws : bool) (now' : Z)
    (xmlFiles : list (list row)) (d : db E) : outcome * db E :=
  match xmlFiles with
  | [] => (NoFiles, d)
  | _ :: _ =>
      match transaction xmlFiles (d, O) with
      | Some (_, (d', _)) => (Done, d')
      | None =>
          (INGEST_FAILED,
           if mark_throws then d
           else markVersionFailed LAW_VERSION_TAG now' d)
      end
  end.

End Ingest.

End Store.

(** ** The retrievers *)

Module Retrieval.
Import Js Store.

(** Comparison of two tags by code units, the order of [MAX(version_tag)]
    under the C collation. *)
Fixpoint str_leb (a b : list N) : bool :=
  match a, b with
  | [], _ => true
  | _ :: _, [] => false
  | x :: a', y :: b' => (x <? y) || ((x =? y) && str_leb a' b')
  end.

Definition max_tag (a b : list N) : list N := if str_leb a b then b else a.

(** The order of tags as the specification means it: [a] comes before [b],
    or is [b], when the strings are compared unit by unit (the order of
    dates written [YYYY-MM-DD]). *)
Inductive tag_le : list N -> list N -> Prop :=
| tag_le_nil b : tag_le [] b
| tag_le_lt x a y b : x < y -> tag_le (x :: a) (y :: b)
| tag_le_eq x a b : tag_le a b -> tag_le (x :: a) (x :: b).

Section Retrievers.
Context {E : Type}.
(** [closer c1 c2]: [c1] is at most as far from the query vector as [c2]
    ([ORDER BY embedding <=> $1]).  The queries are read as SQL defines
    them: the rows that meet the [WHERE] clause, nearest first, cut at
    [LIMIT]; a scan through the approximate index of the schema may
    return fewer of them. *)
Variable closer : chunk E -> chunk E -> bool.

Fixpoint insert_ranked (c : chunk E) (l : list (chunk E)) : list (chunk E) :=
  match l with
  | [] => [c]
  | c' :: l' => if closer c c' then c :: l else c' :: insert_ranked c l'
  end.

Definition rank (l : list (chunk E)) : list (chunk E) :=
  foldr insert_ranked [] l.

(** [SELECT MAX(version_tag) FROM law_chunks] *)
Definition max_version_tag (cs : list (chunk E)) : option (list N) :=
  match cs with
  | [] => None
  | c :: cs' => Some (fold_left (fun t c' => max_tag t (version_tag c'))
                                cs' (version_tag c))
  end.

(** The CTE [effective_version] of the server's query. *)
Definition effective_version (d : db E) : option (list N) :=
  match pointer d with
  | Some t =>
      match chunks_of d t with
      | _ :: _ => Some t
      | [] => max_version_tag (law_chunks d)
      end
  | None => max_version_tag (law_chunks d)
  end.

(** [retrieveLegalSources] of the server: the rows of the query, best
    first.  [dbPool] is [None] without [DATABASE_URL]; [embedding] is
    [None] when the provider did not answer with an array; [lawCodes] is
    the array of the caller (empty when none is given). *)
Definition retrieveLegalSources (LEGAL_TOP_K : nat) (dbPool : option (db E))
    (queryText : list N) (embedding : option E)
    (topK : option nat) (lawCodes : list (list N)) : list (chunk E) :=
  match queryText, dbPool, embedding with
  | _ :: _, Some d, Some _ =>
      let limit := match topK with
                   | Some (S k) => S k
                   | _ => LEGAL_TOP_K
                   end in
      let lawCodeFilter := List.filter (fun l => negb (str_eqb l [])) lawCodes in
      let ev := effective_version d in
      take limit (rank (List.filter (fun c =>
        match ev with
        | None => true
        | Some t => str_eqb (version_tag c) t
        end
        && match lawCodeFilter with
           | [] => true
           | _ :: _ => existsb (str_eqb (law c)) lawCodeFilter
           end) (law_chunks d)))
  | _, _, _ => []
  end.

(** [getActiveVersionTag] of [ai/retrieveLawsPg.js]:
    [SELECT version_tag FROM law_dataset_versions WHERE status = 'active'
     ORDER BY imported_at DESC LIMIT 1] inside [try], and ["legacy"]
    without such a row or when the query throws ([query_throws]): the
    error is caught and dropped. *)
Definition newest (a b : list N * version) : list N * version :=
  if (imported_at (snd a) <? imported_at (snd b))%Z then b else a.

Definition getActiveVersionTag (query_throws : bool) (d : db E) : list N :=
  if query_throws then lit "legacy"
  else
    match List.filter (fun tv => bool_decide (v_status (snd tv) = active))
            (map_to_list (law_dataset_versions d)) with
    | [] => lit "legacy"
    | tv :: l =>
        match fst (fold_left newest l tv) with
        | [] => lit "legacy"
        | t => t
        end
    end.

(** [retrieveLaws] of [ai/retrieveLawsPg.js]: the rows that are formatted
    into the answer (the function returns the empty string when there is
    none), and [None] when the function throws.  [vec] is the answer of
    the embedding request: [None] when the request throws, [Some None]
    when it holds no array and [Some (Some n)] for an array of [n]
    numbers; an answer that is not an array of 1536 numbers makes the
    function throw.  [fails k] tells whether the [k]-th query sent to the
    store throws: the version query (whose error is caught) and the query
    for the rows (whose error is not). *)
Definition retrieveLaws (fails : nat -> bool) (d : db E) (query : list N)
    (vec : option (option nat)) (topK : nat) : option (list (chunk E)) :=
  match trim query with
  | [] => Some []
  | _ :: _ =>
      match vec with
      | Some (Some n) =>
          if (n =? 1536)%nat then
            let versionTag := getActiveVersionTag (fails O) d in
            if fails 1%nat then None
            else Some (take topK (rank (chunks_of d versionTag)))
          else None
      | _ => None
      end
  end.

End Retrievers.

End Retrieval.

(** ** Concrete databases and runs used in the examples *)

Module Examples.
Import Js Store Retrieval.

Definition chunk_823 : chunk unit :=
  Chunk (lit "2026-02-01") (lit "BGB") (Some (lit "§ 823"))
        (Some (lit "Schadensersatzpflicht"))
        (lit "Wer vorsätzlich oder fahrlässig das Leben verletzt")
        (lit "bgb.xml") tt.

(** The version of February is active and holds one chunk. *)
Definition db_february : db unit :=
  Db {[ lit "2026-02-01" := Version None 1 active ]}
     [chunk_823]
     {[ active_version_tag := Meta (lit "2026-02-01") 1 ]}.

Definition rows_bgb : list row :=
  [Row (lit "BGB") (Some (lit "§ 1")) None
       (lit "Die Rechtsfähigkeit des Menschen beginnt mit der Geburt")
       (lit "bgb.xml")].

(** A provider that answers every batch, and one that fails. *)
Definition embed_ok (inputs : list (list N)) : option (list unit) :=
  Some (map (fun _ => tt) inputs).
Definition embed_down (inputs : list (list N)) : option (list unit) := None.

Definition store_ok (k : nat) : bool := false.

(** A run for the new tag of March over the given files. *)
Definition run_march (embedBatch : list (list N) -> option (list unit))
    (xmlFiles : list (list row)) : outcome * db unit :=
  main embedBatch store_ok (lit "2026-03-01") [] replace 31 5 false 6
       xmlFiles db_february.

(** The database after a committed run for March over one file without
    norms: the pointer and the status name the version of March, which
    holds no chunk; the chunks of February are still stored. *)
Definition db_stale : db unit := snd (run_march embed_ok [[]]).

Definition any_order (c1 c2 : chunk unit) : bool := true.

End Examples.

(** ** Predicates used in the statements and proofs *)

Module Shape.
Import Js.

Definition starts_space (s : list N) : bool :=
  match s with
  | c :: _ => is_space c
  | [] => false
  end.

Definition starts_32 (s : list N) : bool :=
  match s with
  | c :: _ => c =? 32
  | [] => false
  end.

(** A token of [normalizeNorm]: not empty, without white space and without
    a dollar sign. *)
Definition plain (tok : list N) : bool :=
  match tok with
  | [] => false
  | _ :: _ => forallb (fun c => negb (is_space c) && negb (c =? 36)) tok
  end.

(** All white space is a single U+0020 between or around other units. *)
Fixpoint tidy (s : list N) : bool :=
  match s with
  | [] => true
  | c :: s' =>
      (if is_space c then (c =? 32) && negb (starts_space s') else true)
      && tidy s'
  end.

(** Every occurrence of [tok] in [s] is followed by U+0020. *)
Definition followed_here (tok s : list N) : bool :=
  match strip_prefix tok s with
  | Some rest => starts_32 rest
  | None => true
  end.

Fixpoint followed (tok s : list N) : bool :=
  followed_here tok s &&
  match s with
  | [] => true
  | _ :: s' => followed tok s'
  end.

(** Every occurrence of [tok] in [s] is followed by U+0020 or ends [s]. *)
Definition closed_here (tok s : list N) : bool :=
  match strip_prefix tok s with
  | Some (c :: _) => c =? 32
  | _ => true
  end.

Fixpoint closed (tok s : list N) : bool :=
  closed_here tok s &&
  match s with
  | [] => true
  | _ :: s' => closed tok s'
  end.

(** [s] does not end with white space. *)
Definition ends_clean (s : list N) : bool := negb (starts_space (rev s)).

(** The first string of a list is one of its shortest. *)
Definition head_shortest (l : list (list N)) : Prop :=
  match l with
  | [] => True
  | c :: _ => forall c', c' ∈ l -> (length c <= length c')%nat
  end.

End Shape.

(** ** Merging the answers of two retrievals
       ([mergeLegalSourcesUnique] of the server) *)

Module Merge.
Import Js Guard Store.

Section Merge.
Context {E : Type}.

(** [[src.law || "", src.section || "", src.title || "",
      String(src.text || "").slice(0, 300)].join("|")] for a row of
    [retrieveLegalSources]. *)
Definition source_key (src : chunk E) : list N :=
  law src ++ lit "|" ++ default [] (section src) ++ lit "|"
  ++ default [] (title src) ++ lit "|" ++ slice_to (text src) 300.

(** One turn of the loop: the state is [merged] and [seen]. *)
Definition merge_step (st : list (chunk E) * list (list N)) (src : chunk E)
  : list (chunk E) * list (list N) :=
  let key := source_key src in
  if set_has key (snd st) then st
  else (fst st ++ [src], set_add key (snd st)).

Definition mergeLegalSourcesUnique (primary secondary : list (chunk E))
  : list (chunk E) :=
  fst (fold_left merge_step (primary ++ secondary) ([], [])).

End Merge.

End Merge.

(** ** Pruning old versions ([scripts/update-laws-monthly.js]) *)

Module Monthly.
Import Js Store.

Section Prune.
Context {E : Type}.
(** [fails k] tells whether the [k]-th statement of the function throws.
    The statements run outside a transaction: each takes effect at once,
    and a statement that throws ends the function. *)
Variable fails : nat -> bool.

(** [SELECT value FROM law_dataset_meta WHERE key = 'active_version_tag'
     LIMIT 1], then [rows[0]?.value || null]. *)
Definition getCurrentActiveVersion (d : db E) : option (list N) :=
  match pointer d with
  | Some (c :: v) => Some (c :: v)
  | _ => None
  end.

(** [UPDATE law_dataset_versions SET status = 'archived'
     WHERE version_tag = $1] *)
Definition archiveVersion (tag : list N) (d : db E) : db E :=
  Db (alter (set_status archived) tag (law_dataset_versions d))
     (law_chunks d) (law_dataset_meta d).

(** [SELECT version_tag FROM law_dataset_versions WHERE version_tag <> $1] *)
Definition other_versions (keepVersionTag : list N) (d : db E)
  : list (list N) :=
  List.filter (fun t => negb (str_eqb t keepVersionTag))
              (map fst (map_to_list (law_dataset_versions d))).

(** [for (const r of rows)]: the database that is left, and whether the
    loop ran to its end. *)
Fixpoint prune_loop (k : nat) (rows : list (list N)) (d : db E)
  : db E * bool :=
  match rows with
  | [] => (d, true)
  | t :: rows' =>
      if fails k then (d, false)
      else
        let d1 := deleteChunks t d in
        if fails (S k) then (d1, false)
        else prune_loop (S (S k)) rows' (archiveVersion t d1)
  end.

Definition pruneOldVersions (keepVersionTag : list N) (d : db E)
  : db E * bool :=
  if fails O then (d, false)
  else prune_loop 1 (other_versions keepVersionTag d) d.

End Prune.

End Monthly.

(** ** The guard of the first answerer ([ai/utils/citationsGuard.js],
       [ai/legalAnswer.js]) *)

Module LegacyGuard.
Import Js Re Guard.

(** [typeof contextLawsText === "string" &&
     contextLawsText.trim().length > 40]; [None] stands for a value that
    is not a string. *)
Definition hasLawContext (contextLawsText : option (list N)) : bool :=
  match contextLawsText with
  | Some s => (40 <? length (trim s))%nat
  | None => false
  end.

(** [/§\s*\d+[a-zA-Z]*/g], the expression of [stripFakeCitations] *)
Definition CITATION_REGEX : regex :=
  seqs [Lit (lit "§"); sp; digits; letters].

(** [/§\s*\d+/], the expression of the test in [guardAnswer] *)
Definition CITATION_TEST : regex := seqs [Lit (lit "§"); sp; digits].

(** [s.replace(/r/g, f)] for a function [f] of the matched text. *)
Fixpoint rebuild_fn (f : list N -> list N) (ps : list piece) : list N :=
  match ps with
  | [] => []
  | Keep c :: ps' => c :: rebuild_fn f ps'
  | Hit mt :: ps' => f mt ++ rebuild_fn f ps'
  end.

Definition replace_fn (r : regex) (f : list N -> list N) (s : list N)
  : list N :=
  rebuild_fn f (pieces r s).

(** [/r/.test(s)] for an expression without the [g] flag: there is a match
    at some index. *)
Fixpoint test_from (r : regex) (pw : bool) (s : list N) : bool :=
  match exec r pw s with
  | Some _ => true
  | None =>
      match s with
      | [] => false
      | c :: s' => test_from r (is_word c) s'
      end
  end.

Definition test (r : regex) (s : list N) : bool := test_from r false s.

(** [(m) => `(${m} — не подтверждено источниками)`] *)
Definition marked (m : list N) : list N :=
  lit "(" ++ m ++ lit " — не подтверждено источниками)".

Definition warning : list N :=
  [10; 10] ++ lit "Внимание: ссылки на параграфы помечены как непроверенные, потому что база норм не была предоставлена агенту.".

(** [answer] is the string [String(answer || "")]. *)
Definition stripFakeCitations (answer : list N) : list N :=
  let cleaned := replace_fn CITATION_REGEX marked answer in
  cleaned ++ warning.

Definition guardAnswer (answer : list N) (contextLawsText : option (list N))
  : list N :=
  if hasLawContext contextLawsText then answer
  else if test CITATION_TEST answer then stripFakeCitations answer
  else answer.

(** [answerLegalQuestion] of [createLegalAnswerer]: [retrieved] is the
    string that [retrieveLaws] returns, [None] when it throws; [raw] is
    the string [String(raw || "")] of the model's answer.  The result is
    [answer] and [used_context]. *)
Definition answerLegalQuestion (retrieved : option (list N)) (raw : list N)
  : list N * bool :=
  let contextLawsText := match retrieved with Some s => s | None => [] end in
  let safe := guardAnswer raw (Some contextLawsText) in
  (safe,
   match contextLawsText with
   | [] => false
   | _ :: _ => match trim contextLawsText with [] => false | _ :: _ => true end
   end).

End LegacyGuard.

(** ** The allowlist of the citation guard
       ([buildNormAllowlist] of [src/guards/citationGuard.js]) *)

Module Allowlist.
Import Js Re Guard Retrieval.

(** A retrieved source, with the fields the function reads.  The fields
    hold strings; a field that is missing holds the empty string. *)
Record source_doc : Type := SourceDoc {
  id : list N;
  source_id : list N;
  sourceId : list N;
  s_section : list N;
  s_law : list N;
  s_title : list N;
  s_text : list N;
  s_content : list N
}.

(** [a || b] on strings *)
Definition or_else (a b : list N) : list N :=
  match a with
  | [] => b
  | _ :: _ => a
  end.

(** [Array.prototype.join] *)
Fixpoint join (sep : list N) (l : list (list N)) : list N :=
  match l with
  | [] => []
  | x :: l' =>
      match l' with
      | [] => x
      | _ :: _ => x ++ sep ++ join sep l'
      end
  end.

Definition srcId (src : source_doc) : list N :=
  or_else (id src) (or_else (source_id src) (sourceId src)).

(** The text in which the norms of a source are looked for. *)
Definition source_text (src : source_doc) : list N :=
  join [10]
    (List.filter (fun p => negb (str_eqb p []))
       [ match s_section src, s_law src with
         | _ :: _, _ :: _ => s_section src ++ lit " " ++ s_law src
         | _, _ => []
         end;
         s_section src;
         s_title src;
         or_else (s_text src) (s_content src);
         s_law src ]).

(** The body of [for (const norm of norms)]: the state is the set
    [allowed] and the map [normToSourceIds]. *)
Definition add_norm (srcId : list N)
    (st : list (list N) * gmap (list N) (list (list N))) (norm : list N)
  : list (list N) * gmap (list N) (list (list N)) :=
  let ids := default [] (snd st !! norm) in
  (set_add norm (fst st),
   <[norm := match srcId with
             | [] => ids
             | _ :: _ => set_add srcId ids
             end]> (snd st)).

(** The body of [for (const src of sources)]. *)
Definition add_source (st : list (list N) * gmap (list N) (list (list N)))
    (src : source_doc) : list (list N) * gmap (list N) (list (list N)) :=
  fold_left (add_norm (srcId src)) (extractNorms (source_text src)) st.

(** [normToSourceIds.get(norm) || []] *)
Definition ids_of (m : gmap (list N) (list (list N))) (n : list N)
  : list (list N) :=
  default [] (m !! n).

(** [Array.prototype.sort] is stable: an insertion sort for the comparison
    function [cmp], which answers a negative number, zero or a positive
    number. *)
Fixpoint insert_by (cmp : list N -> list N -> Z) (a : list N)
    (l : list (list N)) : list (list N) :=
  match l with
  | [] => [a]
  | b :: l' =>
      if (cmp a b <=? 0)%Z then a :: l else b :: insert_by cmp a l'
  end.

Definition sort_by (cmp : list N -> list N -> Z) (l : list (list N))
  : list (list N) :=
  foldr (insert_by cmp) [] l.

(** The comparison of [sort()] without an argument: by code units. *)
Definition compare_units (a b : list N) : Z :=
  if str_eqb a b then 0%Z else if str_leb a b then (-1)%Z else 1%Z.

Record allowlist : Type := MkAllowlist {
  allowedNorms : list (list N);
  normToSourceIds : list (list N * list (list N));
  allowedNormsText : list N;
  normSourcesText : list N
}.

Section Build.
(** [a.localeCompare(b, "de")] *)
Variable localeCompare : list N -> list N -> Z.

Definition buildNormAllowlist (sources : list source_doc) (maxNorms : nat)
  : allowlist :=
  let st := fold_left add_source sources ([], ∅) in
  let allowedArr := sort_by localeCompare (fst st) in
  let capped := take maxNorms allowedArr in
  let cappedMap :=
    map (fun norm =>
           (norm, sort_by compare_units (default [] (snd st !! norm))))
        capped in
  MkAllowlist capped cappedMap
    (join [10] capped)
    (join [10]
       (map (fun n =>
               n ++ lit " -> "
               ++ join (lit ", ")
                    (default []
                       (snd <$> List.find (fun nm => str_eqb (fst nm) n)
                                          cappedMap)))
            capped)).

End Build.

End Allowlist.

(** ** The retriever of [server.js] *)

Module Server.
Import Js Store Retrieval.

Section Retriever.
Context {E : Type}.
Variable closer : chunk E -> chunk E -> bool.

(** [retrieveLegalSources] of [server.js]: the rows of the query, best
    first; [None] when the function throws.  [embRes] is the answer of the
    embedding provider: [None] when it is not [ok] (the function throws),
    [Some None] when it holds no array. *)
Definition retrieveLegalSources (LEGAL_TOP_K : nat) (dbPool : option (db E))
    (_sanitizedText : list N) (embRes : option (option E))
  : option (list (chunk E)) :=
  match _sanitizedText, dbPool with
  | _ :: _, Some d =>
      match embRes with
      | None => None
      | Some None => Some []
      | Some (Some _) =>
          Some (take LEGAL_TOP_K (rank closer (List.filter (fun c =>
            match pointer d with
            | Some t => str_eqb (version_tag c) t
            | None => true
            end) (law_chunks d))))
      end
  | _, _ => Some []
  end.

End Retriever.

End Server.

(** ** Markup removal ([stripHtml] of [scripts/update-laws-monthly.js]) *)

Module Harvest.
Import Js Re Guard.

(** [[^>]] *)
Definition not_gt (c : N) : bool := negb (c =? 62).

(** [/<[^>]+>/g] *)
Definition TAG_REGEX : regex :=
  seqs [Lit (lit "<"); plus not_gt; Lit (lit ">")].

Definition stripHtml (s : list N) : list N :=
  trim (collapse_spaces (replace_g TAG_REGEX (lit " ") s)).

(** The text after the first [>] of [s]. *)
Fixpoint after_gt (s : list N) : option (list N) :=
  match s with
  | [] => None
  | c :: s' => if c =? 62 then Some s' else after_gt s'
  end.

(** A tag starts at the head of [s]: [<], a unit other than [>], and a
    [>] further on. *)
Definition tag_here (s : list N) : bool :=
  match s with
  | c :: x :: tl => (c =? 60) && not_gt x && existsb (N.eqb 62) tl
  | _ => false
  end.

(** No tag starts anywhere in [s]. *)
Fixpoint no_tag (s : list N) : bool :=
  negb (tag_here s) &&
  match s with
  | [] => true
  | _ :: s' => no_tag s'
  end.

End Harvest.

(** ** Further notions used in the statements *)

Module Notions.
Import Js Guard Shape Store.

(** The units of a string that are not white space, in their order. *)
Definition solid (s : list N) : list N :=
  List.filter (fun c => negb (is_space c)) s.

(** The canonical shape of a citation: the only white space is single
    U+0020 between other units, none at either end, and every occurrence
    of a token of [normalizeNorm] is followed by U+0020 or ends the
    string. *)
Definition canonical (s : list N) : bool :=
  tidy s && negb (starts_space s) && ends_clean s
  && forallb (fun tok => closed tok s) norm_tokens.

(** What the loop of [sanitizeAnswerCitations] keeps true of its two reports, for the matches [found]
    of the answer. *)
Definition reports_sound (allowedNorms found : list (list N))
    (st : sanitized) : Prop :=
  NoDup (removedNorms st) /\
  (forall x, x ∈ removedNorms st ->
     (x ∉ allowedNorms) /\ exists raw, raw ∈ found /\ x = normalizeNorm raw) /\
  (forall f t, (f, t) ∈ replacedNorms st ->
     t ∈ allowedNorms /\ (f ∉ allowedNorms) /\ same_head_tail f t = true /\
     exists raw, raw ∈ found /\ f = normalizeNorm raw).

(** A citation is accounted for by a state of the loop. *)
Definition accounted (allowedNorms : list (list N)) (st : sanitized)
    (raw : list N) : Prop :=
  normalizeNorm raw ∈ allowedNorms \/
  normalizeNorm raw ∈ removedNorms st \/
  exists t, (normalizeNorm raw, t) ∈ replacedNorms st.

(** The row of [parseNormBlocks] that a stored chunk holds. *)
Definition row_of {E} (c : chunk E) : row :=
  Row (law c) (section c) (title c) (text c) (source c).

(** The chunks that a run in the given mode starts from: in [replace] mode
    the chunks of the run's tag are deleted first. *)
Definition kept_chunks {E} (mode : ingest_mode) (tag : list N) (d : db E)
  : list (chunk E) :=
  match mode with
  | replace =>
      List.filter (fun c => negb (str_eqb (version_tag c) tag)) (law_chunks d)
  | append => law_chunks d
  end.

(** [UPDATE ... SET status = 'archived' WHERE status = 'active'] on one
    row. *)
Definition archive_if_active (v : version) : version :=
  if decide (v_status v = active) then set_status archived v else v.

Section Embedded.
Context {E : Type}.
Variable embedBatch : list (list N) -> option (list E).
Variable tag : list N.
Variable batch_pred : nat.

(** The chunks that [insertRows] writes for a batch and its vectors. *)
Fixpoint embedded_rows (rows : list row) (embeddings : list E)
  : option (list (chunk E)) :=
  match rows with
  | [] => Some []
  | r :: rows' =>
      match embeddings with
      | [] => None
      | e :: embeddings' =>
          match embedded_rows rows' embeddings' with
          | Some cs =>
              Some (Chunk tag (r_law r) (r_section r) (r_title r)
                          (r_text r) (r_source r) e :: cs)
          | None => None
          end
      end
  end.

(** The chunks that the batches of one file add up to. *)
Fixpoint embedded_batches (fuel : nat) (rows : list row)
  : option (list (chunk E)) :=
  match fuel with
  | O => Some []
  | S fuel' =>
      match rows with
      | [] => Some []
      | _ :: _ =>
          let batch := take (S batch_pred) rows in
          match embedBatch (map r_text batch) with
          | None => None
          | Some embeddings =>
              match embedded_rows batch embeddings,
                    embedded_batches fuel' (drop (S batch_pred) rows) with
              | Some cs, Some cs' => Some (cs ++ cs')
              | _, _ => None
              end
          end
      end
  end.

(** The chunks that a run over the files adds up to. *)
Fixpoint embedded_files (xmlFiles : list (list row))
  : option (list (chunk E)) :=
  match xmlFiles with
  | [] => Some []
  | rows :: files' =>
      match embedded_batches (length rows) rows, embedded_files files' with
      | Some cs, Some cs' => Some (cs ++ cs')
      | _, _ => None
      end
  end.

End Embedded.

End Notions.

(** * Properties *)

(** ** The matcher and the global scan *)

Module ReFacts.
Import Js Re.

Lemma m_lit_suffix {A} l pw s (k : cont A) x :
  m_lit l pw s k = Some x ->
  exists pw' s', k pw' s' = Some x /\ s = l ++ s'.
Proof.
  revert pw s. induction l as [|a l IH]; intros pw s H; simpl in H.
  - eauto.
  - destruct s as [|c s]; [discriminate|].
    destruct (N.eqb_spec a c) as [->|]; [|discriminate].
    apply IH in H as (pw' & s' & Hk & ->). eauto.
Qed.

Lemma m_rep_consumes {A} p mn mx pw s (k : cont A) x :
  m_rep p mn mx pw s k = Some x ->
  exists pw' s' pre,
    k pw' s' = Some x /\ s = pre ++ s' /\ forallb p pre = true.
Proof.
  revert mn mx pw. induction s as [|c s IH]; intros mn mx pw H.
  - simpl in H. destruct mx as [[|?]|]; simpl in H;
      destruct mn; try discriminate; exists pw, [], []; auto.
  - cbn [m_rep] in H.
    assert (Hexit : match mn with O => k pw (c :: s) | S _ => None end = Some x ->
              exists pw' s' pre,
                k pw' s' = Some x /\ c :: s = pre ++ s' /\ forallb p pre = true).
    { destruct mn; [|discriminate]. intros. exists pw, (c :: s), []. auto. }
    destruct mx as [[|mx]|]; [auto| |].
    + destruct (p c) eqn:Hc; [|auto].
      destruct (m_rep p (pred mn) (option_map pred (Some (S mx))) (is_word c) s k) eqn:Hr;
        [|auto].
      injection H as ->. apply IH in Hr as (pw' & s' & pre & Hk & -> & Hp).
      exists pw', s', (c :: pre). simpl. rewrite Hc, Hp. auto.
    + destruct (p c) eqn:Hc; [|auto].
      destruct (m_rep p (pred mn) (option_map pred None) (is_word c) s k) eqn:Hr;
        [|auto].
      injection H as ->. apply IH in Hr as (pw' & s' & pre & Hk & -> & Hp).
      exists pw', s', (c :: pre). simpl. rewrite Hc, Hp. auto.
Qed.

Lemma forallb_weaken (p q : N -> bool) l :
  (forall c, p c = true -> q c = true) ->
  forallb p l = true -> forallb q l = true.
Proof.
  intros Hpq H. apply forallb_forall. intros c Hc.
  eapply forallb_forall in H; eauto.
Qed.

Lemma accepts_lit l : forallb (accepts (Lit l)) l = true.
Proof.
  apply forallb_forall. intros c Hc. simpl. apply existsb_exists.
  exists c. split; [done|apply N.eqb_refl].
Qed.

(** A successful match hands to its continuation a suffix of the input,
    and the units before it are units the expression accepts. *)
Lemma m_consumes {A} r pw s (k : cont A) x :
  m r pw s k = Some x ->
  exists pw' s' pre,
    k pw' s' = Some x /\ s = pre ++ s' /\ forallb (accepts r) pre = true.
Proof.
  revert A pw s k x. induction r as [p|l|p mn mx|r1 IH1 r2 IH2|r1 IH1 r2 IH2|r IH|];
    intros A pw s k x H; simpl in H.
  - destruct s as [|c s]; [discriminate|]. destruct (p c) eqn:Hc; [|discriminate].
    exists (is_word c), s, [c]. simpl. rewrite Hc. auto.
  - apply m_lit_suffix in H as (pw' & s' & Hk & ->).
    exists pw', s', l. split; [done|]. split; [done|apply accepts_lit].
  - by apply m_rep_consumes in H.
  - apply IH1 in H as (pw1 & s1 & pre1 & H & -> & Hp1).
    apply IH2 in H as (pw2 & s2 & pre2 & H & -> & Hp2).
    exists pw2, s2, (pre1 ++ pre2). rewrite <- app_assoc.
    split; [done|]. split; [done|]. rewrite forallb_app.
    apply andb_true_iff. split.
    + revert Hp1. apply forallb_weaken. intros c Hc. simpl. by rewrite Hc.
    + revert Hp2. apply forallb_weaken. intros c Hc. simpl.
      rewrite Hc. apply orb_true_r.
  - destruct (m r1 pw s k) eqn:H1.
    + injection H as ->. apply IH1 in H1 as (pw1 & s1 & pre1 & H & -> & Hp1).
      exists pw1, s1, pre1. split; [done|]. split; [done|].
      revert Hp1. apply forallb_weaken. intros c Hc. simpl. by rewrite Hc.
    + apply IH2 in H as (pw2 & s2 & pre2 & H & -> & Hp2).
      exists pw2, s2, pre2. split; [done|]. split; [done|].
      revert Hp2. apply forallb_weaken. intros c Hc. simpl.
      rewrite Hc. apply orb_true_r.
  - match type of H with match ?t with _ => _ end = _ => destruct t eqn:H1 end.
    + injection H as ->. apply IH in H1 as (pw1 & s1 & pre1 & H & -> & Hp).
      destruct (_ <? _)%nat; [|discriminate]. exists pw1, s1, pre1. auto.
    + exists pw, s, []. auto.
  - destruct (xorb _ _); [|discriminate]. exists pw, s, []. auto.
Qed.

Lemma m_suffix {A} r pw s (k : cont A) x :
  m r pw s k = Some x ->
  exists pw' s' pre, k pw' s' = Some x /\ s = pre ++ s'.
Proof.
  intros H. apply m_consumes in H as (pw' & s' & pre & Hk & Hs & _). eauto.
Qed.

Lemma exec_consumes r pw s rest :
  exec r pw s = Some rest ->
  forallb (accepts r) (take (length s - length rest) s) = true.
Proof.
  intros H. apply m_consumes in H as (pw' & s' & pre & [= ->] & -> & Hp).
  rewrite length_app.
  replace (length pre + length rest - length rest)%nat with (length pre) by lia.
  by rewrite take_app_length.
Qed.

Lemma exec_suffix r pw s rest :
  exec r pw s = Some rest -> exists pre, s = pre ++ rest.
Proof.
  intros H. apply m_suffix in H as (pw' & s' & pre & [= ->] & ->). eauto.
Qed.

Lemma exec_take r pw s rest :
  exec r pw s = Some rest ->
  s = take (length s - length rest) s ++ rest.
Proof.
  intros H. apply exec_suffix in H as [pre ->].
  rewrite length_app.
  replace (length pre + length rest - length rest)%nat with (length pre) by lia.
  by rewrite take_app_length.
Qed.

(** Beyond the length of the text, more fuel does not change the scan. *)
Lemma scan_fuel r n1 n2 pw s :
  (length s < n1)%nat -> (length s < n2)%nat ->
  scan n1 r pw s = scan n2 r pw s.
Proof.
  revert n2 pw s. induction n1 as [|n1 IH]; intros n2 pw s H1 H2; [lia|].
  destruct n2 as [|n2]; [lia|]. simpl.
  assert (Hstep : match s with
                  | [] => []
                  | c :: s' => Keep c :: scan n1 r (is_word c) s'
                  end =
                  match s with
                  | [] => []
                  | c :: s' => Keep c :: scan n2 r (is_word c) s'
                  end).
  { destruct s as [|c s]; [done|]. simpl in *. f_equal. apply IH; lia. }
  destruct (exec r pw s) as [rest|] eqn:He; [|done].
  destruct (length s - length rest)%nat eqn:Hn; [by rewrite Hstep|].
  f_equal. apply IH; lia.
Qed.

(** The pieces of the scan make up the whole text. *)
Lemma scan_text r n pw s :
  (length s < n)%nat -> concat (map piece_text (scan n r pw s)) = s.
Proof.
  revert pw s. induction n as [|n IH]; intros pw s Hn; [lia|]. simpl.
  assert (Hstep : concat (map piece_text
                    match s with
                    | [] => []
                    | c :: s' => Keep c :: scan n r (is_word c) s'
                    end) = s).
  { destruct s as [|c s]; [done|]. simpl in *. f_equal. apply IH. lia. }
  destruct (exec r pw s) as [rest|] eqn:He; [|done].
  destruct (length s - length rest)%nat eqn:Hl; [done|].
  simpl. rewrite IH by lia. rewrite <- Hl. symmetry. by eapply exec_take.
Qed.

Lemma pieces_text r s : concat (map piece_text (pieces r s)) = s.
Proof. apply scan_text. lia. Qed.

(** Every match of the scan is made of units the expression accepts. *)
Lemma scan_accepts r n pw s mt :
  Hit mt ∈ scan n r pw s -> forallb (accepts r) mt = true.
Proof.
  revert pw s. induction n as [|n IH]; intros pw s H; [by apply elem_of_nil in H|].
  cbn [scan] in H.
  assert (Hstep : Hit mt ∈ match s with
                           | [] => []
                           | c :: s' => Keep c :: scan n r (is_word c) s'
                           end -> forallb (accepts r) mt = true).
  { destruct s as [|c s]; [by intros ?%elem_of_nil|].
    intros [?|Hin]%elem_of_cons; [done|]. eauto. }
  destruct (exec r pw s) as [rest|] eqn:He; [|auto].
  apply exec_consumes in He.
  destruct (length s - length rest)%nat eqn:Hn.
  - apply elem_of_cons in H as [[= ->]|Hin]; [done|auto].
  - apply elem_of_cons in H as [[= ->]|Hin]; [done|eauto].
Qed.

Lemma match_g_accepts r s mt :
  mt ∈ match_g r s -> forallb (accepts r) mt = true.
Proof.
  unfold match_g, pieces. intros H. apply list_elem_of_omap in H as (p & Hp & Hm).
  destruct p as [|mt']; [done|]. injection Hm as ->.
  by apply scan_accepts in Hp.
Qed.

(** A template without a dollar sign stands for itself. *)
Lemma getSubstitution_plain mt before after tpl :
  forallb (fun c => negb (c =? 36)) tpl = true ->
  getSubstitution mt before after tpl = tpl.
Proof.
  induction tpl as [|c t IH]; [done|]. simpl. intros H.
  apply andb_true_iff in H as [Hc Ht].
  apply negb_true_iff in Hc. rewrite Hc. f_equal. auto.
Qed.

Lemma rebuild_plain tpl before ps :
  forallb (fun c => negb (c =? 36)) tpl = true ->
  rebuild tpl before ps =
  flat_map (fun p => match p with Keep c => [c] | Hit _ => tpl end) ps.
Proof.
  intros Hd. revert before. induction ps as [|[c|mt] ps IH]; intros before.
  - done.
  - simpl. f_equal. apply IH.
  - simpl. rewrite getSubstitution_plain by done. f_equal. apply IH.
Qed.

(** For an expression without [\b] the scan does not depend on the unit
    before the current position. *)
Lemma scan_pw r n pw pw' s :
  (forall q q' t, exec r q t = exec r q' t) ->
  scan n r pw s = scan n r pw' s.
Proof.
  intros Hr. revert pw pw' s. induction n as [|n IH]; intros pw pw' s; [done|].
  simpl. rewrite (Hr pw pw' s). done.
Qed.

(** The unfolding of a global replacement whose matches are never empty
    and whose template has no dollar sign. *)
Lemma replace_g_unfold r tpl (f : list N -> option (list N)) s :
  forallb (fun c => negb (c =? 36)) tpl = true ->
  (forall pw t, exec r pw t = f t) ->
  (forall t rest, f t = Some rest -> (length rest < length t)%nat) ->
  replace_g r tpl s =
  match f s with
  | Some rest => tpl ++ replace_g r tpl rest
  | None =>
      match s with
      | [] => []
      | c :: s' => c :: replace_g r tpl s'
      end
  end.
Proof.
  intros Hd Hf Hlt. unfold replace_g, pieces.
  assert (Hpw : forall q q' t, exec r q t = exec r q' t).
  { intros. by rewrite !Hf. }
  rewrite !rebuild_plain by done. cbn [scan]. rewrite Hf.
  destruct (f s) as [rest|] eqn:Hs.
  - pose proof (Hlt _ _ Hs) as Hl.
    destruct (length s - length rest)%nat eqn:Hn; [lia|].
    cbn [flat_map]. f_equal. rewrite rebuild_plain by done.
    rewrite (scan_fuel r (length s) (S (length rest))) by lia.
    by rewrite (scan_pw r _ _ false).
  - destruct s as [|c s']; [done|]. cbn [flat_map app length].
    f_equal. rewrite rebuild_plain by done.
    by rewrite (scan_pw r _ _ false).
Qed.

Lemma m_rep_star_space {A} pw s (k : cont A) (k' : list N -> option A) :
  (forall q t, k q t = k' t) ->
  (forall t, is_Some (k' t)) ->
  m_rep is_space 0 None pw s k = k' (drop_space s).
Proof.
  intros Hk Hsome. revert pw. induction s as [|c s IH]; intros pw.
  - simpl. apply Hk.
  - cbn [m_rep drop_space]. destruct (is_space c).
    + change (option_map pred None) with (@None nat). change (pred 0) with O.
      rewrite IH. destruct (Hsome (drop_space s)) as [x ->]. done.
    + apply Hk.
Qed.

Lemma m_lit_strip {A} l pw s (k : cont A) (k' : list N -> option A) :
  (forall q t, k q t = k' t) ->
  m_lit l pw s k = match strip_prefix l s with
                   | Some rest => k' rest
                   | None => None
                   end.
Proof.
  intros Hk. revert pw s. induction l as [|a l IH]; intros pw s; simpl.
  - apply Hk.
  - destruct s as [|c s]; [done|]. destruct (a =? c); [apply IH|done].
Qed.

Lemma exec_spaces pw s :
  exec (plus is_space) pw s =
  if Shape.starts_space s then Some (drop_space s) else None.
Proof.
  unfold exec, plus. destruct s as [|c s]; [done|].
  cbn [m m_rep Shape.starts_space drop_space]. destruct (is_space c); [|done].
  change (option_map pred None) with (@None nat). change (pred 1) with O.
  rewrite (m_rep_star_space _ _ _ Some); eauto.
Qed.

Lemma exec_token tok pw s :
  exec (Seq (Lit tok) (star is_space)) pw s =
  drop_space <$> strip_prefix tok s.
Proof.
  unfold exec, star. cbn [m].
  rewrite (m_lit_strip _ _ _ _ (fun t => Some (drop_space t))).
  - by destruct (strip_prefix tok s).
  - intros q t. apply (m_rep_star_space _ _ _ Some); eauto.
Qed.

End ReFacts.

(** ** Canonicalization *)

Module NormFacts.
Import Js Re Guard Shape ReFacts.

Lemma len_ind (P : list N -> Prop) :
  (forall s, (forall t, (length t < length s)%nat -> P t) -> P s) ->
  forall s, P s.
Proof.
  intros H s. remember (length s) as n eqn:Hn. revert s Hn.
  induction n as [n IH] using lt_wf_ind. intros s ->.
  apply H. intros t Ht. by apply (IH (length t)).
Qed.

Lemma strip_prefix_Some p s r : strip_prefix p s = Some r <-> s = p ++ r.
Proof.
  revert s. induction p as [|a p IH]; intros s; simpl.
  - split; [by intros [= ->]|by intros ->].
  - destruct s as [|c s]; [split; [done|discriminate]|].
    destruct (N.eqb_spec a c) as [->|Hne].
    + rewrite IH. split; [by intros ->|by intros [= ->]].
    + split; [done|]. intros [= -> _]. done.
Qed.

Lemma strip_prefix_app p r : strip_prefix p (p ++ r) = Some r.
Proof. by apply strip_prefix_Some. Qed.

Lemma drop_space_suffix s : exists a, s = a ++ drop_space s.
Proof.
  induction s as [|c s [a IH]]; [by exists []|]. simpl.
  destruct (is_space c); [|by exists []].
  exists (c :: a). simpl. by f_equal.
Qed.

Lemma drop_space_length s : (length (drop_space s) <= length s)%nat.
Proof.
  destruct (drop_space_suffix s) as [a Ha].
  rewrite Ha at 2. rewrite length_app. lia.
Qed.

Lemma drop_space_starts s : starts_space (drop_space s) = false.
Proof.
  induction s as [|c s IH]; [done|]. simpl.
  destruct (is_space c) eqn:Hc; [done|]. simpl. done.
Qed.

Lemma drop_space_id s : starts_space s = false -> drop_space s = s.
Proof. destruct s as [|c s]; [done|]. simpl. by intros ->. Qed.

Lemma plain_inv tok :
  plain tok = true ->
  exists a t, tok = a :: t /\ is_space a = false /\
    forallb (fun c => negb (is_space c)) tok = true /\
    forallb (fun c => negb (c =? 36)) (tok ++ [32]) = true.
Proof.
  destruct tok as [|a t]; [done|]. unfold plain. intros H.
  exists a, t. split; [done|].
  assert (H1 : forallb (fun c => negb (is_space c)) (a :: t) = true).
  { apply forallb_forall. intros x Hx.
    eapply forallb_forall in H; [|exact Hx]. by apply andb_true_iff in H as [? ?]. }
  assert (H2 : forallb (fun c => negb (c =? 36)) (a :: t) = true).
  { apply forallb_forall. intros x Hx.
    eapply forallb_forall in H; [|exact Hx]. by apply andb_true_iff in H as [? ?]. }
  split; [|split; [done|]].
  - simpl in H1. apply andb_true_iff in H1 as [Ha _]. by apply negb_true_iff.
  - rewrite forallb_app, H2. done.
Qed.

(** *** The unfoldings of the two kinds of replacement *)

Lemma collapse_spaces_eq s :
  collapse_spaces s =
  match s with
  | [] => []
  | c :: s' =>
      if is_space c then 32 :: collapse_spaces (drop_space s')
      else c :: collapse_spaces s'
  end.
Proof.
  unfold collapse_spaces.
  rewrite (replace_g_unfold _ _
    (fun t => if starts_space t then Some (drop_space t) else None)).
  - destruct s as [|c s]; [done|]. simpl. by destruct (is_space c).
  - done.
  - intros. apply exec_spaces.
  - intros [|c t] rest; [done|]. simpl. destruct (is_space c); [|done].
    intros [= <-]. pose proof (drop_space_length t). simpl. lia.
Qed.

Lemma space_after_eq tok s :
  plain tok = true ->
  space_after tok s =
  match strip_prefix tok s with
  | Some rest => tok ++ 32 :: space_after tok (drop_space rest)
  | None =>
      match s with
      | [] => []
      | c :: s' => c :: space_after tok s'
      end
  end.
Proof.
  intros Hp. destruct (plain_inv _ Hp) as (a & t & -> & Ha & Hsp & Hd).
  unfold space_after.
  rewrite (replace_g_unfold _ _ (fun u => drop_space <$> strip_prefix (a :: t) u)).
  - destruct (strip_prefix (a :: t) s); simpl; [|done].
    by rewrite <- app_assoc.
  - done.
  - intros. apply exec_token.
  - intros u rest H. destruct (strip_prefix (a :: t) u) as [r|] eqn:Hu; [|done].
    apply strip_prefix_Some in Hu as ->. injection H as <-.
    pose proof (drop_space_length r). simpl. rewrite length_app. lia.
Qed.

(** *** Heads *)

Lemma collapse_spaces_starts s :
  starts_space (collapse_spaces s) = starts_space s.
Proof.
  rewrite collapse_spaces_eq. destruct s as [|c s]; [done|]. simpl.
  destruct (is_space c) eqn:Hc; simpl; [done|by rewrite Hc].
Qed.

Lemma strip_prefix_space tok s :
  plain tok = true -> starts_space s = true -> strip_prefix tok s = None.
Proof.
  intros Hp Hs. destruct (plain_inv _ Hp) as (a & t & -> & Ha & _).
  destruct s as [|c s]; [done|]. simpl in *.
  destruct (N.eqb_spec a c) as [->|]; [congruence|done].
Qed.

Lemma space_after_cons tok c s :
  plain tok = true -> exists u, space_after tok (c :: s) = c :: u.
Proof.
  intros Hp. rewrite space_after_eq by done.
  destruct (strip_prefix tok (c :: s)) as [rest|] eqn:Hr; [|eauto].
  apply strip_prefix_Some in Hr.
  destruct (plain_inv _ Hp) as (a & t & -> & _). injection Hr as -> ->.
  simpl. eauto.
Qed.

Lemma space_after_nil tok : plain tok = true -> space_after tok [] = [].
Proof.
  intros Hp. rewrite space_after_eq by done.
  destruct (plain_inv _ Hp) as (a & t & -> & _). done.
Qed.

Lemma space_after_starts tok s :
  plain tok = true -> starts_space (space_after tok s) = starts_space s.
Proof.
  intros Hp. destruct s as [|c s]; [by rewrite space_after_nil|].
  by destruct (space_after_cons tok c s Hp) as [u ->].
Qed.

(** *** [tidy] *)

Lemma tidy_app_r a b : tidy (a ++ b) = true -> tidy b = true.
Proof.
  induction a as [|c a IH]; [done|]. simpl. intros H.
  apply andb_true_iff in H as [_ H]. auto.
Qed.

Lemma tidy_app_l a b : tidy (a ++ b) = true -> tidy a = true.
Proof.
  induction a as [|c a IH]; [done|]. simpl. intros H.
  apply andb_true_iff in H as [Hc H]. rewrite IH by done.
  destruct (is_space c); [|done].
  apply andb_true_iff in Hc as [-> Hc]. destruct a; [done|]. simpl in *.
  by rewrite Hc.
Qed.

Lemma tidy_drop_space s : tidy s = true -> tidy (drop_space s) = true.
Proof.
  destruct (drop_space_suffix s) as [a Ha]. rewrite Ha at 1. apply tidy_app_r.
Qed.

Lemma tidy_plain_app t b :
  forallb (fun c => negb (is_space c)) t = true ->
  tidy (t ++ b) = tidy b.
Proof.
  induction t as [|c t IH]; [done|]. simpl. intros H.
  apply andb_true_iff in H as [Hc H]. apply negb_true_iff in Hc.
  rewrite Hc. simpl. auto.
Qed.

Lemma tidy_collapse s : tidy (collapse_spaces s) = true.
Proof.
  induction s as [s IH] using len_ind. rewrite collapse_spaces_eq.
  destruct s as [|c s]; [done|]. destruct (is_space c) eqn:Hc.
  - simpl. rewrite collapse_spaces_starts, drop_space_starts. simpl.
    apply IH. pose proof (drop_space_length s). simpl. lia.
  - simpl. rewrite Hc. simpl. apply IH. simpl. lia.
Qed.

Lemma collapse_tidy s : tidy s = true -> collapse_spaces s = s.
Proof.
  induction s as [|c s IH]; intros H; rewrite collapse_spaces_eq; [done|].
  simpl in H. apply andb_true_iff in H as [Hc H].
  destruct (is_space c).
  - apply andb_true_iff in Hc as [Hc Hs]. apply N.eqb_eq in Hc as ->.
    apply negb_true_iff in Hs. rewrite drop_space_id by done. f_equal. auto.
  - f_equal. auto.
Qed.

Lemma tidy_space_after tok s :
  plain tok = true -> tidy s = true -> tidy (space_after tok s) = true.
Proof.
  intros Hp. induction s as [s IH] using len_ind. intros Ht.
  rewrite space_after_eq by done.
  destruct (plain_inv _ Hp) as (a & t & Htok & Ha & Hsp & _).
  destruct (strip_prefix tok s) as [rest|] eqn:Hr.
  - apply strip_prefix_Some in Hr as ->.
    rewrite tidy_plain_app in Ht |- * by done.
    simpl. rewrite space_after_starts, drop_space_starts by done. simpl.
    apply IH; [|by apply tidy_drop_space].
    pose proof (drop_space_length rest). rewrite length_app, Htok. simpl. lia.
  - destruct s as [|c s]; [done|]. simpl in *.
    apply andb_true_iff in Ht as [Hc Ht].
    rewrite space_after_starts, Hc by done. simpl. apply IH; [lia|done].
Qed.

(** *** [followed] *)

Lemma followed_tail tok c s : followed tok (c :: s) = true -> followed tok s = true.
Proof. simpl. intros H. by apply andb_true_iff in H as [_ H]. Qed.

Lemma followed_app_r tok a b : followed tok (a ++ b) = true -> followed tok b = true.
Proof.
  induction a as [|c a IH]; [done|]. intros H. apply IH.
  by apply followed_tail in H.
Qed.

Lemma followed_drop_space tok s :
  followed tok s = true -> followed tok (drop_space s) = true.
Proof.
  destruct (drop_space_suffix s) as [a Ha]. rewrite Ha at 1.
  apply followed_app_r.
Qed.

(** A word without white space that begins [t ++ 32 :: x] lies in [t]. *)
Lemma strip_prefix_before_space w t x r :
  forallb (fun c => negb (is_space c)) w = true ->
  strip_prefix w (t ++ 32 :: x) = Some r ->
  exists t2, t = w ++ t2 /\ r = t2 ++ 32 :: x.
Proof.
  revert t. induction w as [|a w IH]; intros t Hw H.
  - injection H as <-. by exists t.
  - simpl in Hw. apply andb_true_iff in Hw as [Ha Hw].
    destruct t as [|c t]; simpl in H.
    + destruct (N.eqb_spec a 32) as [->|]; [done|done].
    + destruct (N.eqb_spec a c) as [->|]; [|done].
      destruct (IH _ Hw H) as (t2 & -> & ->). by exists t2.
Qed.

(** What begins the rewritten text begins the text, and is followed by a
    space there only if it is in the rewritten text. *)
Lemma strip_prefix_space_after tok w s r :
  plain tok = true ->
  forallb (fun c => negb (is_space c)) w = true ->
  strip_prefix w (space_after tok s) = Some r ->
  exists r0, strip_prefix w s = Some r0 /\
             (starts_32 r0 = true -> starts_32 r = true).
Proof.
  intros Hp. revert w r. induction s as [s IH] using len_ind. intros w r Hw H.
  destruct (plain_inv _ Hp) as (a & t & Htok & Ha & Hsp & _).
  destruct w as [|b w].
  { injection H as <-. exists s. split; [done|].
    destruct s as [|c s]; [done|]. simpl. intros Hc%N.eqb_eq. subst c.
    by destruct (space_after_cons tok 32 s Hp) as [u ->]. }
  rewrite space_after_eq in H by done.
  destruct (strip_prefix tok s) as [rest|] eqn:Hr.
  - apply strip_prefix_Some in Hr as ->.
    destruct (strip_prefix_before_space _ _ _ _ Hw H) as (t2 & Ht2 & ->).
    exists (t2 ++ rest). rewrite Ht2, <- app_assoc. split.
    + apply strip_prefix_app.
    + destruct t2 as [|d t2]; simpl; done.
  - destruct s as [|c s]; [done|]. simpl in H |- *.
    destruct (b =? c); [|done]. simpl in Hw.
    apply andb_true_iff in Hw as [_ Hw]. apply (IH s); [simpl; lia|done|done].
Qed.

Lemma followed_here_space_after tok tok' s :
  plain tok = true -> plain tok' = true ->
  followed_here tok' s = true ->
  followed_here tok' (space_after tok s) = true.
Proof.
  intros Hp Hp' H. unfold followed_here in *.
  destruct (plain_inv _ Hp') as (a & t & Htok & Ha & Hsp & _).
  destruct (strip_prefix tok' (space_after tok s)) as [r|] eqn:Hr; [|done].
  destruct (strip_prefix_space_after _ _ _ _ Hp Hsp Hr) as (r0 & Hr0 & Himp).
  rewrite Hr0 in H. auto.
Qed.

Lemma followed_bridge tok' t rest x :
  plain tok' = true ->
  followed tok' (t ++ rest) = true ->
  followed tok' x = true ->
  followed tok' (t ++ 32 :: x) = true.
Proof.
  intros Hp'. destruct (plain_inv _ Hp') as (a & u & Htok & Ha & Hsp & _).
  induction t as [|d t IH]; intros H Hx.
  - simpl. rewrite Hx, andb_true_r. unfold followed_here.
    by rewrite strip_prefix_space.
  - simpl in H |- *. apply andb_true_iff in H as [Hh H].
    rewrite IH by done. rewrite andb_true_r.
    unfold followed_here in *.
    destruct (strip_prefix tok' (d :: t ++ 32 :: x)) as [r|] eqn:Hr; [|done].
    change (d :: t ++ 32 :: x) with ((d :: t) ++ 32 :: x) in Hr.
    destruct (strip_prefix_before_space _ _ _ _ Hsp Hr) as (t2 & Ht2 & ->).
    change (d :: t ++ rest) with ((d :: t) ++ rest) in Hh.
    rewrite Ht2, <- app_assoc, strip_prefix_app in Hh.
    destruct t2; simpl in *; done.
Qed.

Lemma followed_space_after tok tok' s :
  plain tok = true -> plain tok' = true ->
  followed tok' s = true -> followed tok' (space_after tok s) = true.
Proof.
  intros Hp Hp'. induction s as [s IH] using len_ind. intros H.
  pose proof (followed_here_space_after tok tok' s Hp Hp') as Hhere.
  rewrite space_after_eq in Hhere |- * by done.
  destruct (plain_inv _ Hp) as (a & t & Htok & Ha & Hsp & _).
  destruct (strip_prefix tok s) as [rest|] eqn:Hr.
  - apply strip_prefix_Some in Hr as ->.
    apply (followed_bridge tok' tok rest); [done|done|].
    apply IH.
    + pose proof (drop_space_length rest). rewrite length_app, Htok. simpl. lia.
    + by apply followed_drop_space, (followed_app_r tok' tok).
  - destruct s as [|c s]; [done|].
    change (followed tok' (c :: space_after tok s))
      with (followed_here tok' (c :: space_after tok s)
            && followed tok' (space_after tok s)).
    rewrite Hhere, IH; [done|simpl; lia|by apply followed_tail in H|].
    simpl in H. by apply andb_true_iff in H as [? _].
Qed.

Lemma followed_short tok t x :
  plain tok = true -> (length t < length tok)%nat ->
  followed tok x = true -> followed tok (t ++ 32 :: x) = true.
Proof.
  intros Hp. destruct (plain_inv _ Hp) as (a & u & Htok & Ha & Hsp & _).
  induction t as [|d t IH]; intros Hl Hx.
  - simpl. rewrite Hx, andb_true_r. unfold followed_here.
    by rewrite strip_prefix_space.
  - simpl in Hl |- *. rewrite IH by (done || lia). rewrite andb_true_r.
    unfold followed_here.
    destruct (strip_prefix tok (d :: t ++ 32 :: x)) as [r|] eqn:Hr; [|done].
    change (d :: t ++ 32 :: x) with ((d :: t) ++ 32 :: x) in Hr.
    destruct (strip_prefix_before_space _ _ _ _ Hsp Hr) as (t2 & Ht2 & ->).
    apply (f_equal length) in Ht2. rewrite length_app in Ht2. simpl in Ht2. lia.
Qed.

Lemma followed_nil tok : plain tok = true -> followed tok [] = true.
Proof. intros Hp. destruct (plain_inv _ Hp) as (a & t & -> & _). done. Qed.

Lemma followed_token_space tok x :
  plain tok = true -> followed tok x = true ->
  followed tok (tok ++ 32 :: x) = true.
Proof.
  intros Hp Hx. pose proof (followed_short tok) as Hshort.
  pose proof (strip_prefix_app tok (32 :: x)) as Hself.
  destruct (plain_inv _ Hp) as (a & t & -> & _).
  change (followed (a :: t) ((a :: t) ++ 32 :: x))
    with (followed_here (a :: t) ((a :: t) ++ 32 :: x)
          && followed (a :: t) (t ++ 32 :: x)).
  rewrite Hshort by (done || simpl; lia). rewrite andb_true_r.
  unfold followed_here. by rewrite Hself.
Qed.

Lemma followed_space_after_same tok s :
  plain tok = true -> followed tok (space_after tok s) = true.
Proof.
  intros Hp. induction s as [s IH] using len_ind.
  destruct (plain_inv _ Hp) as (a & t & Htok & Ha & Hsp & _).
  destruct (strip_prefix tok s) as [rest|] eqn:Hr.
  - rewrite space_after_eq, Hr by done.
    apply strip_prefix_Some in Hr as ->.
    apply followed_token_space; [done|].
    apply IH. pose proof (drop_space_length rest).
    rewrite length_app, Htok. simpl. lia.
  - destruct s as [|c s].
    { rewrite space_after_nil by done. by apply followed_nil. }
    assert (Hh : followed_here tok (space_after tok (c :: s)) = true).
    { unfold followed_here.
      destruct (strip_prefix tok (space_after tok (c :: s))) as [r|] eqn:Hr';
        [|done].
      destruct (strip_prefix_space_after _ _ _ _ Hp Hsp Hr') as (r0 & Hr0 & _).
      congruence. }
    rewrite space_after_eq, Hr in Hh |- * by done.
    change (followed tok (c :: space_after tok s))
      with (followed_here tok (c :: space_after tok s)
            && followed tok (space_after tok s)).
    rewrite Hh, IH; [done|simpl; lia].
Qed.

(** A tidy text in which the token is always followed by a space is left
    as it is. *)
Lemma space_after_fixed tok s :
  plain tok = true -> tidy s = true -> followed tok s = true ->
  space_after tok s = s.
Proof.
  intros Hp. induction s as [s IH] using len_ind. intros Ht Hf.
  rewrite space_after_eq by done.
  destruct (plain_inv _ Hp) as (a & t & Htok & Ha & Hsp & _).
  destruct (strip_prefix tok s) as [rest|] eqn:Hr.
  - assert (Hh : followed_here tok s = true).
    { destruct s; simpl in Hf; by apply andb_true_iff in Hf as [? _]. }
    unfold followed_here in Hh. rewrite Hr in Hh.
    apply strip_prefix_Some in Hr as ->.
    destruct rest as [|c rest]; [done|]. simpl in Hh.
    apply N.eqb_eq in Hh as ->.
    rewrite tidy_plain_app in Ht by done. simpl in Ht.
    apply andb_true_iff in Ht as [Hs Ht]. apply negb_true_iff in Hs.
    change (drop_space (32 :: rest)) with (drop_space rest).
    rewrite drop_space_id by done. rewrite IH; [done| |done|].
    + rewrite length_app. simpl. lia.
    + apply (followed_app_r tok (tok ++ [32])). by rewrite <- app_assoc.
  - destruct s as [|c s]; [done|]. f_equal. apply IH; [simpl; lia| |].
    + simpl in Ht. by apply andb_true_iff in Ht as [_ ?].
    + by apply followed_tail in Hf.
Qed.

(** *** [trim] *)

Lemma rev_drop_space_prefix u : exists r, u = rev (drop_space (rev u)) ++ r.
Proof.
  destruct (drop_space_suffix (rev u)) as [a Ha]. exists (rev a).
  rewrite <- rev_app_distr, <- Ha. by rewrite rev_involutive.
Qed.

Lemma trim_decomp s : exists l r, s = l ++ trim s ++ r.
Proof.
  destruct (drop_space_suffix s) as [l Hl].
  destruct (rev_drop_space_prefix (drop_space s)) as [r Hr].
  exists l, r. unfold trim. by rewrite <- Hr.
Qed.

Lemma tidy_trim s : tidy s = true -> tidy (trim s) = true.
Proof.
  intros H. destruct (trim_decomp s) as (l & r & Hs). rewrite Hs in H.
  by apply tidy_app_r, tidy_app_l in H.
Qed.

Lemma starts_space_trim s : starts_space (trim s) = false.
Proof.
  destruct (rev_drop_space_prefix (drop_space s)) as [r Hr].
  fold (trim s) in Hr. pose proof (drop_space_starts s) as H.
  rewrite Hr in H. by destruct (trim s).
Qed.

Lemma ends_clean_trim s : ends_clean (trim s) = true.
Proof.
  unfold ends_clean, trim. by rewrite rev_involutive, drop_space_starts.
Qed.

Lemma trim_clean z :
  starts_space z = false -> ends_clean z = true -> trim z = z.
Proof.
  unfold ends_clean, trim. intros H1 H2%negb_true_iff.
  by rewrite (drop_space_id z), (drop_space_id (rev z)), rev_involutive.
Qed.

Lemma trim_clean_space z :
  starts_space z = false -> ends_clean z = true -> trim (z ++ [32]) = z.
Proof.
  unfold ends_clean, trim. intros H1 H2%negb_true_iff.
  destruct z as [|c z]; [done|].
  rewrite (drop_space_id ((c :: z) ++ [32])) by done.
  rewrite rev_app_distr. change (rev [32] ++ rev (c :: z)) with (32 :: rev (c :: z)).
  change (drop_space (32 :: rev (c :: z))) with (drop_space (rev (c :: z))).
  by rewrite drop_space_id, rev_involutive.
Qed.

Lemma ends_clean_app a b : b <> [] -> ends_clean (a ++ b) = ends_clean b.
Proof.
  intros Hb. unfold ends_clean. rewrite rev_app_distr.
  destruct (rev b) as [|c rb] eqn:Hrb; [|done].
  apply (f_equal (@rev N)) in Hrb. rewrite rev_involutive in Hrb. done.
Qed.

Lemma ends_clean_tail c z : ends_clean (c :: z) = true -> ends_clean z = true.
Proof.
  destruct z as [|d z]; [done|]. intros H.
  change (c :: d :: z) with ([c] ++ d :: z) in H.
  by rewrite ends_clean_app in H.
Qed.

(** *** [closed] *)

Lemma closed_tail tok c s : closed tok (c :: s) = true -> closed tok s = true.
Proof. simpl. intros H. by apply andb_true_iff in H as [_ H]. Qed.

Lemma closed_app_r tok a b : closed tok (a ++ b) = true -> closed tok b = true.
Proof.
  induction a as [|c a IH]; [done|]. intros H. apply IH.
  by apply closed_tail in H.
Qed.

Lemma closed_here_head tok s : closed tok s = true -> closed_here tok s = true.
Proof. destruct s; simpl; intros H; by apply andb_true_iff in H as [? _]. Qed.

Lemma followed_here_head tok s :
  followed tok s = true -> followed_here tok s = true.
Proof. destruct s; simpl; intros H; by apply andb_true_iff in H as [? _]. Qed.

Lemma closed_prefix tok a r :
  plain tok = true -> followed tok (a ++ r) = true -> closed tok a = true.
Proof.
  intros Hp. induction a as [|c a IH]; intros H.
  - destruct (plain_inv _ Hp) as (b & t & -> & _). done.
  - simpl. rewrite IH by (by apply followed_tail in H). rewrite andb_true_r.
    apply followed_here_head in H. unfold followed_here, closed_here in *.
    destruct (strip_prefix tok (c :: a)) as [r0|] eqn:Hr; [|done].
    apply strip_prefix_Some in Hr.
    change ((c :: a) ++ r) with (c :: a ++ r) in H.
    change (c :: a ++ r) with ((c :: a) ++ r) in H.
    rewrite Hr, <- app_assoc, strip_prefix_app in H.
    by destruct r0.
Qed.

Lemma closed_trim tok s :
  plain tok = true -> followed tok s = true -> closed tok (trim s) = true.
Proof.
  intros Hp H. destruct (trim_decomp s) as (l & r & Hs). rewrite Hs in H.
  apply followed_app_r in H. by apply closed_prefix in H.
Qed.

Lemma followed_snoc tok z :
  plain tok = true -> closed tok z = true -> followed tok (z ++ [32]) = true.
Proof.
  intros Hp. destruct (plain_inv _ Hp) as (a & t & Htok & Ha & Hsp & _).
  induction z as [|c z IH]; intros H.
  - change (followed tok ([] ++ [32]))
      with (followed_here tok [32] && followed tok []).
    unfold followed_here. rewrite strip_prefix_space by done.
    by rewrite followed_nil.
  - change (followed tok ((c :: z) ++ [32]))
      with (followed_here tok ((c :: z) ++ [32]) && followed tok (z ++ [32])).
    rewrite IH by (by apply closed_tail in H). rewrite andb_true_r.
    apply closed_here_head in H. unfold followed_here, closed_here in *.
    destruct (strip_prefix tok ((c :: z) ++ [32])) as [r|] eqn:Hr; [|done].
    destruct (strip_prefix_before_space _ _ _ _ Hsp Hr) as (t2 & Ht2 & ->).
    rewrite Ht2, strip_prefix_app in H. by destruct t2.
Qed.

Lemma tidy_snoc z :
  tidy z = true -> ends_clean z = true -> tidy (z ++ [32]) = true.
Proof.
  induction z as [|c z IH]; intros Ht He; [done|].
  simpl in Ht |- *. apply andb_true_iff in Ht as [Hc Ht].
  rewrite IH by (done || by apply ends_clean_tail in He).
  rewrite andb_true_r. destruct (is_space c) eqn:Hsc; [|done].
  destruct z as [|d z]; [|done].
  unfold ends_clean in He. simpl in He. by rewrite Hsc in He.
Qed.

Lemma space_after_closed tok z :
  plain tok = true -> tidy z = true -> closed tok z = true ->
  ends_clean z = true ->
  space_after tok z = z \/ space_after tok z = z ++ [32].
Proof.
  intros Hp. induction z as [z IH] using len_ind. intros Ht Hc He.
  rewrite space_after_eq by done.
  destruct (plain_inv _ Hp) as (a & t & Htok & Ha & Hsp & _).
  destruct (strip_prefix tok z) as [rest|] eqn:Hr.
  - pose proof (closed_here_head _ _ Hc) as Hh.
    unfold closed_here in Hh. rewrite Hr in Hh.
    apply strip_prefix_Some in Hr as ->.
    destruct rest as [|c rest].
    { right. simpl. rewrite space_after_nil by done.
      by rewrite app_nil_r. }
    apply N.eqb_eq in Hh as ->.
    rewrite tidy_plain_app in Ht by done. simpl in Ht.
    apply andb_true_iff in Ht as [Hs Ht]. apply negb_true_iff in Hs.
    change (drop_space (32 :: rest)) with (drop_space rest).
    rewrite drop_space_id by done.
    assert (Hrest : rest <> []).
    { intros ->. unfold ends_clean in He. rewrite rev_app_distr in He. done. }
    destruct (IH rest) as [-> | ->].
    + rewrite length_app. simpl. lia.
    + done.
    + apply (closed_app_r tok (tok ++ [32])). by rewrite <- app_assoc.
    + rewrite (ends_clean_app tok (32 :: rest)) in He by done.
      change (32 :: rest) with ([32] ++ rest) in He.
      by rewrite ends_clean_app in He.
    + by left.
    + right. by rewrite <- app_assoc.
  - destruct z as [|c z]; [by left|].
    destruct (IH z) as [-> | ->].
    + simpl. lia.
    + simpl in Ht. by apply andb_true_iff in Ht as [_ ?].
    + by apply closed_tail in Hc.
    + by apply ends_clean_tail in He.
    + by left.
    + by right.
Qed.

(** *** The pass over all tokens *)

Lemma norm_tokens_plain : Forall (fun tok => plain tok = true) norm_tokens.
Proof.
  unfold norm_tokens.
  repeat (apply Forall_cons; split; [vm_compute; reflexivity|]).
  apply Forall_nil. done.
Qed.

Lemma normalizeNorm_spaced s :
  normalizeNorm s = trim (spaced norm_tokens (collapse_spaces s)).
Proof. cbv [normalizeNorm spaced norm_tokens fold_left]. reflexivity. Qed.

Lemma spaced_tidy toks s :
  Forall (fun tok => plain tok = true) toks ->
  tidy s = true -> tidy (spaced toks s) = true.
Proof.
  intros Hp. revert s. induction Hp as [|tok toks Htok _ IH]; intros s H; [done|].
  simpl. apply IH. by apply tidy_space_after.
Qed.

Lemma spaced_keeps toks tok s :
  Forall (fun tok => plain tok = true) toks -> plain tok = true ->
  followed tok s = true -> followed tok (spaced toks s) = true.
Proof.
  intros Hp Htok. revert s.
  induction Hp as [|tok' toks Htok' _ IH]; intros s H; [done|].
  simpl. apply IH. by apply followed_space_after.
Qed.

Lemma spaced_followed toks s :
  Forall (fun tok => plain tok = true) toks ->
  Forall (fun tok => followed tok (spaced toks s) = true) toks.
Proof.
  intros Hp. revert s. induction Hp as [|tok toks Htok Hp IH]; intros s.
  - constructor.
  - constructor; [|apply IH]. simpl.
    apply spaced_keeps; [done|done|]. by apply followed_space_after_same.
Qed.

Lemma spaced_fixed toks w :
  Forall (fun tok => plain tok = true) toks -> tidy w = true ->
  Forall (fun tok => followed tok w = true) toks ->
  spaced toks w = w.
Proof.
  intros Hp Ht Hf. induction Hp as [|tok toks Htok _ IH]; [done|].
  apply Forall_cons in Hf as [Hf1 Hf]. simpl.
  rewrite space_after_fixed by done. auto.
Qed.

Lemma spaced_closed toks z :
  Forall (fun tok => plain tok = true) toks -> tidy z = true ->
  ends_clean z = true ->
  Forall (fun tok => closed tok z = true) toks ->
  spaced toks z = z \/ spaced toks z = z ++ [32].
Proof.
  intros Hp Ht He Hc. induction Hp as [|tok toks Htok Hp IH]; [by left|].
  apply Forall_cons in Hc as [Hc1 Hc]. simpl.
  destruct (space_after_closed tok z) as [-> | ->]; try done.
  - auto.
  - right. apply spaced_fixed; [done|by apply tidy_snoc|].
    apply Forall_forall. intros tok' Hin.
    apply followed_snoc.
    + eapply Forall_forall in Hp; eauto.
    + eapply Forall_forall in Hc; eauto.
Qed.

End NormFacts.

(** ** The citation guard *)

Module GuardFacts.
Import Js Re Guard Shape ReFacts NormFacts.

(** C5.  Canonicalization is idempotent: for every string [x],
    [normalizeNorm (normalizeNorm x)] is [normalizeNorm x]. *)
Theorem normalizeNorm_idempotent (x : list N) :
  normalizeNorm (normalizeNorm x) = normalizeNorm x.
Proof.
  rewrite !normalizeNorm_spaced.
  set (y := spaced norm_tokens (collapse_spaces x)).
  assert (Hy : tidy y = true).
  { apply spaced_tidy; [apply norm_tokens_plain|apply tidy_collapse]. }
  assert (Hz : tidy (trim y) = true) by by apply tidy_trim.
  rewrite (collapse_tidy (trim y)) by done.
  destruct (spaced_closed norm_tokens (trim y)) as [-> | ->].
  - apply norm_tokens_plain.
  - done.
  - apply ends_clean_trim.
  - pose proof (spaced_followed norm_tokens (collapse_spaces x)
                  norm_tokens_plain) as Hf.
    fold y in Hf. pose proof norm_tokens_plain as Hp.
    rewrite Forall_forall in Hf, Hp |- *. intros tok Hin.
    apply closed_trim; auto.
  - apply trim_clean; [apply starts_space_trim|apply ends_clean_trim].
  - apply trim_clean_space; [apply starts_space_trim|apply ends_clean_trim].
Qed.

(** *** Strings and sets *)

Lemma str_eqb_eq a b : str_eqb a b = true <-> a = b.
Proof.
  revert b. induction a as [|x a IH]; intros [|y b]; simpl; try done.
  rewrite andb_true_iff, N.eqb_eq, IH. split; [by intros [-> ->]|by intros [= -> ->]].
Qed.

Lemma set_has_elem x l : set_has x l = true <-> x ∈ l.
Proof.
  unfold set_has. rewrite existsb_exists. split.
  - intros (y & Hy & ->%str_eqb_eq). by apply list_elem_of_In.
  - intros H. exists x. split; [by apply list_elem_of_In|by apply str_eqb_eq].
Qed.

Lemma set_add_elem x l : x ∈ set_add x l.
Proof.
  unfold set_add. destruct (set_has x l) eqn:H.
  - by apply set_has_elem.
  - apply elem_of_app. right. by apply list_elem_of_singleton.
Qed.

Lemma set_add_mono x y l : y ∈ l -> y ∈ set_add x l.
Proof.
  unfold set_add. destruct (set_has x l); [done|]. intros H.
  apply elem_of_app. by left.
Qed.

Lemma find_first_Some pat s pre post :
  find_first pat s = Some (pre, post) -> s = pre ++ pat ++ post.
Proof.
  revert pre. induction s as [|c s IH]; intros pre; simpl.
  - destruct (strip_prefix pat []) eqn:Hp; [|done].
    intros [= <- <-]. by apply strip_prefix_Some in Hp.
  - destruct (strip_prefix pat (c :: s)) eqn:Hp.
    + intros [= <- <-]. by apply strip_prefix_Some in Hp.
    + destruct (find_first pat s) as [[pre' post']|]; [|done].
      intros [= <- <-]. simpl. f_equal. by apply IH.
Qed.

Lemma find_first_occurs pat a b :
  exists pre post, find_first pat (a ++ pat ++ b) = Some (pre, post).
Proof.
  induction a as [|c a (pre & post & IH)].
  - exists [], b. simpl. destruct pat; simpl.
    + by destruct b.
    + rewrite N.eqb_refl, strip_prefix_app. done.
  - simpl. destruct (strip_prefix pat (c :: a ++ pat ++ b)); [eauto|].
    rewrite IH. eauto.
Qed.

(** The replacement of a string pattern by a template without a dollar
    sign, at the first occurrence. *)
Lemma replace_str_at s pat tpl pre post :
  forallb (fun c => negb (c =? 36)) tpl = true ->
  find_first pat s = Some (pre, post) ->
  s = pre ++ pat ++ post /\ replace_str s pat tpl = pre ++ tpl ++ post.
Proof.
  intros Hd Hf. split; [by apply find_first_Some|].
  unfold replace_str. by rewrite Hf, getSubstitution_plain.
Qed.

Lemma PLACEHOLDER_plain : forallb (fun c => negb (c =? 36)) PLACEHOLDER = true.
Proof. vm_compute. reflexivity. Qed.

(** *** Matches of the norm grammar *)

Lemma m_lit_cons_suffix {A} a l (x : regex) pw s (k : cont A) y :
  m (Seq (Lit (a :: l)) x) pw s k = Some y ->
  exists s' pre pw' rest, s = a :: s' /\ s' = pre ++ rest /\ k pw' rest = Some y.
Proof.
  cbn [m]. intros H. apply m_lit_suffix in H as (pw1 & s1 & H & ->).
  apply m_suffix in H as (pw2 & s2 & pre & H & ->).
  exists (l ++ pre ++ s2), (l ++ pre), pw2, s2. by rewrite <- app_assoc.
Qed.

Lemma m_two_heads a1 l1 x1 a2 l2 x2 rest pw s out :
  exec (Seq (Alt (Seq (Lit (a1 :: l1)) x1) (Seq (Lit (a2 :: l2)) x2)) rest)
       pw s = Some out ->
  exists c s' pre, s = c :: s' /\ (c = a1 \/ c = a2) /\ s' = pre ++ out.
Proof.
  unfold exec.
  change (m (Seq (Alt (Seq (Lit (a1 :: l1)) x1) (Seq (Lit (a2 :: l2)) x2)) rest)
            pw s (fun _ s' => Some s'))
    with (match m (Seq (Lit (a1 :: l1)) x1) pw s
                  (fun pw' s' => m rest pw' s' (fun _ s'' => Some s'')) with
          | Some x => Some x
          | None => m (Seq (Lit (a2 :: l2)) x2) pw s
                      (fun pw' s' => m rest pw' s' (fun _ s'' => Some s''))
          end).
  intros H.
  destruct (m (Seq (Lit (a1 :: l1)) x1) pw s _) as [r1|] eqn:H1.
  - injection H as ->.
    apply m_lit_cons_suffix in H1 as (s' & pre & pw' & rest' & -> & -> & H1).
    apply m_suffix in H1 as (pw2 & s2 & pre2 & [= ->] & ->).
    exists a1, (pre ++ pre2 ++ out), (pre ++ pre2).
    rewrite <- app_assoc. auto.
  - apply m_lit_cons_suffix in H as (s' & pre & pw' & rest' & -> & -> & H).
    apply m_suffix in H as (pw2 & s2 & pre2 & [= ->] & ->).
    exists a2, (pre ++ pre2 ++ out), (pre ++ pre2).
    rewrite <- app_assoc. auto.
Qed.

(** A match of [NORM_REGEX] begins with the paragraph sign or with [A]
    and is not empty. *)
Lemma exec_NORM_REGEX pw s rest :
  exec NORM_REGEX pw s = Some rest ->
  exists c s' pre, s = c :: s' /\ (c = 167 \/ c = 65) /\ s' = pre ++ rest.
Proof. apply (m_two_heads 167 [] _ 65 [114; 116; 46]). Qed.

Lemma scan_NORM_hit n pw s mt :
  Hit mt ∈ scan n NORM_REGEX pw s ->
  exists c u a b, mt = c :: u /\ (c = 167 \/ c = 65) /\ s = a ++ mt ++ b.
Proof.
  revert pw s. induction n as [|n IH]; intros pw s H; [by apply elem_of_nil in H|].
  cbn [scan] in H.
  assert (Hstep : Hit mt ∈ match s with
                           | [] => []
                           | c :: s' => Keep c :: scan n NORM_REGEX (is_word c) s'
                           end ->
            exists c u a b, mt = c :: u /\ (c = 167 \/ c = 65) /\ s = a ++ mt ++ b).
  { destruct s as [|c s]; [by intros ?%elem_of_nil|].
    intros [?|Hin]%elem_of_cons; [done|].
    apply IH in Hin as (c' & u & a & b & -> & Hc & ->).
    exists c', u, (c :: a), b. auto. }
  destruct (exec NORM_REGEX pw s) as [rest|] eqn:He; [|auto].
  pose proof (exec_take _ _ _ _ He) as Htake.
  apply exec_NORM_REGEX in He as (c & s' & pre & -> & Hc & ->).
  cbn [length] in H, Htake. rewrite length_app in H, Htake.
  replace (S (length pre + length rest) - length rest)%nat
    with (S (length pre)) in H, Htake by lia.
  apply elem_of_cons in H as [[= ->]|Hin].
  - exists c, (take (length pre) (pre ++ rest)), [], rest.
    split; [done|]. split; [done|]. simpl. simpl in Htake. done.
  - apply IH in Hin as (c' & u & a & b & -> & Hc' & Hr).
    exists c', u, (take (S (length pre)) (c :: pre ++ rest) ++ a), b.
    split; [done|]. split; [done|]. rewrite Htake at 1.
    rewrite Hr at 2. by rewrite <- app_assoc.
Qed.

Lemma match_g_NORM text raw :
  raw ∈ match_g NORM_REGEX text ->
  exists c u a b, raw = c :: u /\ (c = 167 \/ c = 65) /\ text = a ++ raw ++ b.
Proof.
  unfold match_g, pieces. intros H. apply list_elem_of_omap in H as (p & Hp & Hm).
  destruct p as [|mt]; [done|]. injection Hm as ->.
  by apply scan_NORM_hit in Hp.
Qed.

(** Canonicalization keeps a first unit that is not white space. *)
Lemma spaced_cons toks c s :
  Forall (fun tok => plain tok = true) toks ->
  exists u, spaced toks (c :: s) = c :: u.
Proof.
  intros Hp. revert s. induction Hp as [|tok toks Htok _ IH]; intros s.
  - by exists s.
  - simpl. destruct (space_after_cons tok c s Htok) as [u ->]. apply IH.
Qed.

Lemma drop_space_snoc a c :
  is_space c = false -> exists v, drop_space (a ++ [c]) = v ++ [c].
Proof.
  intros Hc. induction a as [|d a [v IH]].
  - exists []. simpl. by rewrite Hc.
  - simpl. destruct (is_space d); [by exists v|]. by exists (d :: a).
Qed.

Lemma normalizeNorm_cons c s :
  is_space c = false -> exists u, normalizeNorm (c :: s) = c :: u.
Proof.
  intros Hc. rewrite normalizeNorm_spaced, collapse_spaces_eq, Hc.
  destruct (spaced_cons norm_tokens c (collapse_spaces s) norm_tokens_plain)
    as [u ->].
  unfold trim. simpl. rewrite Hc. simpl.
  destruct (drop_space_snoc (rev u) c Hc) as [v ->].
  rewrite rev_app_distr. simpl. eauto.
Qed.

Lemma normalizeNorm_match text raw :
  raw ∈ match_g NORM_REGEX text ->
  exists c u, normalizeNorm raw = c :: u.
Proof.
  intros H. apply match_g_NORM in H as (c & u & _ & _ & -> & Hc & _).
  destruct (normalizeNorm_cons c u) as [v Hv]; [by destruct Hc as [-> | ->]|].
  eauto.
Qed.

(** *** Canonical norms hold no dollar sign *)

Lemma plain_drop_space s :
  forallb (fun c => negb (c =? 36)) s = true ->
  forallb (fun c => negb (c =? 36)) (drop_space s) = true.
Proof.
  destruct (drop_space_suffix s) as [a Ha]. rewrite Ha at 1.
  rewrite forallb_app. by intros [_ ?]%andb_true_iff.
Qed.

Lemma plain_collapse_spaces s :
  forallb (fun c => negb (c =? 36)) s = true ->
  forallb (fun c => negb (c =? 36)) (collapse_spaces s) = true.
Proof.
  induction s as [s IH] using len_ind. intros H. rewrite collapse_spaces_eq.
  destruct s as [|c s]; [done|]. simpl in H.
  apply andb_true_iff in H as [Hc H]. destruct (is_space c).
  - simpl. apply IH; [|by apply plain_drop_space].
    pose proof (drop_space_length s). simpl. lia.
  - simpl. rewrite Hc. apply IH; [simpl; lia|done].
Qed.

Lemma plain_space_after tok s :
  plain tok = true ->
  forallb (fun c => negb (c =? 36)) s = true ->
  forallb (fun c => negb (c =? 36)) (space_after tok s) = true.
Proof.
  intros Hp. induction s as [s IH] using len_ind. intros H.
  rewrite space_after_eq by done.
  destruct (plain_inv _ Hp) as (a & t & Htok & _ & _ & Hd).
  destruct (strip_prefix tok s) as [rest|] eqn:Hr.
  - apply strip_prefix_Some in Hr as ->.
    rewrite forallb_app in H. apply andb_true_iff in H as [_ H].
    change (tok ++ 32 :: space_after tok (drop_space rest))
      with (tok ++ [32] ++ space_after tok (drop_space rest)).
    rewrite app_assoc, forallb_app, Hd. simpl.
    apply IH; [|by apply plain_drop_space].
    pose proof (drop_space_length rest). rewrite length_app, Htok. simpl. lia.
  - destruct s as [|c s]; [done|]. simpl in H |- *.
    apply andb_true_iff in H as [-> H]. apply IH; [simpl; lia|done].
Qed.

Lemma plain_normalizeNorm s :
  forallb (fun c => negb (c =? 36)) s = true ->
  forallb (fun c => negb (c =? 36)) (normalizeNorm s) = true.
Proof.
  intros H. rewrite normalizeNorm_spaced.
  assert (Hs : forallb (fun c => negb (c =? 36))
                 (spaced norm_tokens (collapse_spaces s)) = true).
  { apply plain_collapse_spaces in H. revert H.
    generalize (collapse_spaces s). pose proof norm_tokens_plain as Hp.
    induction Hp as [|tok toks Htok _ IH]; intros u Hu; [done|].
    simpl. apply IH. by apply plain_space_after. }
  destruct (trim_decomp (spaced norm_tokens (collapse_spaces s)))
    as (l & r & Hlr).
  rewrite Hlr, !forallb_app in Hs.
  apply andb_true_iff in Hs as [_ Hs]. by apply andb_true_iff in Hs as [Hs _].
Qed.

Lemma match_NORM_plain text raw :
  raw ∈ match_g NORM_REGEX text ->
  forallb (fun c => negb (c =? 36)) raw = true.
Proof.
  intros H%match_g_accepts. revert H. apply forallb_weaken.
  intros c Hc. destruct (N.eqb_spec c 36) as [->|]; [|done].
  vm_compute in Hc. discriminate Hc.
Qed.

Lemma fold_set_add_elem (f : list N -> list N) l acc x :
  x ∈ fold_left (fun out mt => set_add (f mt) out) l acc ->
  x ∈ acc \/ exists mt, mt ∈ l /\ x = f mt.
Proof.
  revert acc. induction l as [|mt l IH]; intros acc H; [by left|].
  simpl in H. apply IH in H as [H|(mt' & Hin & ->)].
  - unfold set_add in H. destruct (set_has (f mt) acc); [by left|].
    apply elem_of_app in H as [H|H%list_elem_of_singleton]; [by left|].
    right. exists mt. split; [by apply elem_of_cons; left|done].
  - right. exists mt'. split; [by apply elem_of_cons; right|done].
Qed.

(** The norms of an allowlist built by [extractNorms] hold no dollar sign:
    as replacement templates they stand for themselves. *)
Lemma extractNorms_plain text n :
  n ∈ extractNorms text -> forallb (fun c => negb (c =? 36)) n = true.
Proof.
  unfold extractNorms. intros H.
  apply fold_set_add_elem in H as [H|(raw & Hraw & ->)];
    [by apply elem_of_nil in H|].
  by apply plain_normalizeNorm, (match_NORM_plain text).
Qed.

(** *** The choice of the upgrade *)

Lemma candidates_elem n allowedNorms c :
  c ∈ candidates_of n allowedNorms <->
  c ∈ allowedNorms /\ same_head_tail n c = true.
Proof.
  unfold candidates_of. rewrite list_elem_of_In, List.filter_In.
  by rewrite <- list_elem_of_In.
Qed.

Lemma insert_by_length_elem a l x :
  x ∈ insert_by_length a l <-> x = a \/ x ∈ l.
Proof.
  induction l as [|b l IH]; simpl.
  - rewrite list_elem_of_singleton. rewrite elem_of_nil. tauto.
  - destruct (_ <=? _)%nat.
    + by rewrite elem_of_cons.
    + rewrite !elem_of_cons, IH. tauto.
Qed.

Lemma sort_by_length_elem l x : x ∈ sort_by_length l <-> x ∈ l.
Proof.
  induction l as [|b l IH]; simpl; [done|].
  by rewrite insert_by_length_elem, elem_of_cons, IH.
Qed.

Lemma insert_by_length_shortest a l :
  head_shortest l -> head_shortest (insert_by_length a l).
Proof.
  destruct l as [|b l]; simpl.
  - intros _ c' ->%list_elem_of_singleton. done.
  - intros H. destruct (Nat.leb_spec (length a) (length b)) as [Hle|Hlt]; simpl.
    + intros c' [->|Hin]%elem_of_cons; [done|]. specialize (H _ Hin). lia.
    + intros c' [->|[->|Hin]%insert_by_length_elem]%elem_of_cons.
      * done.
      * lia.
      * apply H. by apply elem_of_cons; right.
Qed.

Lemma sort_by_length_shortest l : head_shortest (sort_by_length l).
Proof.
  induction l as [|b l IH]; simpl; [done|]. by apply insert_by_length_shortest.
Qed.

Lemma sort_by_length_head l c rest :
  sort_by_length l = c :: rest ->
  c ∈ l /\ forall c', c' ∈ l -> (length c <= length c')%nat.
Proof.
  intros H. pose proof (sort_by_length_shortest l) as Hs. rewrite H in Hs.
  split.
  - apply sort_by_length_elem. rewrite H. by apply elem_of_cons; left.
  - intros c' Hc'. apply Hs. rewrite <- H. by apply sort_by_length_elem.
Qed.

(** *** One turn of the loop *)

Lemma resolve_allowed raw allowedNorms :
  set_has (normalizeNorm raw) allowedNorms = true ->
  resolveToAllowedNorm raw allowedNorms =
  Resolution true (normalizeNorm raw) None.
Proof. unfold resolveToAllowedNorm. by intros ->. Qed.

Lemma resolve_unverifiable raw allowedNorms :
  set_has (normalizeNorm raw) allowedNorms = false ->
  candidates_of (normalizeNorm raw) allowedNorms = [] ->
  resolveToAllowedNorm raw allowedNorms =
  Resolution false (normalizeNorm raw) None.
Proof. unfold resolveToAllowedNorm. by intros -> ->. Qed.

Lemma resolve_upgrade raw allowedNorms :
  set_has (normalizeNorm raw) allowedNorms = false ->
  existsb (same_head_tail (normalizeNorm raw)) allowedNorms = true ->
  let c := norm (resolveToAllowedNorm raw allowedNorms) in
  resolveToAllowedNorm raw allowedNorms =
    Resolution true c (Some (normalizeNorm raw)) /\
  c ∈ allowedNorms /\ same_head_tail (normalizeNorm raw) c = true /\
  forall c', c' ∈ allowedNorms ->
             same_head_tail (normalizeNorm raw) c' = true ->
             (length c <= length c')%nat.
Proof.
  intros Hn Hex. unfold resolveToAllowedNorm. rewrite Hn.
  apply existsb_exists in Hex as (a & Ha%list_elem_of_In & Hsame).
  destruct (sort_by_length (candidates_of (normalizeNorm raw) allowedNorms))
    as [|c rest] eqn:Hs.
  - assert (Hin : a ∈ sort_by_length (candidates_of (normalizeNorm raw) allowedNorms)).
    { apply sort_by_length_elem, candidates_elem. done. }
    rewrite Hs in Hin. by apply elem_of_nil in Hin.
  - simpl. apply sort_by_length_head in Hs as [Hc Hmin].
    apply candidates_elem in Hc as [Hc1 Hc2].
    repeat split; try done.
    intros c' H1 H2. apply Hmin, candidates_elem. done.
Qed.

Lemma step_allowed allowedNorms st raw :
  set_has (normalizeNorm raw) allowedNorms = true ->
  sanitize_step allowedNorms st raw = st.
Proof. intros H. unfold sanitize_step. by rewrite resolve_allowed. Qed.

Lemma step_unverifiable allowedNorms st raw :
  set_has (normalizeNorm raw) allowedNorms = false ->
  candidates_of (normalizeNorm raw) allowedNorms = [] ->
  sanitize_step allowedNorms st raw =
  Sanitized (replace_str (sanitizedText st) raw PLACEHOLDER)
            (set_add (normalizeNorm raw) (removedNorms st))
            (replacedNorms st).
Proof. intros H1 H2. unfold sanitize_step. by rewrite resolve_unverifiable. Qed.

Lemma step_upgrade allowedNorms st raw text :
  set_has raw (match_g NORM_REGEX text) = true ->
  set_has (normalizeNorm raw) allowedNorms = false ->
  existsb (same_head_tail (normalizeNorm raw)) allowedNorms = true ->
  sanitize_step allowedNorms st raw =
  Sanitized (replace_str (sanitizedText st) raw
               (norm (resolveToAllowedNorm raw allowedNorms)))
            (removedNorms st)
            (replacedNorms st ++
               [(normalizeNorm raw, norm (resolveToAllowedNorm raw allowedNorms))]).
Proof.
  intros Hraw H1 H2. unfold sanitize_step. cbv zeta.
  destruct (resolve_upgrade raw allowedNorms H1 H2) as (Hres & _).
  remember (norm (resolveToAllowedNorm raw allowedNorms)) as c eqn:Hc.
  rewrite Hres. cbn [ok negb replacedFrom].
  apply set_has_elem, normalizeNorm_match in Hraw as (d & u & Hn).
  by rewrite Hn.
Qed.

Lemma sanitize_fold text allowedNorms :
  sanitizeAnswerCitations text allowedNorms =
  fold_left (sanitize_step allowedNorms) (match_g NORM_REGEX text)
            (Sanitized text [] []).
Proof. unfold sanitizeAnswerCitations. by destruct (match_g NORM_REGEX text). Qed.

Lemma step_removed_mono allowedNorms st raw x :
  x ∈ removedNorms st -> x ∈ removedNorms (sanitize_step allowedNorms st raw).
Proof.
  unfold sanitize_step. destruct (negb _).
  - simpl. apply set_add_mono.
  - by destruct (replacedFrom _) as [[|? ?]|].
Qed.

Lemma step_replaced_mono allowedNorms st raw x :
  x ∈ replacedNorms st -> x ∈ replacedNorms (sanitize_step allowedNorms st raw).
Proof.
  unfold sanitize_step. destruct (negb _); [done|].
  destruct (replacedFrom _) as [[|? ?]|]; try done.
  simpl. intros H. apply elem_of_app. by left.
Qed.

Lemma fold_removed_mono allowedNorms l st x :
  x ∈ removedNorms st ->
  x ∈ removedNorms (fold_left (sanitize_step allowedNorms) l st).
Proof.
  revert st. induction l as [|raw l IH]; intros st H; [done|].
  simpl. by apply IH, step_removed_mono.
Qed.

Lemma fold_replaced_mono allowedNorms l st x :
  x ∈ replacedNorms st ->
  x ∈ replacedNorms (fold_left (sanitize_step allowedNorms) l st).
Proof.
  revert st. induction l as [|raw l IH]; intros st H; [done|].
  simpl. by apply IH, step_replaced_mono.
Qed.

Lemma sanitize_all_allowed text allowedNorms :
  forallb (fun raw => set_has (normalizeNorm raw) allowedNorms)
          (match_g NORM_REGEX text) = true ->
  sanitizeAnswerCitations text allowedNorms = Sanitized text [] [].
Proof.
  rewrite sanitize_fold. generalize (Sanitized text [] []).
  induction (match_g NORM_REGEX text) as [|raw l IH]; intros st H; [done|].
  simpl in H. apply andb_true_iff in H as [H1 H2].
  simpl. rewrite step_allowed by done. auto.
Qed.

Lemma match_occurs text raw :
  set_has raw (match_g NORM_REGEX text) = true ->
  exists pre post, find_first raw text = Some (pre, post).
Proof.
  intros H. apply set_has_elem, match_g_NORM in H
    as (c & u & a & b & _ & _ & ->).
  apply find_first_occurs.
Qed.

(** *** The sanitizer *)

(** C10.  An answer in which the norm grammar finds no match is returned
    as it is, with no removed and no replaced norm. *)
Theorem sanitize_without_citation (answerText : list N)
    (allowedNorms : list (list N)) :
  match_g NORM_REGEX answerText = [] ->
  sanitizeAnswerCitations answerText allowedNorms =
  Sanitized answerText [] [].
Proof. intros H. unfold sanitizeAnswerCitations. by rewrite H. Qed.

Lemma sanitize_without_citation_witness :
  match_g NORM_REGEX (lit "Bitte senden Sie den Vertrag.") = [] /\
  sanitizeAnswerCitations (lit "Bitte senden Sie den Vertrag.")
                          [lit "§ 823 Abs. 1 BGB"] =
  Sanitized (lit "Bitte senden Sie den Vertrag.") [] [].
Proof.
  split; [vm_compute; reflexivity|].
  apply sanitize_without_citation. vm_compute. reflexivity.
Defined.

(** A text without a paragraph sign and without the letter [A] holds no
    match of the norm grammar. *)
Lemma scan_without_marker n pw s :
  forallb (fun c => negb (c =? 167) && negb (c =? 65)) s = true ->
  forall p, p ∈ scan n NORM_REGEX pw s -> exists c, p = Keep c.
Proof.
  revert pw s. induction n as [|n IH]; intros pw s Hs p Hp;
    [by apply elem_of_nil in Hp|].
  cbn [scan] in Hp. destruct (exec NORM_REGEX pw s) as [rest|] eqn:He.
  - apply exec_NORM_REGEX in He as (c & s' & pre & -> & Hc & _).
    simpl in Hs. apply andb_true_iff in Hs as [Hs _].
    destruct Hc as [-> | ->]; done.
  - destruct s as [|c s]; [by apply elem_of_nil in Hp|].
    simpl in Hs. apply andb_true_iff in Hs as [_ Hs].
    apply elem_of_cons in Hp as [->|Hp]; [eauto|]. exact (IH _ _ Hs p Hp).
Qed.

Lemma match_without_marker s :
  forallb (fun c => negb (c =? 167) && negb (c =? 65)) s = true ->
  match_g NORM_REGEX s = [].
Proof.
  intros Hs. unfold match_g, pieces.
  pose proof (scan_without_marker (S (length s)) false s Hs) as H.
  induction (scan (S (length s)) NORM_REGEX false s) as [|p l IH]; [done|].
  destruct (H p) as [c ->]; [by apply elem_of_cons; left|].
  simpl. apply IH. intros q Hq. apply H. by apply elem_of_cons; right.
Qed.

(** C4.  With the allowlist [{"§ 823 Abs. 1 BGB"}], a text whose citations
    all are that norm (after canonicalization) is left unchanged, and no
    norm is reported as removed or replaced; so for the text that is the
    citation itself and for the sentence of the test suite. *)
Theorem keeps_allowed_citation (text : list N) :
  forallb (fun raw => str_eqb (normalizeNorm raw) (lit "§ 823 Abs. 1 BGB"))
          (match_g NORM_REGEX text) = true ->
  match_g NORM_REGEX (lit "§ 823 Abs. 1 BGB") = [lit "§ 823 Abs. 1 BGB"] /\
  sanitizeAnswerCitations text [lit "§ 823 Abs. 1 BGB"] =
  Sanitized text [] [].
Proof.
  intros H. split; [vm_compute; reflexivity|].
  apply sanitize_all_allowed.
  apply forallb_forall. intros raw Hraw.
  eapply forallb_forall in H; [|exact Hraw].
  unfold set_has. simpl. by rewrite H.
Qed.

Lemma keeps_allowed_citation_witness :
  forallb (fun raw => str_eqb (normalizeNorm raw) (lit "§ 823 Abs. 1 BGB"))
          (match_g NORM_REGEX (lit "Применима § 823 Abs. 1 BGB.")) = true /\
  sanitizeAnswerCitations (lit "§ 823 Abs. 1 BGB") [lit "§ 823 Abs. 1 BGB"] =
  Sanitized (lit "§ 823 Abs. 1 BGB") [] [] /\
  sanitizeAnswerCitations (lit "Применима § 823 Abs. 1 BGB.")
                          [lit "§ 823 Abs. 1 BGB"] =
  Sanitized (lit "Применима § 823 Abs. 1 BGB.") [] [].
Proof.
  split; [vm_compute; reflexivity|]. split.
  - apply (keeps_allowed_citation (lit "§ 823 Abs. 1 BGB")).
    vm_compute. reflexivity.
  - apply (keeps_allowed_citation (lit "Применима § 823 Abs. 1 BGB.")).
    vm_compute. reflexivity.
Defined.

(** C3, at an input on which the code departs from it.  With the
    allowlist [{"§ 823 Abs. 1 BGB"}] the draft ["§ 999 BGB"] becomes the
    placeholder and ["§ 999 BGB"] is reported as removed.  In the answer
    ["_§ 823_ gilt; siehe § 823."] the norm grammar finds one citation,
    ["§ 823"] at the end (the text between the underscores is none, for
    want of a word boundary after it).  Its canonical form ["§ 823"], with
    the head ["§ 823"] and the tail ["823"], is not allowed and shares
    head and tail with no allowed norm.  It is reported as removed, but
    the placeholder takes the place of the first occurrence of its literal
    text, between the underscores: the citation stands where it stood, and
    the norm grammar finds it in the sanitized text. *)
Theorem removal_misses_citation :
  let allowedNorms := [lit "§ 823 Abs. 1 BGB"] in
  let text := lit "_§ 823_ gilt; siehe § 823." in
  let out := sanitizeAnswerCitations text allowedNorms in
  sanitizeAnswerCitations (lit "§ 999 BGB") allowedNorms =
    Sanitized PLACEHOLDER [lit "§ 999 BGB"] [] /\
  match_g NORM_REGEX text = [lit "§ 823"] /\
  pieces NORM_REGEX text
    = map Keep (lit "_§ 823_ gilt; siehe ") ++ [Hit (lit "§ 823")]
      ++ map Keep (lit ".") /\
  normalizeNorm (lit "§ 823") = lit "§ 823" /\
  set_has (lit "§ 823") allowedNorms = false /\
  head_of (split_space (lit "§ 823")) = lit "§ 823" /\
  tail_of (split_space (lit "§ 823")) = lit "823" /\
  head_of (split_space (lit "§ 823 Abs. 1 BGB")) = lit "§ 823" /\
  tail_of (split_space (lit "§ 823 Abs. 1 BGB")) = lit "BGB" /\
  candidates_of (lit "§ 823") allowedNorms = [] /\
  find_first (lit "§ 823") text = Some (lit "_", lit "_ gilt; siehe § 823.") /\
  out = Sanitized (lit "_" ++ PLACEHOLDER ++ lit "_ gilt; siehe § 823.")
                  [lit "§ 823"] [] /\
  match_g NORM_REGEX (sanitizedText out) = [lit "§ 823"].
Proof. vm_compute. repeat split; reflexivity. Qed.

(** C2, at an input on which the code departs from it.  With the
    allowlist [{"§ 823 Abs. 1 BGB"}] the draft ["§ 823 BGB"] becomes
    ["§ 823 Abs. 1 BGB"], recorded as replaced.  With the allowlist
    [{"§ 7 Abs. 1 SGB II", "§ 7 SGB III"}], which [extractNorms] draws
    from a source that names both norms, the answer
    ["§ 7 SGB III und § 7 SGB II."] cites the allowed norm ["§ 7 SGB III"]
    and then, loosely, ["§ 7 SGB II"], which is not allowed and has the head
    ["§ 7"] and the tail ["II"] of the allowed norm ["§ 7 Abs. 1 SGB II"],
    the only and so the shortest such norm.  The pair is recorded as
    replaced, but the allowed norm takes the place of the first occurrence
    of the literal text ["§ 7 SGB II"], which begins the citation
    ["§ 7 SGB III"]: the loose citation stands where it stood, and the
    allowed citation has become ["§ 7 Abs. 1 SGB III"], which no source
    names. *)
Theorem upgrade_misses_citation :
  let allowedNorms := [lit "§ 7 Abs. 1 SGB II"; lit "§ 7 SGB III"] in
  let text := lit "§ 7 SGB III und § 7 SGB II." in
  let out := sanitizeAnswerCitations text allowedNorms in
  sanitizeAnswerCitations (lit "§ 823 BGB") [lit "§ 823 Abs. 1 BGB"] =
    Sanitized (lit "§ 823 Abs. 1 BGB") []
              [(lit "§ 823 BGB", lit "§ 823 Abs. 1 BGB")] /\
  extractNorms (lit "§ 7 Abs. 1 SGB II regelt die Leistungsberechtigten. Daneben § 7 SGB III.")
    = allowedNorms /\
  match_g NORM_REGEX text = [lit "§ 7 SGB III"; lit "§ 7 SGB II"] /\
  pieces NORM_REGEX text
    = [Hit (lit "§ 7 SGB III")] ++ map Keep (lit " und ")
      ++ [Hit (lit "§ 7 SGB II")] ++ map Keep (lit ".") /\
  set_has (normalizeNorm (lit "§ 7 SGB III")) allowedNorms = true /\
  normalizeNorm (lit "§ 7 SGB II") = lit "§ 7 SGB II" /\
  set_has (lit "§ 7 SGB II") allowedNorms = false /\
  head_of (split_space (lit "§ 7 SGB II")) = lit "§ 7" /\
  tail_of (split_space (lit "§ 7 SGB II")) = lit "II" /\
  head_of (split_space (lit "§ 7 Abs. 1 SGB II")) = lit "§ 7" /\
  tail_of (split_space (lit "§ 7 Abs. 1 SGB II")) = lit "II" /\
  tail_of (split_space (lit "§ 7 SGB III")) = lit "III" /\
  candidates_of (lit "§ 7 SGB II") allowedNorms = [lit "§ 7 Abs. 1 SGB II"] /\
  resolveToAllowedNorm (lit "§ 7 SGB II") allowedNorms
    = Resolution true (lit "§ 7 Abs. 1 SGB II") (Some (lit "§ 7 SGB II")) /\
  find_first (lit "§ 7 SGB II") text = Some ([], lit "I und § 7 SGB II.") /\
  out = Sanitized (lit "§ 7 Abs. 1 SGB III und § 7 SGB II.") []
                  [(lit "§ 7 SGB II", lit "§ 7 Abs. 1 SGB II")] /\
  match_g NORM_REGEX (sanitizedText out)
    = [lit "§ 7 Abs. 1 SGB III"; lit "§ 7 SGB II"] /\
  set_has (lit "§ 7 Abs. 1 SGB III") allowedNorms = false.
Proof. vm_compute. repeat split; reflexivity. Qed.

(** C1, at the input on which the code departs from it.  The answer cites
    the allowed norm and then refers to it loosely.  The loose citation
    ["§ 823"] is unverifiable; the replacement of its literal text hits the
    first occurrence of ["§ 823"], which begins the allowed citation, and
    the sanitized text still holds the citation ["§ 823"], which is not
    allowed. *)
Theorem containment_fails :
  let allowedNorms := [lit "§ 823 Abs. 1 BGB"] in
  let out := sanitizeAnswerCitations (lit "§ 823 Abs. 1 BGB und § 823.")
                                     allowedNorms in
  match_g NORM_REGEX (lit "§ 823 Abs. 1 BGB und § 823.") =
    [lit "§ 823 Abs. 1 BGB"; lit "§ 823"] /\
  sanitizedText out = PLACEHOLDER ++ lit " Abs. 1 BGB und § 823." /\
  removedNorms out = [lit "§ 823"] /\
  match_g NORM_REGEX (sanitizedText out) = [lit "§ 823"] /\
  extractNorms (sanitizedText out) = [lit "§ 823"] /\
  set_has (lit "§ 823") allowedNorms = false.
Proof. vm_compute. repeat split; reflexivity. Qed.

End GuardFacts.

(** ** The chunker *)

Module ChunkerFacts.
Import Js Chunker Shape NormFacts.

Lemma trim_length s : (length (trim s) <= length s)%nat.
Proof.
  destruct (trim_decomp s) as (l & r & Hs). rewrite Hs at 2.
  rewrite !length_app. lia.
Qed.

Lemma lastIndexOf_space_from_spec i s pos :
  (0 <= i)%Z ->
  let r := lastIndexOf_space_from i s pos in
  (r = (-1)%Z /\
   forall j : nat, (i + Z.of_nat j <= pos)%Z -> s !! j <> Some 32) \/
  ((i <= r <= pos)%Z /\ s !! Z.to_nat (r - i) = Some 32 /\
   forall j : nat, (r < i + Z.of_nat j <= pos)%Z -> s !! j <> Some 32).
Proof.
  revert i. induction s as [|c s IH]; intros i Hi; cbn zeta.
  - left. split; [done|]. intros j _. by rewrite lookup_nil.
  - cbn [lastIndexOf_space_from].
    specialize (IH (i + 1)%Z ltac:(lia)). cbn zeta in IH.
    destruct (Z.leb_spec 0 (lastIndexOf_space_from (i + 1) s pos)) as [Hl|Hl].
    + destruct IH as [[Hr _]|(Hr & Hat & Hafter)]; [lia|]. right.
      split; [lia|]. split.
      * replace (Z.to_nat (lastIndexOf_space_from (i + 1) s pos - i))
          with (S (Z.to_nat (lastIndexOf_space_from (i + 1) s pos - (i + 1))))
          by lia.
        done.
      * intros [|j] Hj; [lia|]. simpl. apply Hafter. lia.
    + destruct IH as [[Hr Hnone]|(Hr & _)]; [|lia].
      destruct (N.eqb_spec c 32) as [->|Hc];
        destruct (Z.leb_spec i pos) as [Hp|Hp]; simpl.
      * right. split; [lia|]. split.
        { by replace (Z.to_nat (i - i)) with O by lia. }
        intros [|j] Hj; [lia|]. simpl. apply Hnone. lia.
      * left. split; [done|]. intros [|j] Hj; [lia|]. simpl. apply Hnone. lia.
      * left. split; [done|]. intros [|j] Hj; simpl.
        { by intros [= ->]. }
        apply Hnone. lia.
      * left. split; [done|]. intros [|j] Hj; simpl.
        { by intros [= ->]. }
        apply Hnone. lia.
Qed.

Lemma lastIndexOf_space_spec s pos :
  is_last_space s pos (lastIndexOf_space s pos).
Proof.
  pose proof (lastIndexOf_space_from_spec 0 s pos ltac:(lia)) as H.
  cbn zeta in H. unfold is_last_space, lastIndexOf_space.
  destruct H as [[Hr Hnone]|(Hr & Hat & Hafter)].
  - left. split; [done|]. intros j Hj. apply Hnone. lia.
  - right. split; [lia|]. split.
    + by rewrite Z.sub_0_r in Hat.
    + intros j Hj. apply Hafter. lia.
Qed.

Lemma cut_index_eq rest maxChars :
  cut_index rest maxChars =
  if (floor_06 maxChars <=? lastIndexOf_space rest maxChars)%Z
  then lastIndexOf_space rest maxChars else maxChars.
Proof.
  unfold cut_index.
  destruct (Z.ltb_spec (lastIndexOf_space rest maxChars) (floor_06 maxChars));
    destruct (Z.leb_spec (floor_06 maxChars) (lastIndexOf_space rest maxChars));
    done || lia.
Qed.

Lemma cut_index_range rest maxChars :
  (0 < maxChars)%Z -> starts_space rest = false ->
  (1 <= cut_index rest maxChars <= maxChars)%Z.
Proof.
  intros Hm Hs. rewrite cut_index_eq.
  assert (H06 : (0 <= floor_06 maxChars)%Z).
  { unfold floor_06. apply Z.div_pos; lia. }
  destruct (Z.leb_spec (floor_06 maxChars) (lastIndexOf_space rest maxChars))
    as [Hl|Hl]; [|lia].
  destruct (lastIndexOf_space_spec rest maxChars) as [[Hr _]|(Hr & Hat & _)];
    [lia|].
  destruct (Z.eq_dec (lastIndexOf_space rest maxChars) 0%Z) as [H0|H0]; [|lia].
  rewrite H0 in Hat. destruct rest as [|c rest]; [done|].
  injection Hat as ->. done.
Qed.

Lemma split_loop_bounded fuel chunks rest maxChars :
  (0 < maxChars)%Z -> starts_space rest = false ->
  (length rest < fuel)%nat ->
  Forall (fun c => (Z.of_nat (length c) <= maxChars)%Z) chunks ->
  exists out,
    split_loop cut_index fuel chunks rest maxChars = Some out /\
    Forall (fun c => (Z.of_nat (length c) <= maxChars)%Z) out.
Proof.
  intros Hm. revert chunks rest.
  induction fuel as [|fuel IH]; intros chunks rest Hs Hf Hc; [lia|].
  cbn [split_loop].
  destruct (Z.ltb_spec maxChars (Z.of_nat (length rest))) as [Hlong|Hshort].
  - pose proof (cut_index_range rest maxChars Hm Hs) as Hr.
    apply IH.
    + apply starts_space_trim.
    + pose proof (trim_length (slice_from rest (cut_index rest maxChars))).
      unfold slice_from in *. rewrite length_drop in *. lia.
    + apply Forall_app. split; [done|]. constructor; [|done].
      pose proof (trim_length (slice_to rest (cut_index rest maxChars))).
      unfold slice_to in *. rewrite length_take in *. lia.
  - eexists. split; [done|].
    destruct rest; [done|]. apply Forall_app. split; [done|].
    by constructor.
Qed.

Lemma floor_06_nonneg maxChars : (0 <= maxChars)%Z -> (0 <= floor_06 maxChars)%Z.
Proof. intros H. unfold floor_06. apply Z.div_pos; lia. Qed.

(** The loop of [splitText] adds to [chunks] the greedy split of [rest]. *)
Lemma split_loop_greedy fuel chunks rest maxChars out :
  (0 <= maxChars)%Z ->
  split_loop cut_index fuel chunks rest maxChars = Some out ->
  exists more, out = chunks ++ more /\ greedy_split maxChars rest more.
Proof.
  intros Hm. revert chunks rest.
  induction fuel as [|fuel IH]; intros chunks rest; [done|].
  cbn [split_loop].
  destruct (Z.ltb_spec maxChars (Z.of_nat (length rest))) as [Hlong|Hshort].
  - intros H. apply IH in H as (more & -> & Hg).
    exists (trim (slice_to rest (cut_index rest maxChars)) :: more).
    split; [by rewrite <- app_assoc|].
    revert Hg. rewrite cut_index_eq. unfold slice_to, slice_from.
    pose proof (floor_06_nonneg maxChars Hm) as H06.
    destruct (lastIndexOf_space_spec rest maxChars)
      as [[Hr Hnone]|(Hr & Hat & Hafter)];
      destruct (Z.leb_spec (floor_06 maxChars)
                  (lastIndexOf_space rest maxChars)) as [Hl|Hl];
      intros Hg; try lia.
    + apply split_hard; [done| |done]. intros j Hj. apply Hnone. lia.
    + apply split_at_space; [done|lia|done| |done].
      intros j Hj. apply Hafter. lia.
    + apply split_hard; [done| |done]. intros j Hj. apply Hafter. lia.
  - intros [= <-]. exists (match rest with [] => [] | _ :: _ => [rest] end).
    split; [destruct rest; by rewrite ?app_nil_r|]. by apply split_end.
Qed.

(** C6, as the code has it.  For every text and every positive integer
    [maxChars], [splitText] returns, every chunk has at most [maxChars]
    units, and the chunks are the greedy split of the trimmed text: a
    turn of the loop cuts the remaining text at the last space (U+0020) at
    an index up to [maxChars], provided that index is at least
    [floor (0.6 * maxChars)]; otherwise (the last such space lies before
    that bound, or there is none) it cuts at [maxChars]; the chunk is the
    text before the cut, trimmed, and the loop goes on with the text from
    the cut, trimmed. *)
Theorem splitText_bounded (text : list N) (maxChars : Z) :
  (0 < maxChars)%Z ->
  (exists chunks,
     splitText text maxChars = Some chunks /\
     Forall (fun c => (Z.of_nat (length c) <= maxChars)%Z) chunks /\
     greedy_split maxChars (trim text) chunks) /\
  (forall rest,
     is_last_space rest maxChars (lastIndexOf_space rest maxChars) /\
     cut_index rest maxChars =
     if (floor_06 maxChars <=? lastIndexOf_space rest maxChars)%Z
     then lastIndexOf_space rest maxChars else maxChars).
Proof.
  intros Hm. split.
  - destruct (split_loop_bounded (S (length text)) [] (trim text) maxChars)
      as (out & Hout & Hb); [done|apply starts_space_trim| |done|].
    { pose proof (trim_length text). lia. }
    exists out. split; [done|]. split; [done|].
    apply split_loop_greedy in Hout as (more & -> & Hg); [done|lia].
  - intros rest. split; [apply lastIndexOf_space_spec|apply cut_index_eq].
Qed.

Lemma splitText_bounded_witness :
  (0 < 10)%Z /\
  splitText (lit "abcdefgh ijklmnop qrs") 10
    = Some [lit "abcdefgh"; lit "ijklmnop"; lit "qrs"] /\
  splitText (lit "ab cdefghijklmnop") 10
    = Some [lit "ab cdefghi"; lit "jklmnop"] /\
  exists chunks,
    splitText (lit "abcdefgh ijklmnop qrs") 10 = Some chunks /\
    Forall (fun c => (Z.of_nat (length c) <= 10)%Z) chunks /\
    greedy_split 10 (trim (lit "abcdefgh ijklmnop qrs")) chunks.
Proof.
  split; [reflexivity|]. split; [vm_compute; reflexivity|].
  split; [vm_compute; reflexivity|].
  apply (splitText_bounded (lit "abcdefgh ijklmnop qrs") 10). reflexivity.
Defined.

(** C6 as it is worded fails on the code.  In ["abcdefgh ijklmnop"] with
    [maxChars = 10] the first 60% of the window hold no whitespace, and the
    code cuts at the space at index 8, not at 10.  In
    ["ab cdefghijklmnop"] the last whitespace up to index 10 is at index 2,
    and the code cuts at 10.  In the text with a tabulator at index 8 the
    code, which looks for U+0020 only, cuts at 10. *)
Lemma splitText_not_as_worded :
  (cut_index (lit "abcdefgh ijklmnop") 10 = 8%Z /\
   spec_cut_index (lit "abcdefgh ijklmnop") 10 = 10%Z /\
   splitText (lit "abcdefgh ijklmnop") 10 =
     Some [lit "abcdefgh"; lit "ijklmnop"] /\
   spec_splitText (lit "abcdefgh ijklmnop") 10 =
     Some [lit "abcdefgh i"; lit "jklmnop"]) /\
  (cut_index (lit "ab cdefghijklmnop") 10 = 10%Z /\
   spec_cut_index (lit "ab cdefghijklmnop") 10 = 2%Z /\
   splitText (lit "ab cdefghijklmnop") 10 =
     Some [lit "ab cdefghi"; lit "jklmnop"] /\
   spec_splitText (lit "ab cdefghijklmnop") 10 =
     Some [lit "ab"; lit "cdefghijkl"; lit "mnop"]) /\
  (let tabbed := lit "abcdefgh" ++ 9 :: lit "ijklmnop" in
   cut_index tabbed 10 = 10%Z /\ spec_cut_index tabbed 10 = 10%Z /\
   last_space_upto 0 tabbed 10 = 8%Z /\ lastIndexOf_space tabbed 10 = (-1)%Z) /\
  ~ (forall text maxChars, (0 < maxChars)%Z ->
       splitText text maxChars = spec_splitText text maxChars).
Proof.
  split; [vm_compute; repeat split; reflexivity|].
  split; [vm_compute; repeat split; reflexivity|].
  split; [vm_compute; repeat split; reflexivity|].
  intros H. specialize (H (lit "abcdefgh ijklmnop") 10%Z eq_refl).
  vm_compute in H. discriminate H.
Qed.

End ChunkerFacts.

(** ** The version store and the ingestion run *)

Module StoreFacts.
Import Js Store.

Section Facts.
Context {E : Type}.
Implicit Types d : db E.

Lemma status_beginVersion tag url now d t :
  status_of (beginVersion tag url now d) t =
  if decide (tag = t) then Some loading else status_of d t.
Proof.
  unfold status_of, beginVersion. simpl. rewrite lookup_insert.
  by destruct (decide (tag = t)).
Qed.

Lemma status_archiveOthers tag d t :
  status_of (archiveOthers tag d) t =
  match status_of d t with
  | Some active => Some (if decide (t = tag) then active else archived)
  | o => o
  end.
Proof.
  unfold status_of, archiveOthers. simpl. rewrite map_lookup_imap.
  destruct (law_dataset_versions d !! t) as [v|]; [|done]. simpl.
  destruct (decide (v_status v = active /\ t <> tag)) as [[Hv Ht]|Hn].
  - simpl. rewrite Hv. by destruct (decide (t = tag)).
  - destruct (v_status v) eqn:Hv; try done.
    destruct (decide (t = tag)); [done|]. exfalso. by apply Hn.
Qed.

Lemma status_activate tag d t :
  status_of (activate tag d) t =
  if decide (tag = t) then (fun _ => active) <$> status_of d t
  else status_of d t.
Proof.
  unfold status_of, activate. simpl. rewrite lookup_alter.
  destruct (decide (tag = t)) as [->|]; [|done].
  by destruct (law_dataset_versions d !! t).
Qed.

Lemma status_setPointer tag now d t :
  status_of (setPointer tag now d) t = status_of d t.
Proof. done. Qed.

Lemma status_markVersionFailed tag now d t :
  status_of (markVersionFailed tag now d) t =
  if decide (tag = t) then (fun _ => failed) <$> status_of d t
  else status_of d t.
Proof.
  unfold status_of, markVersionFailed. simpl. rewrite lookup_alter.
  destruct (decide (tag = t)) as [->|]; [|done].
  by destruct (law_dataset_versions d !! t).
Qed.

Lemma pointer_setPointer tag now d : pointer (setPointer tag now d) = Some tag.
Proof. unfold pointer, setPointer. simpl. by rewrite lookup_insert_eq. Qed.

(** After the three closing statements only [tag] can be active, it is
    active if it has a row, and the pointer names it. *)
Lemma commitVersion_active tag now d t :
  status_of (commitVersion tag now d) t = Some active ->
  t = tag.
Proof.
  unfold commitVersion. rewrite status_setPointer, status_activate.
  destruct (decide (tag = t)) as [->|Hne]; [done|].
  rewrite status_archiveOthers.
  destruct (status_of d t) as [[]|]; try done.
  by destruct (decide (t = tag)).
Qed.

Lemma commitVersion_tag tag now d :
  is_Some (status_of d tag) ->
  status_of (commitVersion tag now d) tag = Some active.
Proof.
  intros [st Hst]. unfold commitVersion.
  rewrite status_setPointer, status_activate, decide_True by done.
  rewrite status_archiveOthers, Hst. by destruct st.
Qed.

Lemma step_at_most_one_active d d' :
  step d d' -> at_most_one_active d -> at_most_one_active d'.
Proof.
  intros Hs Hinv. destruct Hs as [tag url now d|tag now d|tag now d];
    intros t1 t2 H1 H2.
  - rewrite status_beginVersion in H1, H2.
    destruct (decide (tag = t1)); [done|]. destruct (decide (tag = t2)); [done|].
    by apply Hinv.
  - apply commitVersion_active in H1, H2. congruence.
  - rewrite status_markVersionFailed in H1, H2.
    destruct (decide (tag = t1)).
    { by destruct (status_of d t1). }
    destruct (decide (tag = t2)).
    { by destruct (status_of d t2). }
    by apply Hinv.
Qed.

(** *** The transaction *)

Lemma bind_Some {A B} (c : @tx E A) (f : A -> @tx E B) s r :
  bind c f s = Some r ->
  exists a s', c s = Some (a, s') /\ f a s' = Some r.
Proof.
  unfold bind. destruct (c s) as [[a s']|]; [|done]. eauto.
Qed.

Lemma query_Some fails (f : db E -> db E) (s : db E * nat) r :
  query fails f s = Some r -> r = (tt, (f (fst s), S (snd s))).
Proof. unfold query. destruct (fails (snd s)); [done|]. by intros [= <-]. Qed.

Section Run.
Variable embedBatch : list (list N) -> option (list E).
Variable fails : nat -> bool.
Variable tag : list N.
Variable url : list N.
Variable mode : ingest_mode.
Variable batch_pred : nat.
Variable now : Z.

Lemma insertRows_tables rows (embeddings : list E) (s : db E * nat) r :
  insertRows fails tag rows embeddings s = Some r ->
  law_dataset_versions (fst (snd r)) = law_dataset_versions (fst s) /\
  law_dataset_meta (fst (snd r)) = law_dataset_meta (fst s).
Proof.
  revert embeddings s. induction rows as [|row rows IH]; intros embeddings s H.
  - by injection H as <-.
  - simpl in H. destruct embeddings as [|e embeddings]; [done|].
    apply bind_Some in H as (u & s1 & Hq & H).
    apply query_Some in Hq. injection Hq as _ ->.
    apply IH in H as [-> ->]. done.
Qed.

Lemma ingestBatches_tables fuel rows (s : db E * nat) r :
  ingestBatches embedBatch fails tag batch_pred fuel rows s = Some r ->
  law_dataset_versions (fst (snd r)) = law_dataset_versions (fst s) /\
  law_dataset_meta (fst (snd r)) = law_dataset_meta (fst s).
Proof.
  revert rows s. induction fuel as [|fuel IH]; intros rows s H.
  - by injection H as <-.
  - simpl in H. destruct rows as [|row rows]; [by injection H as <-|].
    apply bind_Some in H as (embeddings & s1 & Hl & H).
    unfold lift in Hl. destruct (embedBatch _); [|done]. injection Hl as _ <-.
    apply bind_Some in H as (u & s2 & Hi & H).
    apply insertRows_tables in Hi as [Hv Hm]. simpl in Hv, Hm.
    apply IH in H as [-> ->]. done.
Qed.

(** The fuel of [ingestBatches] is enough: with the length of the rows
    the loop has consumed all of them when it stops. *)
Lemma ingestBatches_fuel fuel1 fuel2 rows (s : db E * nat) :
  (length rows <= fuel1)%nat -> (length rows <= fuel2)%nat ->
  ingestBatches embedBatch fails tag batch_pred fuel1 rows s =
  ingestBatches embedBatch fails tag batch_pred fuel2 rows s.
Proof.
  revert fuel2 rows s.
  induction fuel1 as [|fuel1 IH]; intros fuel2 rows s H1 H2.
  - destruct rows; [|simpl in H1; lia]. by destruct fuel2.
  - destruct fuel2 as [|fuel2].
    { destruct rows; [done|simpl in H2; lia]. }
    simpl. destruct rows as [|row rows]; [done|].
    unfold bind. destruct (lift _ s) as [[embeddings s1]|]; [|done].
    destruct (insertRows _ _ _ _ s1) as [[u s2]|]; [|done].
    apply IH; rewrite length_drop; simpl in *; lia.
Qed.

Lemma ingestFiles_tables xmlFiles (s : db E * nat) r :
  ingestFiles embedBatch fails tag batch_pred xmlFiles s = Some r ->
  law_dataset_versions (fst (snd r)) = law_dataset_versions (fst s) /\
  law_dataset_meta (fst (snd r)) = law_dataset_meta (fst s).
Proof.
  revert s. induction xmlFiles as [|rows files IH]; intros s H.
  - by injection H as <-.
  - simpl in H. apply bind_Some in H as (u & s1 & Hb & H).
    apply ingestBatches_tables in Hb as [Hv Hm]. simpl in Hv, Hm.
    apply IH in H as [-> ->]. done.
Qed.

(** A committed run ends with the three closing statements, applied to a
    database in which [tag] has a row. *)
Lemma transaction_committed xmlFiles (d : db E) r :
  transaction embedBatch fails tag url mode batch_pred now xmlFiles (d, O)
    = Some r ->
  exists d3, fst (snd r) = commitVersion tag now d3 /\
             is_Some (status_of d3 tag).
Proof.
  unfold transaction. intros H.
  apply bind_Some in H as (u0 & s0 & Hq0 & H). apply query_Some in Hq0.
  injection Hq0 as _ ->.
  apply bind_Some in H as (u1 & s1 & Hq1 & H). apply query_Some in Hq1.
  injection Hq1 as _ ->.
  apply bind_Some in H as (u2 & s2 & Hq2 & H).
  assert (Hv2 : law_dataset_versions (fst s2) =
                <[tag := Version (match url with [] => None | _ => Some url end)
                                 now loading]> (law_dataset_versions d)).
  { destruct mode.
    - apply query_Some in Hq2. by injection Hq2 as _ ->.
    - by injection Hq2 as _ <-. }
  apply bind_Some in H as (u3 & s3 & Hi & H).
  apply ingestFiles_tables in Hi as [Hv3 _]. simpl in Hv3.
  apply bind_Some in H as (u4 & s4 & Hq4 & H). apply query_Some in Hq4.
  injection Hq4 as _ ->.
  apply bind_Some in H as (u5 & s5 & Hq5 & H). apply query_Some in Hq5.
  injection Hq5 as _ ->.
  apply bind_Some in H as (u6 & s6 & Hq6 & H). apply query_Some in Hq6.
  injection Hq6 as _ ->.
  apply query_Some in H. subst r. simpl.
  exists (fst s3). split; [done|].
  unfold status_of. rewrite Hv3, Hv2, lookup_insert_eq. by eexists.
Qed.

End Run.
End Facts.

(** C7.  When a run of [main] for the tag [T] ends with its commit, the
    version [T] is active, no other version is, and the pointer names [T];
    and the invariant that at most one version is active holds in every
    state reachable by the operations of the version store from a state
    in which it holds (so from the empty database). *)
Theorem single_active_version :
  (forall (E : Type) embedBatch fails T url mode batch_pred now
          mark_throws now' xmlFiles (d d' : db E),
     main embedBatch fails T url mode batch_pred now mark_throws now'
          xmlFiles d = (Done, d') ->
     (forall t, status_of d' t = Some active <-> t = T) /\
     pointer d' = Some T /\ at_most_one_active d') /\
  (forall (E : Type) (d0 d : db E),
     at_most_one_active d0 -> reachable d0 d -> at_most_one_active d) /\
  (forall E : Type, at_most_one_active (Db (E := E) ∅ [] ∅)).
Proof.
  split; [|split].
  - intros E embedBatch fails T url mode batch_pred now mark_throws now'
      xmlFiles d d' H.
    unfold main in H. destruct xmlFiles as [|rows files]; [done|].
    destruct (transaction _ _ _ _ _ _ _ _ _) as [[u [d1 k]]|] eqn:Ht; [|done].
    injection H as <-.
    apply transaction_committed in Ht as (d3 & Hd & Hrow). simpl in Hd.
    subst d1.
    assert (Hiff : forall t, status_of (commitVersion T now d3) t = Some active
                             <-> t = T).
    { intros t. split; [apply commitVersion_active|].
      intros ->. by apply commitVersion_tag. }
    split; [done|]. split; [apply pointer_setPointer|].
    intros t1 t2 H1%Hiff H2%Hiff. congruence.
  - intros E d0 d H0 Hr. induction Hr as [|d d' _ IH Hs]; [done|].
    by eapply step_at_most_one_active.
  - intros E t1 t2 H1. unfold status_of in H1. simpl in H1.
    by rewrite lookup_empty in H1.
Qed.

Lemma single_active_version_witness :
  let T := lit "2026-03-01" in
  let r := Examples.run_march Examples.embed_ok [Examples.rows_bgb] in
  r = (Done, snd r) /\
  status_of (snd r) T = Some active /\
  status_of (snd r) (lit "2026-02-01") = Some archived /\
  pointer (snd r) = Some T.
Proof.
  intros T r.
  assert (Hr : r = (Done, snd r)) by (vm_compute; reflexivity).
  split; [exact Hr|].
  destruct (proj1 single_active_version _ _ _ _ _ _ _ _ _ _ _ _ _ Hr)
    as (Hiff & Hptr & _).
  split; [by apply Hiff|]. split; [vm_compute; reflexivity|exact Hptr].
Defined.

(** What a failed run leaves behind: the chunks, the pointer and the rows
    of all other versions are those of before; the row of the tag, if
    there is one, is marked failed (unless that statement throws too). *)
Lemma failed_run_frame {E} embedBatch fails T url mode batch_pred now
    mark_throws now' xmlFiles (d d' : db E) :
  main embedBatch fails T url mode batch_pred now mark_throws now'
       xmlFiles d = (INGEST_FAILED, d') ->
  law_chunks d' = law_chunks d /\
  law_dataset_meta d' = law_dataset_meta d /\
  (forall t, t <> T ->
     law_dataset_versions d' !! t = law_dataset_versions d !! t) /\
  status_of d' T =
    if mark_throws then status_of d T
    else (fun _ => failed) <$> status_of d T.
Proof.
  unfold main. destruct xmlFiles as [|rows files]; [done|].
  destruct (transaction _ _ _ _ _ _ _ _ _) as [[u [d1 k]]|]; [done|].
  intros [= <-]. destruct mark_throws; [done|].
  repeat split; try done.
  - intros t Ht. simpl. by rewrite lookup_alter_ne.
  - by rewrite status_markVersionFailed, decide_True.
Qed.

(** C8, at the input on which the code departs from it.  The version of
    February is active; the run for the new tag of March fails in the
    embedding provider.  The row of March was inserted inside the
    transaction that is rolled back, so the statement of
    [markVersionFailed] finds no row: afterwards the database is the one of
    before and there is no version row for March, failed or not. *)
Theorem failed_run_leaves_no_row :
  let T := lit "2026-03-01" in
  let r := Examples.run_march Examples.embed_down [Examples.rows_bgb] in
  fst r = INGEST_FAILED /\
  status_of Examples.db_february T = None /\
  status_of (snd r) T = None /\
  snd r = Examples.db_february.
Proof. vm_compute. repeat split; reflexivity. Qed.

End StoreFacts.

(** ** The retrievers *)

Module RetrievalFacts.
Import Js Store Retrieval GuardFacts.

Section Facts.
Context {E : Type}.
Variable closer : chunk E -> chunk E -> bool.

Lemma insert_ranked_length c l :
  length (insert_ranked closer c l) = S (length l).
Proof.
  induction l as [|c' l IH]; [done|]. simpl.
  destruct (closer c c'); simpl; by rewrite ?IH.
Qed.

Lemma rank_length l : length (rank closer l) = length l.
Proof.
  induction l as [|c l IH]; [done|]. simpl.
  by rewrite insert_ranked_length, IH.
Qed.

Lemma fold_max_tag_elem (cs : list (chunk E)) t0 :
  fold_left (fun t c' => max_tag t (version_tag c')) cs t0 = t0 \/
  exists c, c ∈ cs /\
    version_tag c = fold_left (fun t c' => max_tag t (version_tag c')) cs t0.
Proof.
  revert t0. induction cs as [|c cs IH]; intros t0; [by left|]. simpl.
  destruct (IH (max_tag t0 (version_tag c))) as [Ht|(c' & Hc' & Ht)].
  - rewrite Ht. unfold max_tag. destruct (str_leb t0 (version_tag c)).
    + right. exists c. split; [by apply elem_of_cons; left|done].
    + by left.
  - right. exists c'. split; [by apply elem_of_cons; right|done].
Qed.

Lemma max_version_tag_elem (cs : list (chunk E)) :
  cs <> [] ->
  exists t c, max_version_tag cs = Some t /\ c ∈ cs /\ version_tag c = t.
Proof.
  destruct cs as [|c cs]; [done|]. intros _. simpl.
  destruct (fold_max_tag_elem cs (version_tag c)) as [Ht|(c' & Hc' & Ht)].
  - eexists _, c. split; [done|]. split; [by apply elem_of_cons; left|done].
  - eexists _, c'. split; [done|]. split; [by apply elem_of_cons; right|done].
Qed.

Lemma str_leb_tag_le a b : str_leb a b = true <-> tag_le a b.
Proof.
  revert b. induction a as [|x a IH]; intros b.
  - split; [constructor|done].
  - destruct b as [|y b]; simpl.
    + split; [done|]. inversion 1.
    + rewrite orb_true_iff, andb_true_iff, N.ltb_lt, N.eqb_eq, IH. split.
      * intros [Hlt|[-> Hle]]; [by apply tag_le_lt|by apply tag_le_eq].
      * inversion 1; subst; [by left|by right].
Qed.

Lemma tag_le_refl a : tag_le a a.
Proof. induction a; by constructor. Qed.

Lemma tag_le_total a b : tag_le a b \/ tag_le b a.
Proof.
  revert b. induction a as [|x a IH]; intros b; [left; constructor|].
  destruct b as [|y b]; [right; constructor|].
  destruct (N.lt_trichotomy x y) as [Hlt|[->|Hgt]].
  - left. by apply tag_le_lt.
  - destruct (IH b); [left|right]; by apply tag_le_eq.
  - right. by apply tag_le_lt.
Qed.

Lemma tag_le_trans a b c : tag_le a b -> tag_le b c -> tag_le a c.
Proof.
  intros Hab. revert c. induction Hab as [b|x a y b Hlt|x a b Hab IH];
    intros c Hbc.
  - constructor.
  - inversion Hbc; subst; apply tag_le_lt; lia.
  - inversion Hbc; subst; [by apply tag_le_lt|]. apply tag_le_eq. by apply IH.
Qed.

Lemma max_tag_ge a b : tag_le a (max_tag a b) /\ tag_le b (max_tag a b).
Proof.
  unfold max_tag. destruct (str_leb a b) eqn:Hab.
  - split; [by apply str_leb_tag_le|apply tag_le_refl].
  - split; [apply tag_le_refl|].
    destruct (tag_le_total a b) as [H|H]; [|done].
    apply str_leb_tag_le in H. congruence.
Qed.

Lemma fold_max_tag_ge (cs : list (chunk E)) t0 :
  tag_le t0 (fold_left (fun t c' => max_tag t (version_tag c')) cs t0) /\
  forall c, c ∈ cs ->
    tag_le (version_tag c)
           (fold_left (fun t c' => max_tag t (version_tag c')) cs t0).
Proof.
  revert t0. induction cs as [|c cs IH]; intros t0; simpl.
  - split; [apply tag_le_refl|]. by intros c ?%elem_of_nil.
  - destruct (IH (max_tag t0 (version_tag c))) as [H0 Hall].
    destruct (max_tag_ge t0 (version_tag c)) as [Ha Hb].
    split; [by eapply tag_le_trans|].
    intros c' [->|Hc']%elem_of_cons; [by eapply tag_le_trans|by apply Hall].
Qed.

(** [MAX(version_tag)] is the tag of a stored chunk, and no stored chunk
    has a later one. *)
Lemma max_version_tag_greatest (cs : list (chunk E)) t :
  max_version_tag cs = Some t ->
  (exists c, c ∈ cs /\ version_tag c = t) /\
  forall c, c ∈ cs -> tag_le (version_tag c) t.
Proof.
  intros H. split.
  - destruct cs as [|c0 cs]; [done|].
    destruct (max_version_tag_elem (c0 :: cs)) as (t' & c & Ht & Hc & Hv);
      [done|].
    exists c. split; [done|]. congruence.
  - destruct cs as [|c0 cs]; [done|]. simpl in H. injection H as <-.
    destruct (fold_max_tag_ge cs (version_tag c0)) as [H0 Hall].
    intros c [->|Hc]%elem_of_cons; [done|by apply Hall].
Qed.

Lemma chunks_of_elem (d : db E) c :
  c ∈ law_chunks d -> c ∈ chunks_of d (version_tag c).
Proof.
  intros H. unfold chunks_of. apply list_elem_of_In, List.filter_In.
  split; [by apply list_elem_of_In|]. by apply str_eqb_eq.
Qed.

(** The server resolves a query against the version of the pointer when
    that version holds chunks, and otherwise against the greatest tag
    among the stored chunks; with a non-empty corpus the version it
    resolves to always holds chunks. *)
Lemma effective_version_pointer (d : db E) t :
  pointer d = Some t -> chunks_of d t <> [] -> effective_version d = Some t.
Proof.
  unfold effective_version. intros -> H. by destruct (chunks_of d t).
Qed.

Lemma effective_version_chunks (d : db E) :
  law_chunks d <> [] ->
  exists t, effective_version d = Some t /\ chunks_of d t <> [].
Proof.
  intros Hne.
  destruct (max_version_tag_elem (law_chunks d) Hne) as (tm & cm & Hm & Hcm & Htm).
  assert (Hmax : chunks_of d tm <> []).
  { subst tm. apply chunks_of_elem in Hcm. intros Hnil. rewrite Hnil in Hcm.
    by apply elem_of_nil in Hcm. }
  unfold effective_version. destruct (pointer d) as [t|]; [|eauto].
  destruct (chunks_of d t) eqn:Ht; [eauto|].
  exists t. split; [done|]. by rewrite Ht.
Qed.

(** A query of the server without law filter against a non-empty corpus
    is not answered with the empty list, whatever the pointer says. *)
Lemma retrieveLegalSources_not_empty LEGAL_TOP_K (d : db E) q queryText e
    topK :
  law_chunks d <> [] -> (0 < LEGAL_TOP_K)%nat ->
  retrieveLegalSources closer LEGAL_TOP_K (Some d) (q :: queryText)
                       (Some e) topK [] <> [].
Proof.
  intros Hne Hk. unfold retrieveLegalSources. cbn [List.filter].
  destruct (effective_version_chunks d Hne) as (t & -> & Ht).
  set (limit := match topK with Some (S k) => S k | _ => LEGAL_TOP_K end).
  assert (Hl : (0 < limit)%nat).
  { unfold limit. destruct topK as [[|k]|]; lia. }
  assert (Hf : List.filter (fun c => str_eqb (version_tag c) t && true)
                 (law_chunks d) = chunks_of d t).
  { unfold chunks_of. apply List.filter_ext. intros c. by rewrite andb_true_r. }
  rewrite Hf. intros Hnil. apply (f_equal length) in Hnil.
  rewrite length_take, rank_length in Hnil. simpl in Hnil.
  destruct (chunks_of d t); [done|]. simpl in Hnil. lia.
Qed.

End Facts.

End RetrievalFacts.

(** ** Further properties of the citation guard *)

Module GuardMore.
Import Js Re Guard Shape Notions ReFacts NormFacts GuardFacts.

Lemma normalizeNorm_shape (s : list N) : canonical (normalizeNorm s) = true.
Proof.
  unfold canonical. rewrite normalizeNorm_spaced.
  set (y := spaced norm_tokens (collapse_spaces s)).
  assert (Hy : tidy y = true).
  { apply spaced_tidy; [apply norm_tokens_plain|apply tidy_collapse]. }
  rewrite tidy_trim, starts_space_trim, ends_clean_trim by done.
  cbn [andb negb].
  pose proof (spaced_followed norm_tokens (collapse_spaces s)
                norm_tokens_plain) as Hf.
  fold y in Hf. pose proof norm_tokens_plain as Hp.
  rewrite forallb_forall. rewrite Forall_forall in Hf, Hp.
  intros tok Hin%list_elem_of_In. apply closed_trim; auto.
Qed.

Lemma canonical_fixed (z : list N) :
  canonical z = true -> normalizeNorm z = z.
Proof.
  unfold canonical. rewrite !andb_true_iff, negb_true_iff.
  intros [[[Ht Hs] He] Hc].
  rewrite normalizeNorm_spaced, (collapse_tidy z) by done.
  destruct (spaced_closed norm_tokens z) as [-> | ->].
  - apply norm_tokens_plain.
  - done.
  - done.
  - rewrite forallb_forall in Hc. apply Forall_forall.
    intros tok Hin%list_elem_of_In. by apply Hc.
  - by apply trim_clean.
  - by apply trim_clean_space.
Qed.

(** X1.  The result of [normalizeNorm] is in canonical shape for every
    input: its only white space is single U+0020 between other units, it
    neither starts nor ends with white space, and every occurrence of one
    of the seven tokens in it is followed by U+0020 or ends the string.
    The strings that [normalizeNorm] leaves unchanged are exactly the
    strings in canonical shape. *)
Theorem normalizeNorm_canonical (s : list N) :
  canonical (normalizeNorm s) = true /\
  (normalizeNorm s = s <-> canonical s = true).
Proof.
  split; [apply normalizeNorm_shape|]. split.
  - intros <-. apply normalizeNorm_shape.
  - apply canonical_fixed.
Qed.

Lemma solid_app a b : solid (a ++ b) = solid a ++ solid b.
Proof. apply List.filter_app. Qed.

Lemma solid_drop_space s : solid (drop_space s) = solid s.
Proof.
  induction s as [|c s IH]; [done|]. simpl.
  destruct (is_space c) eqn:Hc; simpl; [done|]. by rewrite Hc.
Qed.

Lemma solid_plain t :
  forallb (fun c => negb (is_space c)) t = true -> solid t = t.
Proof.
  induction t as [|c t IH]; [done|]. simpl.
  intros [Hc Ht]%andb_true_iff. rewrite Hc. f_equal. auto.
Qed.

Lemma solid_collapse_spaces s : solid (collapse_spaces s) = solid s.
Proof.
  induction s as [s IH] using len_ind.
  rewrite collapse_spaces_eq. destruct s as [|c s']; [done|].
  destruct (is_space c) eqn:Hc.
  - cbn [solid List.filter]. rewrite Hc.
    change (is_space 32) with true. cbn [negb].
    change (List.filter (fun c => negb (is_space c)) ?x) with (solid x).
    rewrite IH, solid_drop_space; [done|].
    pose proof (drop_space_length s'). simpl. lia.
  - cbn [solid List.filter]. rewrite Hc. cbn [negb]. f_equal.
    apply IH. simpl. lia.
Qed.

Lemma solid_space_after tok s :
  plain tok = true -> solid (space_after tok s) = solid s.
Proof.
  intros Hp. induction s as [s IH] using len_ind.
  rewrite space_after_eq by done.
  destruct (plain_inv tok Hp) as (a & t & -> & Ha & Ht & _).
  destruct (strip_prefix (a :: t) s) as [rest|] eqn:Hs.
  - apply strip_prefix_Some in Hs. subst s.
    change ((a :: t) ++ 32 :: ?x) with ((a :: t) ++ [32] ++ x).
    rewrite !solid_app. f_equal.
    change (solid [32]) with (@nil N). simpl app.
    rewrite IH, solid_drop_space; [done|].
    pose proof (drop_space_length rest). rewrite length_app. simpl. lia.
  - destruct s as [|c s']; [done|].
    cbn [solid List.filter]. f_equal.
    destruct (negb (is_space c)); [f_equal|]; apply IH; simpl; lia.
Qed.

Lemma solid_spaced toks s :
  Forall (fun tok => plain tok = true) toks -> solid (spaced toks s) = solid s.
Proof.
  intros H. revert s. induction H as [|tok toks Hp _ IH]; intros s; [done|].
  unfold spaced in *. simpl. rewrite IH. by apply solid_space_after.
Qed.

Lemma solid_trim s : solid (trim s) = solid s.
Proof.
  unfold trim, solid. rewrite filter_rev.
  change (List.filter (fun c => negb (is_space c)) ?x) with (solid x).
  rewrite solid_drop_space. unfold solid. rewrite filter_rev, rev_involutive.
  apply solid_drop_space.
Qed.

(** X2.  [normalizeNorm] changes white space only: the units of the result
    that are not white space are those of the input, in the same order. *)
Theorem normalizeNorm_keeps_solid (s : list N) :
  solid (normalizeNorm s) = solid s.
Proof.
  rewrite normalizeNorm_spaced, solid_trim, solid_spaced.
  - apply solid_collapse_spaces.
  - apply norm_tokens_plain.
Qed.

(** *** [extractNorms] *)

Lemma set_add_NoDup x l : NoDup l -> NoDup (set_add x l).
Proof.
  intros H. unfold set_add. destruct (set_has x l) eqn:Hx; [done|].
  apply NoDup_app. split; [done|]. split; [|apply NoDup_singleton].
  intros y Hy ->%list_elem_of_singleton.
  apply set_has_elem in Hy. congruence.
Qed.

Lemma fold_set_add_NoDup (f : list N -> list N) l acc :
  NoDup acc -> NoDup (fold_left (fun out mt => set_add (f mt) out) l acc).
Proof.
  revert acc. induction l as [|mt l IH]; intros acc H; [done|].
  simpl. apply IH. by apply set_add_NoDup.
Qed.

Lemma fold_set_add_keeps (f : list N -> list N) l acc x :
  x ∈ acc -> x ∈ fold_left (fun out mt => set_add (f mt) out) l acc.
Proof.
  revert acc. induction l as [|mt l IH]; intros acc H; [done|].
  simpl. apply IH. by apply set_add_mono.
Qed.

Lemma fold_set_add_complete (f : list N -> list N) l acc mt :
  mt ∈ l -> f mt ∈ fold_left (fun out mt => set_add (f mt) out) l acc.
Proof.
  revert acc. induction l as [|a l IH]; intros acc H.
  - by apply elem_of_nil in H.
  - simpl. apply elem_of_cons in H as [->|H]; [|by apply IH].
    apply fold_set_add_keeps, set_add_elem.
Qed.

(** X3.  [extractNorms] returns the canonical forms of the citations that
    [NORM_REGEX] finds in the text, each once: the result has no duplicate,
    holds the canonical form of every match, and each of its elements is
    the canonical form of a match, is not empty and is left unchanged by
    [normalizeNorm]. *)
Theorem extractNorms_canonical_set (text : list N) :
  NoDup (extractNorms text) /\
  (forall raw, raw ∈ match_g NORM_REGEX text ->
     normalizeNorm raw ∈ extractNorms text) /\
  (forall n, n ∈ extractNorms text ->
     (exists raw, raw ∈ match_g NORM_REGEX text /\ n = normalizeNorm raw) /\
     n <> [] /\ normalizeNorm n = n).
Proof.
  unfold extractNorms. split; [|split].
  - apply fold_set_add_NoDup, NoDup_nil_2.
  - intros raw Hraw. by apply fold_set_add_complete.
  - intros n Hn. apply fold_set_add_elem in Hn as [Hn|(raw & Hraw & ->)].
    { by apply elem_of_nil in Hn. }
    split; [by exists raw|]. split.
    + destruct (normalizeNorm_match text raw Hraw) as (c & u & ->). done.
    + apply canonical_fixed, normalizeNorm_shape.
Qed.

(** *** [resolveToAllowedNorm] *)

Lemma resolve_cases raw allowedNorms :
  let n := normalizeNorm raw in
  let res := resolveToAllowedNorm raw allowedNorms in
  (n ∈ allowedNorms /\ res = Resolution true n None) \/
  ((n ∉ allowedNorms) /\ candidates_of n allowedNorms = [] /\
   res = Resolution false n None) \/
  ((n ∉ allowedNorms) /\
   exists c, res = Resolution true c (Some n) /\ c ∈ allowedNorms /\
     same_head_tail n c = true /\
     forall c', c' ∈ allowedNorms -> same_head_tail n c' = true ->
       (length c <= length c')%nat).
Proof.
  cbv zeta. unfold resolveToAllowedNorm.
  destruct (set_has (normalizeNorm raw) allowedNorms) eqn:Hh.
  { left. by apply set_has_elem in Hh. }
  assert (Hn : normalizeNorm raw ∉ allowedNorms).
  { intros Hin%set_has_elem. congruence. }
  right.
  destruct (sort_by_length (candidates_of (normalizeNorm raw) allowedNorms))
    as [|c rest] eqn:Hs.
  - left. split; [done|]. split; [|done].
    destruct (candidates_of (normalizeNorm raw) allowedNorms) as [|a l] eqn:Hc;
      [done|].
    assert (Ha : a ∈ sort_by_length (a :: l)).
    { apply sort_by_length_elem. left. }
    rewrite Hs in Ha. by apply elem_of_nil in Ha.
  - right. split; [done|]. exists c. split; [done|].
    apply sort_by_length_head in Hs as [Hc Hmin].
    apply candidates_elem in Hc as [Hc1 Hc2]. split; [done|]. split; [done|].
    intros c' H1 H2. apply Hmin. by apply candidates_elem.
Qed.

(** X4.  [resolveToAllowedNorm] never accepts a norm from outside the
    allowlist: when [ok] is true the returned norm is a member of the
    allowlist; when [ok] is false the returned norm is the canonical form of
    the input, which is not a member and shares its head and tail with no
    member; [replacedFrom] is only set to the canonical form of an input
    that is not a member, and then the returned norm is a shortest member
    with the same head and tail. *)
Theorem resolveToAllowedNorm_sound (raw : list N)
    (allowedNorms : list (list N)) :
  (ok (resolveToAllowedNorm raw allowedNorms) = true ->
   norm (resolveToAllowedNorm raw allowedNorms) ∈ allowedNorms) /\
  (ok (resolveToAllowedNorm raw allowedNorms) = false ->
   norm (resolveToAllowedNorm raw allowedNorms) = normalizeNorm raw /\
   replacedFrom (resolveToAllowedNorm raw allowedNorms) = None /\
   (normalizeNorm raw ∉ allowedNorms) /\
   forall a, a ∈ allowedNorms ->
     same_head_tail (normalizeNorm raw) a = false) /\
  (forall f, replacedFrom (resolveToAllowedNorm raw allowedNorms) = Some f ->
   f = normalizeNorm raw /\ (f ∉ allowedNorms) /\
   ok (resolveToAllowedNorm raw allowedNorms) = true /\
   same_head_tail f (norm (resolveToAllowedNorm raw allowedNorms)) = true /\
   forall c', c' ∈ allowedNorms -> same_head_tail f c' = true ->
     (length (norm (resolveToAllowedNorm raw allowedNorms)) <= length c')%nat).
Proof.
  destruct (resolve_cases raw allowedNorms)
    as [[Hin ->]|[(Hn & Hc & ->)|(Hn & c & -> & Hc & Hst & Hmin)]]; simpl.
  - split; [done|]. split; [done|]. intros f [=].
  - split; [done|]. split; [|intros f [=]]. intros _.
    split; [done|]. split; [done|]. split; [done|].
    intros a Ha. destruct (same_head_tail (normalizeNorm raw) a) eqn:Hst;
      [|done].
    assert (H : a ∈ candidates_of (normalizeNorm raw) allowedNorms)
      by by apply candidates_elem.
    rewrite Hc in H. by apply elem_of_nil in H.
  - split; [done|]. split; [done|]. intros f [= <-]. done.
Qed.

(** *** The reports of [sanitizeAnswerCitations] *)

Lemma step_reports_sound allowedNorms found st raw :
  raw ∈ found -> reports_sound allowedNorms found st ->
  reports_sound allowedNorms found (sanitize_step allowedNorms st raw).
Proof.
  intros Hraw (Hnd & Hrem & Hrep). unfold sanitize_step.
  destruct (resolve_cases raw allowedNorms)
    as [[Hin ->]|[(Hn & Hc & ->)|(Hn & c & -> & Hc & Hst & Hmin)]]; simpl.
  - done.
  - split; [by apply set_add_NoDup|]. split; [|done].
    intros x Hx. unfold set_add in Hx.
    destruct (set_has (normalizeNorm raw) (removedNorms st)); [by apply Hrem|].
    apply elem_of_app in Hx as [Hx|Hx]; [by apply Hrem|].
    apply list_elem_of_singleton in Hx as ->.
    split; [done|]. by exists raw.
  - destruct (normalizeNorm raw) as [|c0 from] eqn:Hnr; [done|]. simpl.
    split; [done|]. split; [done|].
    intros f t [Hft|Hft%list_elem_of_singleton]%elem_of_app;
      [by apply Hrep|].
    injection Hft as -> ->.
    split; [done|]. split; [done|]. split; [done|]. by exists raw.
Qed.

Lemma fold_reports_sound allowedNorms found l st :
  (forall raw, raw ∈ l -> raw ∈ found) ->
  reports_sound allowedNorms found st ->
  reports_sound allowedNorms found (fold_left (sanitize_step allowedNorms) l st).
Proof.
  revert st. induction l as [|raw l IH]; intros st Hl Hst; [done|].
  simpl. apply IH.
  - intros r Hr. apply Hl. by right.
  - apply step_reports_sound; [apply Hl; left|done].
Qed.

(** X5.  The reports of [sanitizeAnswerCitations] are sound: [removedNorms]
    has no duplicate and holds only canonical forms of citations found in
    the answer that are not in the allowlist; every pair of [replacedNorms]
    goes from the canonical form of a found citation that is not in the
    allowlist to a member of the allowlist with the same head and tail. *)
Theorem sanitize_reports_sound (answerText : list N)
    (allowedNorms : list (list N)) :
  NoDup (removedNorms (sanitizeAnswerCitations answerText allowedNorms)) /\
  (forall x,
     x ∈ removedNorms (sanitizeAnswerCitations answerText allowedNorms) ->
     (x ∉ allowedNorms) /\
     exists raw, raw ∈ match_g NORM_REGEX answerText /\ x = normalizeNorm raw) /\
  (forall f t,
     (f, t) ∈ replacedNorms (sanitizeAnswerCitations answerText allowedNorms) ->
     t ∈ allowedNorms /\ (f ∉ allowedNorms) /\ same_head_tail f t = true /\
     exists raw, raw ∈ match_g NORM_REGEX answerText /\ f = normalizeNorm raw).
Proof.
  rewrite sanitize_fold.
  apply (fold_reports_sound allowedNorms (match_g NORM_REGEX answerText));
    [done|].
  split; [apply NoDup_nil_2|]. split.
  - intros x Hx. by apply elem_of_nil in Hx.
  - intros f t Hx. by apply elem_of_nil in Hx.
Qed.

Lemma step_accounted allowedNorms text st raw :
  raw ∈ match_g NORM_REGEX text ->
  accounted allowedNorms (sanitize_step allowedNorms st raw) raw.
Proof.
  intros Hraw. unfold accounted, sanitize_step.
  destruct (resolve_cases raw allowedNorms)
    as [[Hin ->]|[(Hn & Hc & ->)|(Hn & c & -> & Hc & Hst & Hmin)]]; simpl.
  - by left.
  - right. left. apply set_add_elem.
  - destruct (normalizeNorm_match text raw Hraw) as (c0 & u & ->). simpl.
    right. right. exists c. apply elem_of_app. right. left.
Qed.

Lemma fold_accounted_mono allowedNorms l st raw :
  accounted allowedNorms st raw ->
  accounted allowedNorms (fold_left (sanitize_step allowedNorms) l st) raw.
Proof.
  intros [H|[H|[t H]]]; [by left| |].
  - right. left. by apply fold_removed_mono.
  - right. right. exists t. by apply fold_replaced_mono.
Qed.

Lemma fold_accounted allowedNorms text l st raw :
  (forall r, r ∈ l -> r ∈ match_g NORM_REGEX text) -> raw ∈ l ->
  accounted allowedNorms (fold_left (sanitize_step allowedNorms) l st) raw.
Proof.
  revert st. induction l as [|a l IH]; intros st Hl Hraw.
  - by apply elem_of_nil in Hraw.
  - simpl. apply elem_of_cons in Hraw as [->|Hraw].
    + apply fold_accounted_mono, (step_accounted _ text). apply Hl. left.
    + apply IH; [|done]. intros r Hr. apply Hl. by right.
Qed.

(** X6.  The reports of [sanitizeAnswerCitations] are complete: the
    canonical form of every citation found in the answer is in the
    allowlist, or in [removedNorms], or the [from] of a pair of
    [replacedNorms].  Both reports are empty exactly when every found
    citation is in the allowlist, and then the text is returned
    unchanged. *)
Theorem sanitize_reports_complete (answerText : list N)
    (allowedNorms : list (list N)) :
  (forall raw, raw ∈ match_g NORM_REGEX answerText ->
     normalizeNorm raw ∈ allowedNorms \/
     normalizeNorm raw
       ∈ removedNorms (sanitizeAnswerCitations answerText allowedNorms) \/
     exists t, (normalizeNorm raw, t)
       ∈ replacedNorms (sanitizeAnswerCitations answerText allowedNorms)) /\
  ((removedNorms (sanitizeAnswerCitations answerText allowedNorms) = [] /\
    replacedNorms (sanitizeAnswerCitations answerText allowedNorms) = []) <->
   (forall raw, raw ∈ match_g NORM_REGEX answerText ->
      normalizeNorm raw ∈ allowedNorms)) /\
  ((forall raw, raw ∈ match_g NORM_REGEX answerText ->
      normalizeNorm raw ∈ allowedNorms) ->
   sanitizedText (sanitizeAnswerCitations answerText allowedNorms)
   = answerText).
Proof.
  assert (Hacc : forall raw, raw ∈ match_g NORM_REGEX answerText ->
    accounted allowedNorms (sanitizeAnswerCitations answerText allowedNorms)
      raw).
  { intros raw Hraw. rewrite sanitize_fold.
    by apply (fold_accounted _ answerText). }
  assert (Hall : (forall raw, raw ∈ match_g NORM_REGEX answerText ->
      normalizeNorm raw ∈ allowedNorms) ->
    sanitizeAnswerCitations answerText allowedNorms
    = Sanitized answerText [] []).
  { intros H. apply sanitize_all_allowed. apply forallb_forall.
    intros raw Hraw%list_elem_of_In. apply set_has_elem. by apply H. }
  split; [exact Hacc|]. split.
  - split.
    + intros [Hrem Hrep] raw Hraw.
      destruct (Hacc raw Hraw) as [H|[H|[t H]]]; [done| |].
      * rewrite Hrem in H. by apply elem_of_nil in H.
      * rewrite Hrep in H. by apply elem_of_nil in H.
    + intros H. by rewrite (Hall H).
  - intros H. by rewrite (Hall H).
Qed.

End GuardMore.

(** ** Further properties of the chunker *)

Module ChunkerMore.
Import Js Shape Notions Chunker NormFacts GuardFacts GuardMore ChunkerFacts.

Lemma trim_head c s :
  is_space c = false -> exists u, trim (c :: s) = c :: u.
Proof.
  intros Hc. unfold trim. simpl drop_space. rewrite Hc. simpl rev.
  destruct (drop_space_snoc (rev s) c Hc) as [v ->].
  rewrite rev_app_distr. simpl. eauto.
Qed.

Lemma split_loop_returns fuel chunks rest maxChars :
  (0 < maxChars)%Z -> starts_space rest = false ->
  (length rest < fuel)%nat ->
  is_Some (split_loop cut_index fuel chunks rest maxChars).
Proof.
  intros Hm Hs Hf.
  destruct (split_loop_bounded fuel [] rest maxChars Hm Hs Hf) as (out & H & _);
    [done|].
  clear H out. revert chunks rest Hs Hf.
  induction fuel as [|fuel IH]; intros chunks rest Hs Hf; [lia|].
  cbn [split_loop]. destruct (Z.ltb_spec maxChars (Z.of_nat (length rest))).
  - pose proof (cut_index_range rest maxChars Hm Hs) as Hr.
    apply IH; [apply starts_space_trim|].
    pose proof (trim_length (slice_from rest (cut_index rest maxChars))).
    unfold slice_from in *. rewrite length_drop in *. lia.
  - done.
Qed.

Lemma split_loop_trimmed fuel chunks rest maxChars out :
  (0 < maxChars)%Z -> starts_space rest = false -> ends_clean rest = true ->
  Forall (fun c => c <> [] /\ starts_space c = false /\ ends_clean c = true)
         chunks ->
  split_loop cut_index fuel chunks rest maxChars = Some out ->
  Forall (fun c => c <> [] /\ starts_space c = false /\ ends_clean c = true)
         out.
Proof.
  intros Hm. revert chunks rest.
  induction fuel as [|fuel IH]; intros chunks rest Hs He Hc H; [done|].
  cbn [split_loop] in H.
  destruct (Z.ltb_spec maxChars (Z.of_nat (length rest))) as [Hlong|Hshort].
  - pose proof (cut_index_range rest maxChars Hm Hs) as Hr.
    apply IH in H; [done|apply starts_space_trim|apply ends_clean_trim|].
    apply Forall_app. split; [done|]. constructor; [|done].
    split; [|split; [apply starts_space_trim|apply ends_clean_trim]].
    destruct rest as [|c rest]; [simpl in Hlong; lia|].
    unfold slice_to.
    destruct (Z.to_nat (cut_index (c :: rest) maxChars)) as [|n] eqn:Hn; [lia|].
    simpl take. simpl in Hs.
    destruct (trim_head c (take n rest) Hs) as [u ->]. done.
  - injection H as <-. destruct rest as [|c rest]; [done|].
    apply Forall_app. split; [done|]. by constructor.
Qed.

Lemma split_loop_extends (cut : list N -> Z -> Z) fuel chunks rest maxChars
    out :
  split_loop cut fuel chunks rest maxChars = Some out ->
  exists more, out = chunks ++ more /\ (more = [] -> rest = []).
Proof.
  revert chunks rest. induction fuel as [|fuel IH]; intros chunks rest H;
    [done|].
  cbn [split_loop] in H.
  destruct (maxChars <? Z.of_nat (length rest))%Z.
  - apply IH in H as (more & -> & _). rewrite <- app_assoc.
    eexists. split; [done|]. done.
  - injection H as <-. destruct rest as [|c rest].
    + exists []. by rewrite app_nil_r.
    + by exists [c :: rest].
Qed.

(** X7.  For a positive [maxChars], [splitText] returns chunks none of
    which is empty or starts or ends with white space; it returns no chunk
    exactly when the text is empty or all white space. *)
Theorem splitText_chunks_trimmed (text : list N) (maxChars : Z) :
  (0 < maxChars)%Z ->
  exists chunks,
    splitText text maxChars = Some chunks /\
    Forall (fun c => c <> [] /\ starts_space c = false /\ ends_clean c = true)
           chunks /\
    (chunks = [] <-> trim text = []).
Proof.
  intros Hm. unfold splitText.
  destruct (split_loop_returns (S (length text)) [] (trim text) maxChars)
    as [chunks H]; [done|apply starts_space_trim| |].
  { pose proof (trim_length text). lia. }
  exists chunks. split; [done|]. split.
  - eapply split_loop_trimmed; [done|apply starts_space_trim|
      apply ends_clean_trim| |exact H]. constructor.
  - split.
    + intros ->. apply split_loop_extends in H as (more & H & Hr).
      apply Hr. by destruct more.
    + intros Ht. rewrite Ht in H. cbn [split_loop length] in H.
      destruct (Z.ltb_spec maxChars (Z.of_nat 0)); [lia|]. by injection H as <-.
Qed.

Lemma splitText_chunks_trimmed_witness :
  (0 < 10)%Z /\
  exists chunks,
    splitText (lit "  abcdefgh ijklmnop qrs ") 10 = Some chunks /\
    Forall (fun c => c <> [] /\ starts_space c = false /\ ends_clean c = true)
           chunks /\
    (chunks = [] <-> trim (lit "  abcdefgh ijklmnop qrs ") = []).
Proof.
  split; [lia|]. apply (splitText_chunks_trimmed _ 10). lia.
Defined.

Lemma solid_concat_snoc chunks c :
  solid (concat (chunks ++ [c])) = solid (concat chunks) ++ solid c.
Proof. by rewrite concat_app, solid_app, (concat_cons c []), app_nil_r. Qed.

Lemma split_loop_solid (cut : list N -> Z -> Z) fuel chunks rest maxChars out :
  split_loop cut fuel chunks rest maxChars = Some out ->
  solid (concat out) = solid (concat chunks) ++ solid rest.
Proof.
  revert chunks rest. induction fuel as [|fuel IH]; intros chunks rest H;
    [done|].
  cbn [split_loop] in H.
  destruct (maxChars <? Z.of_nat (length rest))%Z.
  - apply IH in H. rewrite H, solid_concat_snoc, !solid_trim, <- app_assoc.
    unfold slice_to, slice_from. by rewrite <- solid_app, take_drop.
  - injection H as <-. destruct rest as [|c rest].
    + by rewrite app_nil_r.
    + apply solid_concat_snoc.
Qed.

(** X8.  For a positive [maxChars], [splitText] loses and adds nothing but
    white space: the units of the chunks that are not white space, read in
    order, are those of the text. *)
Theorem splitText_keeps_solid (text : list N) (maxChars : Z) :
  (0 < maxChars)%Z ->
  exists chunks,
    splitText text maxChars = Some chunks /\
    solid (concat chunks) = solid text.
Proof.
  intros Hm. unfold splitText.
  destruct (split_loop_returns (S (length text)) [] (trim text) maxChars)
    as [chunks H]; [done|apply starts_space_trim| |].
  { pose proof (trim_length text). lia. }
  exists chunks. split; [done|].
  apply split_loop_solid in H. rewrite H. apply solid_trim.
Qed.

Lemma splitText_keeps_solid_witness :
  (0 < 10)%Z /\
  exists chunks,
    splitText (lit "  abcdefgh ijklmnop qrs ") 10 = Some chunks /\
    solid (concat chunks) = solid (lit "  abcdefgh ijklmnop qrs ").
Proof.
  split; [lia|]. apply (splitText_keeps_solid _ 10). lia.
Defined.

Lemma cut_index_zero rest :
  starts_space rest = false -> cut_index rest 0 = 0%Z.
Proof.
  intros Hs. rewrite cut_index_eq. change (floor_06 0) with 0%Z.
  destruct (lastIndexOf_space_spec rest 0) as [[-> _]|(Hr & Hat & _)]; [done|].
  assert (H0 : lastIndexOf_space rest 0 = 0%Z) by lia.
  rewrite H0 in Hat. destruct rest as [|c rest]; [done|].
  injection Hat as ->. done.
Qed.

(** X9.  With [maxChars = 0] the loop of [splitText] never ends on a text
    that holds a unit other than white space: every turn cuts at index 0,
    pushes an empty chunk and leaves [rest] as it was, so no number of
    turns produces a result. *)
Theorem splitText_zero_never_returns (text : list N) :
  trim text <> [] ->
  (forall fuel chunks,
     split_loop cut_index fuel chunks (trim text) 0 = None) /\
  cut_index (trim text) 0 = 0%Z /\
  trim (slice_to (trim text) 0) = [] /\
  trim (slice_from (trim text) 0) = trim text.
Proof.
  intros Hne.
  assert (Hcut : cut_index (trim text) 0 = 0%Z).
  { apply cut_index_zero, starts_space_trim. }
  assert (Hrest : trim (slice_from (trim text) 0) = trim text).
  { unfold slice_from. simpl drop.
    apply trim_clean; [apply starts_space_trim|apply ends_clean_trim]. }
  split; [|done].
  induction fuel as [|fuel IH]; intros chunks; [done|].
  cbn [split_loop].
  destruct (Z.ltb_spec 0 (Z.of_nat (length (trim text)))) as [_|Hl].
  - rewrite Hcut, Hrest. apply IH.
  - destruct (trim text); [done|simpl in Hl; lia].
Qed.

Lemma splitText_zero_never_returns_witness :
  trim (lit " a b ") <> [] /\
  splitText (lit " a b ") 0 = None.
Proof.
  assert (H : trim (lit " a b ") <> []) by (vm_compute; discriminate).
  split; [exact H|].
  apply (proj1 (splitText_zero_never_returns (lit " a b ") H)).
Defined.

End ChunkerMore.

(** ** Further properties of the ingestion run *)

Module StoreMore.
Import Js Store Notions StoreFacts.

Section Facts.
Context {E : Type}.
Implicit Types d : db E.

Lemma embedded_rows_spec tag rows (embeddings : list E) cs :
  embedded_rows tag rows embeddings = Some cs ->
  map row_of cs = rows /\ Forall (fun c => version_tag c = tag) cs.
Proof.
  revert embeddings cs.
  induction rows as [|r rows IH]; intros embeddings cs H; simpl in H.
  - by injection H as <-.
  - destruct embeddings as [|e embeddings]; [done|].
    destruct (embedded_rows tag rows embeddings) as [cs'|] eqn:Hr; [|done].
    injection H as <-. destruct (IH _ _ Hr) as [Hm Hf]. split.
    + simpl. rewrite Hm. by destruct r.
    + by constructor.
Qed.

Lemma embedded_batches_spec embedBatch tag batch_pred fuel rows
    (cs : list (chunk E)) :
  embedded_batches embedBatch tag batch_pred fuel rows = Some cs ->
  (length rows <= fuel)%nat ->
  map row_of cs = rows /\ Forall (fun c => version_tag c = tag) cs.
Proof.
  revert rows cs. induction fuel as [|fuel IH]; intros rows cs H Hl.
  - destruct rows; [|simpl in Hl; lia]. by injection H as <-.
  - cbn [embedded_batches] in H.
    destruct rows as [|r rows]; [by injection H as <-|].
    destruct (embedBatch _) as [embeddings|]; [|done].
    destruct (embedded_rows _ _ _) as [cs1|] eqn:H1; [|done].
    destruct (embedded_batches _ _ _ _ _) as [cs2|] eqn:H2; [|done].
    injection H as <-.
    apply embedded_rows_spec in H1 as [Hm1 Hf1].
    apply IH in H2 as [Hm2 Hf2].
    + split; [|by apply Forall_app].
      by rewrite map_app, Hm1, Hm2, take_drop.
    + rewrite length_drop. simpl in *. lia.
Qed.

Lemma embedded_files_spec embedBatch tag batch_pred xmlFiles
    (cs : list (chunk E)) :
  embedded_files embedBatch tag batch_pred xmlFiles = Some cs ->
  map row_of cs = concat xmlFiles /\
  Forall (fun c => version_tag c = tag) cs.
Proof.
  revert cs. induction xmlFiles as [|rows files IH]; intros cs H; simpl in H.
  - by injection H as <-.
  - destruct (embedded_batches _ _ _ _ _) as [cs1|] eqn:H1; [|done].
    destruct (embedded_files _ _ _ _) as [cs2|] eqn:H2; [|done].
    injection H as <-.
    apply embedded_batches_spec in H1 as [Hm1 Hf1]; [|done].
    destruct (IH _ eq_refl) as [Hm2 Hf2].
    split; [|by apply Forall_app]. simpl. by rewrite map_app, Hm1, Hm2.
Qed.

Section Run.
Variable embedBatch : list (list N) -> option (list E).
Variable fails : nat -> bool.
Variable tag : list N.
Variable url : list N.
Variable mode : ingest_mode.
Variable batch_pred : nat.
Variable now : Z.

Lemma insertRows_chunks rows (embeddings : list E) (s : db E * nat) r :
  insertRows fails tag rows embeddings s = Some r ->
  exists cs, embedded_rows tag rows embeddings = Some cs /\
             law_chunks (fst (snd r)) = law_chunks (fst s) ++ cs.
Proof.
  revert embeddings s. induction rows as [|row rows IH]; intros embeddings s H.
  - injection H as <-. exists []. by rewrite app_nil_r.
  - simpl in H. destruct embeddings as [|e embeddings]; [done|].
    apply bind_Some in H as (u & s1 & Hq & H).
    apply query_Some in Hq. injection Hq as _ ->.
    apply IH in H as (cs & Hcs & ->). simpl. rewrite Hcs.
    eexists. split; [done|]. by rewrite <- app_assoc.
Qed.

Lemma ingestBatches_chunks fuel rows (s : db E * nat) r :
  ingestBatches embedBatch fails tag batch_pred fuel rows s = Some r ->
  exists cs, embedded_batches embedBatch tag batch_pred fuel rows = Some cs /\
             law_chunks (fst (snd r)) = law_chunks (fst s) ++ cs.
Proof.
  revert rows s. induction fuel as [|fuel IH]; intros rows s H.
  - injection H as <-. exists []. by rewrite app_nil_r.
  - cbn [ingestBatches embedded_batches] in *.
    destruct rows as [|row rows].
    { injection H as <-. exists []. by rewrite app_nil_r. }
    apply bind_Some in H as (embeddings & s1 & Hl & H).
    unfold lift in Hl. destruct (embedBatch _); [|done]. injection Hl as <- <-.
    apply bind_Some in H as (u & s2 & Hi & H).
    apply insertRows_chunks in Hi as (cs1 & -> & Hc1). simpl in Hc1.
    apply IH in H as (cs2 & -> & ->). rewrite Hc1.
    eexists. split; [done|]. by rewrite <- app_assoc.
Qed.

Lemma ingestFiles_chunks xmlFiles (s : db E * nat) r :
  ingestFiles embedBatch fails tag batch_pred xmlFiles s = Some r ->
  exists cs, embedded_files embedBatch tag batch_pred xmlFiles = Some cs /\
             law_chunks (fst (snd r)) = law_chunks (fst s) ++ cs.
Proof.
  revert s. induction xmlFiles as [|rows files IH]; intros s H.
  - injection H as <-. exists []. by rewrite app_nil_r.
  - simpl in H. apply bind_Some in H as (u & s1 & Hb & H).
    apply ingestBatches_chunks in Hb as (cs1 & Hcs1 & Hc1). simpl in Hc1.
    apply IH in H as (cs2 & Hcs2 & ->). simpl. rewrite Hcs1, Hcs2, Hc1.
    eexists. split; [done|]. by rewrite <- app_assoc.
Qed.

(** The database that a committed run publishes. *)
Lemma transaction_result xmlFiles (d : db E) r :
  transaction embedBatch fails tag url mode batch_pred now xmlFiles (d, O)
    = Some r ->
  exists new,
    embedded_files embedBatch tag batch_pred xmlFiles = Some new /\
    fst (snd r) =
    commitVersion tag now
      (Db (<[tag := Version (match url with [] => None | _ => Some url end)
                            now loading]> (law_dataset_versions d))
          (kept_chunks mode tag d ++ new) (law_dataset_meta d)).
Proof.
  unfold transaction. intros H.
  apply bind_Some in H as (u0 & s0 & Hq0 & H). apply query_Some in Hq0.
  injection Hq0 as _ ->.
  apply bind_Some in H as (u1 & s1 & Hq1 & H). apply query_Some in Hq1.
  injection Hq1 as _ ->.
  apply bind_Some in H as (u2 & s2 & Hq2 & H).
  assert (Hd2 : fst s2 =
    Db (<[tag := Version (match url with [] => None | _ => Some url end)
                         now loading]> (law_dataset_versions d))
       (kept_chunks mode tag d) (law_dataset_meta d)).
  { destruct mode.
    - apply query_Some in Hq2. by injection Hq2 as _ ->.
    - by injection Hq2 as _ <-. }
  apply bind_Some in H as (u3 & s3 & Hi & H).
  pose proof (ingestFiles_tables _ _ _ _ _ _ _ Hi) as [Hv3 Hm3].
  apply ingestFiles_chunks in Hi as (new & Hnew & Hc3).
  simpl in Hv3, Hm3, Hc3. rewrite Hd2 in Hv3, Hm3, Hc3. simpl in Hv3, Hm3, Hc3.
  apply bind_Some in H as (u4 & s4 & Hq4 & H). apply query_Some in Hq4.
  injection Hq4 as _ ->.
  apply bind_Some in H as (u5 & s5 & Hq5 & H). apply query_Some in Hq5.
  injection Hq5 as _ ->.
  apply bind_Some in H as (u6 & s6 & Hq6 & H). apply query_Some in Hq6.
  injection Hq6 as _ ->.
  apply query_Some in H. subst r. simpl.
  exists new. split; [done|].
  destruct s3 as [[v3 c3 m3] k3]. simpl in *. by subst.
Qed.

Lemma main_done mark_throws now' xmlFiles (d d' : db E) :
  main embedBatch fails tag url mode batch_pred now mark_throws now'
       xmlFiles d = (Done, d') ->
  exists new,
    embedded_files embedBatch tag batch_pred xmlFiles = Some new /\
    d' =
    commitVersion tag now
      (Db (<[tag := Version (match url with [] => None | _ => Some url end)
                            now loading]> (law_dataset_versions d))
          (kept_chunks mode tag d ++ new) (law_dataset_meta d)).
Proof.
  unfold main. destruct xmlFiles as [|rows files]; [done|].
  destruct (transaction _ _ _ _ _ _ _ _ _) as [[u [d1 k]]|] eqn:Ht; [|done].
  intros [= <-]. apply transaction_result in Ht as (new & Hnew & Hd).
  by exists new.
Qed.

End Run.
End Facts.

Section Succeeds.
Context {E : Type}.
Variable embedBatch : list (list N) -> option (list E).
Variable fails : nat -> bool.
Variable tag : list N.
Variable batch_pred : nat.
Hypothesis store_up : forall k, fails k = false.

Lemma query_ok (f : db E -> db E) (s : db E * nat) :
  query fails f s = Some (tt, (f (fst s), S (snd s))).
Proof. unfold query. by rewrite store_up. Qed.

Lemma insertRows_ok rows (embeddings : list E) (s : db E * nat) :
  is_Some (embedded_rows tag rows embeddings) ->
  exists s', insertRows fails tag rows embeddings s = Some (tt, s').
Proof.
  revert embeddings s. induction rows as [|r rows IH]; intros embeddings s H.
  - by exists s.
  - simpl in *. destruct embeddings as [|e embeddings]; [by destruct H|].
    destruct (embedded_rows tag rows embeddings) as [cs|] eqn:Hr;
      [|by destruct H].
    unfold bind. rewrite query_ok. apply IH. by rewrite Hr.
Qed.

Lemma ingestBatches_ok fuel rows (s : db E * nat) :
  is_Some (embedded_batches embedBatch tag batch_pred fuel rows) ->
  exists s', ingestBatches embedBatch fails tag batch_pred fuel rows s
             = Some (tt, s').
Proof.
  revert rows s. induction fuel as [|fuel IH]; intros rows s H.
  - by exists s.
  - cbn [ingestBatches embedded_batches] in *.
    destruct rows as [|r rows]; [by exists s|].
    destruct (embedBatch _) as [embeddings|]; [|by destruct H].
    destruct (embedded_rows _ _ _) as [cs1|] eqn:H1; [|by destruct H].
    destruct (embedded_batches _ _ _ _ _) as [cs2|] eqn:H2; [|by destruct H].
    destruct (insertRows_ok _ embeddings s (mk_is_Some _ _ H1)) as [s1 Hs1].
    unfold bind, lift, ret. rewrite Hs1. apply IH. by rewrite H2.
Qed.

Lemma ingestFiles_ok xmlFiles (s : db E * nat) :
  is_Some (embedded_files embedBatch tag batch_pred xmlFiles) ->
  exists s', ingestFiles embedBatch fails tag batch_pred xmlFiles s
             = Some (tt, s').
Proof.
  revert s. induction xmlFiles as [|rows files IH]; intros s H.
  - by exists s.
  - simpl in *.
    destruct (embedded_batches _ _ _ _ _) as [cs1|] eqn:H1; [|by destruct H].
    destruct (embedded_files _ _ _ _) as [cs2|] eqn:H2; [|by destruct H].
    destruct (ingestBatches_ok _ rows s (mk_is_Some _ _ H1)) as [s1 Hs1].
    unfold bind. rewrite Hs1. apply IH. by eexists.
Qed.

Lemma bind_query {A} (f : db E -> db E) (k : unit -> @tx E A)
    (s : db E * nat) :
  bind (query fails f) k s = k tt (f (fst s), S (snd s)).
Proof. unfold bind. by rewrite query_ok. Qed.

Lemma transaction_ok url mode now xmlFiles (d : db E) :
  is_Some (embedded_files embedBatch tag batch_pred xmlFiles) ->
  is_Some (transaction embedBatch fails tag url mode batch_pred now
             xmlFiles (d, O)).
Proof.
  intros H. unfold transaction. rewrite !bind_query.
  destruct mode.
  - rewrite bind_query.
    match goal with
    | |- is_Some (bind (ingestFiles _ _ _ _ _) _ ?st) =>
        destruct (ingestFiles_ok xmlFiles st H) as [s' Hs']
    end.
    unfold bind at 1. rewrite Hs', !bind_query, query_ok. by eexists.
  - unfold bind at 1, ret.
    match goal with
    | |- is_Some (bind (ingestFiles _ _ _ _ _) _ ?st) =>
        destruct (ingestFiles_ok xmlFiles st H) as [s' Hs']
    end.
    unfold bind at 1. rewrite Hs', !bind_query, query_ok. by eexists.
Qed.

End Succeeds.

Lemma embedded_rows_Some {E} tag rows (embeddings : list E) :
  is_Some (embedded_rows tag rows embeddings) <->
  (length rows <= length embeddings)%nat.
Proof.
  revert embeddings. induction rows as [|r rows IH]; intros embeddings; simpl.
  - split; [lia|by eexists].
  - destruct embeddings as [|e embeddings]; simpl.
    + split; [by intros [? [=]]|lia].
    + rewrite <- Nat.succ_le_mono, <- IH.
      destruct (embedded_rows tag rows embeddings) as [cs|].
      * split; intros _; [exists cs|eexists]; reflexivity.
      * split; intros [? [=]].
Qed.

(** X10.  When no statement of the store throws, a run of [main] over at
    least one file commits exactly when the provider answers every batch,
    and with at least as many vectors as the batch has rows (vectors
    beyond that are ignored); otherwise the run fails. *)
Theorem run_commits_iff {E} embedBatch fails T url mode batch_pred now
    mark_throws now' xmlFiles (d : db E) :
  xmlFiles <> [] ->
  (forall k, fails k = false) ->
  fst (main embedBatch fails T url mode batch_pred now mark_throws now'
            xmlFiles d)
  = match embedded_files embedBatch T batch_pred xmlFiles with
    | Some _ => Done
    | None => INGEST_FAILED
    end /\
  forall rows (embeddings : list E),
    is_Some (embedded_rows T rows embeddings) <->
    (length rows <= length embeddings)%nat.
Proof.
  intros Hne Hup. split; [|apply embedded_rows_Some].
  unfold main. destruct xmlFiles as [|rows files]; [done|].
  destruct (transaction _ _ _ _ _ _ _ _ _) as [[u [d1 k]]|] eqn:Ht.
  - apply transaction_result in Ht as (new & -> & _). done.
  - destruct (embedded_files embedBatch T batch_pred (rows :: files))
      as [new|] eqn:Hnew; [|done].
    destruct (transaction_ok embedBatch fails T batch_pred Hup url mode now
                (rows :: files) d) as [r Hr]; [by rewrite Hnew|].
    congruence.
Qed.

Lemma run_commits_iff_witness :
  [Examples.rows_bgb] <> [] /\
  (forall k, Examples.store_ok k = false) /\
  fst (Examples.run_march Examples.embed_ok [Examples.rows_bgb]) = Done /\
  fst (Examples.run_march Examples.embed_down [Examples.rows_bgb])
  = INGEST_FAILED.
Proof.
  assert (Hne : [Examples.rows_bgb] <> []) by discriminate.
  assert (Hup : forall k, Examples.store_ok k = false) by reflexivity.
  split; [exact Hne|]. split; [exact Hup|]. split.
  - exact (proj1 (run_commits_iff Examples.embed_ok Examples.store_ok
                    (lit "2026-03-01") [] replace 31 5 false 6
                    [Examples.rows_bgb] Examples.db_february Hne Hup)).
  - exact (proj1 (run_commits_iff Examples.embed_down Examples.store_ok
                    (lit "2026-03-01") [] replace 31 5 false 6
                    [Examples.rows_bgb] Examples.db_february Hne Hup)).
Defined.

(** X11.  A run of [main] that ends with its commit has stored, after the
    chunks it started from (all chunks in [append] mode, the chunks of the
    other tags in [replace] mode), exactly the rows of the files, in their
    order, each under the tag of the run and with the vector the provider
    returned for it. *)
Theorem committed_run_chunks {E} embedBatch fails T url mode batch_pred now
    mark_throws now' xmlFiles (d d' : db E) :
  main embedBatch fails T url mode batch_pred now mark_throws now'
       xmlFiles d = (Done, d') ->
  exists new,
    embedded_files embedBatch T batch_pred xmlFiles = Some new /\
    map row_of new = concat xmlFiles /\
    Forall (fun c => version_tag c = T) new /\
    law_chunks d' = kept_chunks mode T d ++ new.
Proof.
  intros H. apply main_done in H as (new & Hnew & ->).
  exists new. split; [done|].
  by destruct (embedded_files_spec _ _ _ _ _ Hnew).
Qed.

Lemma committed_run_chunks_witness :
  let r := Examples.run_march Examples.embed_ok [Examples.rows_bgb] in
  r = (Done, snd r) /\
  exists new,
    embedded_files Examples.embed_ok (lit "2026-03-01") 31
                   [Examples.rows_bgb] = Some new /\
    map row_of new = concat [Examples.rows_bgb] /\
    Forall (fun c => version_tag c = lit "2026-03-01") new /\
    law_chunks (snd r)
    = kept_chunks replace (lit "2026-03-01") Examples.db_february ++ new.
Proof.
  intros r.
  assert (Hr : r = (Done, snd r)) by (vm_compute; reflexivity).
  split; [exact Hr|].
  exact (committed_run_chunks _ _ _ _ _ _ _ _ _ _ _ _ Hr).
Defined.

(** X12.  A run of [main] that ends with its commit leaves the version
    table and the pointer as follows: the row of its tag holds the source
    URL and the time of the run and is active; every other row is as
    before, except that an active one is archived; no row is added or
    removed besides; the pointer names the tag, and the other entries of
    the meta table are as before. *)
Theorem committed_run_versions {E} embedBatch fails T url mode batch_pred now
    mark_throws now' xmlFiles (d d' : db E) :
  main embedBatch fails T url mode batch_pred now mark_throws now'
       xmlFiles d = (Done, d') ->
  law_dataset_versions d' !! T
  = Some (Version (match url with [] => None | _ => Some url end) now active) /\
  (forall t, t <> T ->
     law_dataset_versions d' !! t
     = archive_if_active <$> law_dataset_versions d !! t) /\
  law_dataset_meta d'
  = <[active_version_tag := Meta T now]> (law_dataset_meta d).
Proof.
  intros H. apply main_done in H as (new & _ & ->). simpl.
  split; [|split; [|done]].
  - rewrite lookup_alter_eq, map_lookup_imap, lookup_insert_eq. simpl.
    done.
  - intros t Ht.
    rewrite lookup_alter_ne, map_lookup_imap, lookup_insert_ne by done.
    destruct (law_dataset_versions d !! t) as [v|]; [|done]. simpl.
    unfold archive_if_active. f_equal.
    destruct (decide (v_status v = active)) as [Ha|Ha].
    + by rewrite decide_True.
    + rewrite decide_False; [done|]. by intros [? _].
Qed.

Lemma committed_run_versions_witness :
  let r := Examples.run_march Examples.embed_ok [Examples.rows_bgb] in
  r = (Done, snd r) /\
  law_dataset_versions (snd r) !! lit "2026-03-01"
  = Some (Version None 5 active) /\
  law_dataset_versions (snd r) !! lit "2026-02-01"
  = Some (Version None 1 archived).
Proof.
  intros r.
  assert (Hr : r = (Done, snd r)) by (vm_compute; reflexivity).
  split; [exact Hr|].
  destruct (committed_run_versions _ _ _ _ _ _ _ _ _ _ _ _ Hr)
    as (HT & Hother & _).
  split; [exact HT|].
  rewrite Hother by (vm_compute; discriminate). vm_compute. reflexivity.
Defined.

Lemma filter_own_tag {E} T (new : list (chunk E)) :
  Forall (fun c => version_tag c = T) new ->
  List.filter (fun c => negb (str_eqb (version_tag c) T)) new = [].
Proof.
  induction 1 as [|c new Hc _ IH]; [done|]. simpl.
  by rewrite (proj2 (GuardFacts.str_eqb_eq _ _) Hc).
Qed.

Lemma filter_twice {A} (f : A -> bool) l :
  List.filter f (List.filter f l) = List.filter f l.
Proof.
  induction l as [|a l IH]; [done|]. simpl.
  destruct (f a) eqn:Ha; [|done]. simpl. by rewrite Ha, IH.
Qed.

Lemma filter_tag_kept {E} T t (l : list (chunk E)) :
  t <> T ->
  List.filter (fun c => str_eqb (version_tag c) t)
    (List.filter (fun c => negb (str_eqb (version_tag c) T)) l)
  = List.filter (fun c => str_eqb (version_tag c) t) l.
Proof.
  intros Hne. induction l as [|c l IH]; [done|]. simpl.
  destruct (str_eqb (version_tag c) T) eqn:HT; simpl.
  - apply GuardFacts.str_eqb_eq in HT.
    destruct (str_eqb (version_tag c) t) eqn:Ht; [|done].
    apply GuardFacts.str_eqb_eq in Ht. congruence.
  - by rewrite IH.
Qed.

Lemma filter_tag_new {E} T t (new : list (chunk E)) :
  Forall (fun c => version_tag c = T) new ->
  List.filter (fun c => str_eqb (version_tag c) t) new
  = if decide (t = T) then new else [].
Proof.
  induction 1 as [|c new Hc _ IH]; [by destruct (decide _)|]. simpl.
  rewrite IH. destruct (decide (t = T)) as [->|Hne].
  - by rewrite (proj2 (GuardFacts.str_eqb_eq _ _) Hc).
  - destruct (str_eqb (version_tag c) t) eqn:Ht; [|done].
    apply GuardFacts.str_eqb_eq in Ht. congruence.
Qed.

(** X13.  Running [main] again for the same tag over the same files, after
    a committed run in [replace] mode, deletes the rows of the tag and
    inserts the rows of the files anew, with the vectors the embedding
    provider answers in that run (and, in the database, with new keys and
    timestamps).  By content (law, section, title, text, source) the
    version holds the rows of the files, in their order, after the first
    run and again after a second run in [replace] mode, and holds them
    twice after a second run in [append] mode; the chunks of every other
    version are those of before. *)
Theorem rerun_chunks {E} embedBatch1 embedBatch2 T batch_pred1 batch_pred2
    xmlFiles fails1 url1 now1 mark1 now1' fails2 url2 mode2 now2 mark2 now2'
    (d d1 d2 : db E) :
  main embedBatch1 fails1 T url1 replace batch_pred1 now1 mark1 now1'
       xmlFiles d = (Done, d1) ->
  main embedBatch2 fails2 T url2 mode2 batch_pred2 now2 mark2 now2'
       xmlFiles d1 = (Done, d2) ->
  map row_of (chunks_of d1 T) = concat xmlFiles /\
  map row_of (chunks_of d2 T) =
    match mode2 with
    | replace => concat xmlFiles
    | append => concat xmlFiles ++ concat xmlFiles
    end /\
  (forall t, t <> T ->
     chunks_of d2 t = chunks_of d1 t /\ chunks_of d1 t = chunks_of d t) /\
  exists new2,
    embedded_files embedBatch2 T batch_pred2 xmlFiles = Some new2 /\
    law_chunks d2 = kept_chunks mode2 T d1 ++ new2.
Proof.
  intros H1 H2.
  apply main_done in H1 as (new1 & Hnew1 & ->).
  apply main_done in H2 as (new2 & Hnew2 & ->).
  destruct (embedded_files_spec _ _ _ _ _ Hnew1) as [Hrows1 Htag1].
  destruct (embedded_files_spec _ _ _ _ _ Hnew2) as [Hrows2 Htag2].
  assert (HT : forall l : list (chunk E),
    List.filter (fun c => str_eqb (version_tag c) T)
      (List.filter (fun c => negb (str_eqb (version_tag c) T)) l) = []).
  { intros l. induction l as [|c l IH]; [done|]. simpl.
    destruct (str_eqb (version_tag c) T) eqn:Hc; simpl; [done|].
    by rewrite Hc. }
  split; [|split; [|split]].
  - unfold chunks_of. simpl.
    rewrite List.filter_app, HT, (filter_tag_new T T new1 Htag1).
    by destruct (decide (T = T)).
  - unfold chunks_of. destruct mode2; simpl.
    + rewrite List.filter_app, HT, (filter_tag_new T T new2 Htag2).
      by destruct (decide (T = T)).
    + rewrite !List.filter_app, HT, (filter_tag_new T T new1 Htag1),
        (filter_tag_new T T new2 Htag2).
      destruct (decide (T = T)); [|done]. simpl.
      by rewrite map_app, Hrows1, Hrows2.
  - intros t Hne. unfold chunks_of. split.
    + destruct mode2; simpl.
      * rewrite List.filter_app, (filter_tag_kept T t _ Hne),
          (filter_tag_new T t new2 Htag2).
        destruct (decide (t = T)); [done|]. by rewrite app_nil_r.
      * rewrite List.filter_app, (filter_tag_new T t new2 Htag2).
        destruct (decide (t = T)); [done|]. by rewrite app_nil_r.
    + simpl. rewrite List.filter_app, (filter_tag_kept T t _ Hne),
        (filter_tag_new T t new1 Htag1).
      destruct (decide (t = T)); [done|]. by rewrite app_nil_r.
  - exists new2. split; [done|]. by destruct mode2.
Qed.

Lemma rerun_chunks_witness :
  let r1 := Examples.run_march Examples.embed_ok [Examples.rows_bgb] in
  let r2 := main Examples.embed_ok Examples.store_ok (lit "2026-03-01") []
                 replace 31 7 false 8 [Examples.rows_bgb] (snd r1) in
  r1 = (Done, snd r1) /\ r2 = (Done, snd r2) /\
  map row_of (chunks_of (snd r2) (lit "2026-03-01")) = Examples.rows_bgb.
Proof.
  intros r1 r2.
  assert (H1 : r1 = (Done, snd r1)) by (vm_compute; reflexivity).
  assert (H2 : r2 = (Done, snd r2)) by (vm_compute; reflexivity).
  split; [exact H1|]. split; [exact H2|].
  destruct (rerun_chunks _ _ _ _ _ _ _ _ _ _ _ _ _ _ _ _ _ _ _ _ H1 H2)
    as (_ & Hc & _).
  rewrite Hc. reflexivity.
Defined.

End StoreMore.

(** ** Further properties of the retrievers *)

Module RetrievalMore.
Import Js Store Retrieval Notions GuardFacts StoreFacts RetrievalFacts.

Section Facts.
Context {E : Type}.
Variable closer : chunk E -> chunk E -> bool.

Lemma insert_ranked_elem c l x :
  x ∈ insert_ranked closer c l <-> x = c \/ x ∈ l.
Proof.
  induction l as [|c' l IH]; simpl.
  - rewrite list_elem_of_singleton, elem_of_nil. tauto.
  - destruct (closer c c'); rewrite !elem_of_cons; [tauto|].
    rewrite IH. tauto.
Qed.

Lemma rank_elem l x : x ∈ rank closer l <-> x ∈ l.
Proof.
  induction l as [|c l IH]; simpl; [done|].
  rewrite insert_ranked_elem, elem_of_cons, IH. tauto.
Qed.

Lemma effective_version_elem (d : db E) c :
  c ∈ law_chunks d ->
  exists t, effective_version d = Some t /\ chunks_of d t <> [].
Proof.
  intros Hc. apply effective_version_chunks. intros Hnil.
  rewrite Hnil in Hc. by apply elem_of_nil in Hc.
Qed.

Lemma retrieve_elem LEGAL_TOP_K (d : db E) queryText e topK lawCodes c :
  c ∈ retrieveLegalSources closer LEGAL_TOP_K (Some d) queryText e topK
        lawCodes ->
  c ∈ law_chunks d /\
  effective_version d = Some (version_tag c) /\
  (List.filter (fun l => negb (str_eqb l [])) lawCodes <> [] ->
   law c ∈ lawCodes /\ law c <> []).
Proof.
  unfold retrieveLegalSources.
  destruct queryText as [|q queryText]; [by intros ?%elem_of_nil|].
  destruct e as [e|]; [|by intros ?%elem_of_nil].
  intros Hc%subseteq_take. apply (proj1 (rank_elem _ _)) in Hc.
  apply list_elem_of_In in Hc.
  apply filter_In in Hc as [Hc%list_elem_of_In Hp].
  apply andb_true_iff in Hp as [Hv Hl].
  split; [done|]. split.
  - destruct (effective_version_elem d c Hc) as (t & Ht & _).
    rewrite Ht in Hv |- *. by apply str_eqb_eq in Hv as ->.
  - intros Hne.
    destruct (List.filter (fun l => negb (str_eqb l [])) lawCodes)
      as [|l0 ls] eqn:Hf; [done|].
    apply existsb_exists in Hl as (l & Hin & Heq).
    rewrite <- Hf in Hin. apply filter_In in Hin as [Hin Hnz].
    apply str_eqb_eq in Heq as ->. split; [by apply list_elem_of_In|].
    intros Hnil. rewrite Hnil in Hnz. done.
Qed.

End Facts.

(** X14.  The server's [retrieveLegalSources] answers with at most [limit]
    stored chunks ([topK] when it is positive, [LEGAL_TOP_K] otherwise),
    all of one version, the effective one; with a law filter that holds a
    non-empty code, the law of every answer is one of the codes. *)
Theorem retrieveLegalSources_one_version {E}
    (closer : chunk E -> chunk E -> bool) LEGAL_TOP_K (d : db E)
    queryText e topK lawCodes :
  (length (retrieveLegalSources closer LEGAL_TOP_K (Some d) queryText e topK
             lawCodes)
   <= match topK with Some (S k) => S k | _ => LEGAL_TOP_K end)%nat /\
  forall c,
    c ∈ retrieveLegalSources closer LEGAL_TOP_K (Some d) queryText e topK
          lawCodes ->
    c ∈ law_chunks d /\
    effective_version d = Some (version_tag c) /\
    (List.filter (fun l => negb (str_eqb l [])) lawCodes <> [] ->
     law c ∈ lawCodes /\ law c <> []).
Proof.
  split; [|apply retrieve_elem].
  unfold retrieveLegalSources.
  destruct queryText as [|q queryText]; [simpl; lia|].
  destruct e as [e|]; [|simpl; lia].
  rewrite length_take. lia.
Qed.

Lemma effective_version_fallback {E} (d : db E) :
  pointer d = None \/ (exists t, pointer d = Some t /\ chunks_of d t = []) ->
  effective_version d = max_version_tag (law_chunks d).
Proof.
  unfold effective_version. intros [->|(t & -> & ->)]; done.
Qed.

(** C9.  The server's [retrieveLegalSources] resolves every query against
    one version: every row it returns is a stored chunk of the effective
    version.  The effective version is the one the pointer names when that
    version holds a chunk; when it holds none, or there is no pointer, and
    a chunk is stored, it is the greatest tag among the stored chunks (the
    tag of a stored chunk that no stored tag comes after).  So whenever a
    chunk is stored the effective version holds a chunk, and a query
    without law filter against a corpus that holds a chunk is not answered
    with the empty list; for instance after the run for March that stored
    no row, where the pointer names March and the answer is the chunk of
    February. *)
Theorem retrieval_falls_back {E}
    (closer : chunk E -> chunk E -> bool) LEGAL_TOP_K (d : db E)
    q queryText e topK lawCodes :
  (forall c,
     c ∈ retrieveLegalSources closer LEGAL_TOP_K (Some d) (q :: queryText)
           (Some e) topK lawCodes ->
     c ∈ law_chunks d /\ effective_version d = Some (version_tag c)) /\
  (forall t, pointer d = Some t -> chunks_of d t <> [] ->
     effective_version d = Some t) /\
  (pointer d = None \/ (exists t, pointer d = Some t /\ chunks_of d t = []) ->
   law_chunks d <> [] ->
   exists t,
     effective_version d = Some t /\
     (exists c, c ∈ law_chunks d /\ version_tag c = t) /\
     forall c, c ∈ law_chunks d -> tag_le (version_tag c) t) /\
  (law_chunks d <> [] ->
   exists t, effective_version d = Some t /\ chunks_of d t <> []) /\
  (law_chunks d <> [] -> (0 < LEGAL_TOP_K)%nat ->
   retrieveLegalSources closer LEGAL_TOP_K (Some d) (q :: queryText)
     (Some e) topK [] <> []) /\
  (pointer Examples.db_stale = Some (lit "2026-03-01") /\
   chunks_of Examples.db_stale (lit "2026-03-01") = [] /\
   law_chunks Examples.db_stale = [Examples.chunk_823] /\
   effective_version Examples.db_stale = Some (lit "2026-02-01") /\
   retrieveLegalSources Examples.any_order 5 (Some Examples.db_stale)
     (lit "Schadensersatz") (Some tt) (Some 6%nat) []
   = [Examples.chunk_823]).
Proof.
  split; [|split; [|split; [|split; [|split]]]].
  - intros c Hc. apply retrieve_elem in Hc as (H1 & H2 & _). by split.
  - apply effective_version_pointer.
  - intros Hp Hne. rewrite (effective_version_fallback d Hp).
    destruct (max_version_tag_elem (law_chunks d) Hne) as (t & c & Ht & _).
    exists t. split; [done|]. by apply max_version_tag_greatest.
  - apply effective_version_chunks.
  - by apply retrieveLegalSources_not_empty.
  - vm_compute. repeat split; reflexivity.
Qed.

Lemma effective_version_ext {E} (d d' : db E) :
  law_chunks d' = law_chunks d -> law_dataset_meta d' = law_dataset_meta d ->
  effective_version d' = effective_version d.
Proof.
  intros Hc Hm. unfold effective_version, pointer, chunks_of.
  by rewrite Hc, Hm.
Qed.

(** X16.  A run of [main] that fails changes nothing the server's
    retriever reads: the chunk table and the pointer are those of before
    the run, and so is the answer to every query. *)
Theorem failed_run_keeps_retrieval {E} embedBatch fails T url mode batch_pred
    now mark_throws now' xmlFiles (d d' : db E) :
  main embedBatch fails T url mode batch_pred now mark_throws now'
       xmlFiles d = (INGEST_FAILED, d') ->
  law_chunks d' = law_chunks d /\
  pointer d' = pointer d /\
  forall closer LEGAL_TOP_K queryText e topK lawCodes,
    retrieveLegalSources closer LEGAL_TOP_K (Some d') queryText e topK
      lawCodes
    = retrieveLegalSources closer LEGAL_TOP_K (Some d) queryText e topK
        lawCodes.
Proof.
  intros H. apply failed_run_frame in H as (Hc & Hm & _).
  split; [done|]. split; [unfold pointer; by rewrite Hm|].
  intros closer K queryText e topK lawCodes. unfold retrieveLegalSources.
  by rewrite (effective_version_ext d d'), Hc.
Qed.

Lemma failed_run_keeps_retrieval_witness :
  let r := Examples.run_march Examples.embed_down [Examples.rows_bgb] in
  r = (INGEST_FAILED, snd r) /\
  law_chunks (snd r) = law_chunks Examples.db_february /\
  pointer (snd r) = pointer Examples.db_february.
Proof.
  intros r.
  assert (Hr : r = (INGEST_FAILED, snd r)) by (vm_compute; reflexivity).
  split; [exact Hr|].
  destruct (failed_run_keeps_retrieval _ _ _ _ _ _ _ _ _ _ _ _ Hr)
    as (Hc & Hp & _).
  split; [exact Hc|exact Hp].
Defined.

Lemma fold_newest_elem l (tv : list N * version) :
  fold_left newest l tv ∈ tv :: l.
Proof.
  revert tv. induction l as [|a l IH]; intros tv; simpl; [left|].
  specialize (IH (newest tv a)). unfold newest in *.
  destruct (imported_at (snd tv) <? imported_at (snd a))%Z;
    apply elem_of_cons in IH as [->|IH]; rewrite !elem_of_cons; auto.
Qed.

Lemma fold_newest_ge l (tv : list N * version) :
  (imported_at (snd tv) <= imported_at (snd (fold_left newest l tv)))%Z.
Proof.
  revert tv. induction l as [|a l IH]; intros tv; simpl; [lia|].
  etransitivity; [|apply IH]. unfold newest.
  destruct (Z.ltb_spec (imported_at (snd tv)) (imported_at (snd a))); lia.
Qed.

Lemma fold_newest_max l (tv x : list N * version) :
  x ∈ tv :: l ->
  (imported_at (snd x) <= imported_at (snd (fold_left newest l tv)))%Z.
Proof.
  revert tv. induction l as [|a l IH]; intros tv Hx.
  - apply list_elem_of_singleton in Hx as ->. simpl. lia.
  - simpl. apply elem_of_cons in Hx as [->|Hx]; [apply (fold_newest_ge (a :: l))|].
    apply elem_of_cons in Hx as [->|Hx].
    + etransitivity; [|apply fold_newest_ge]. unfold newest.
      destruct (Z.ltb_spec (imported_at (snd tv)) (imported_at (snd a))); lia.
    + apply IH. by right.
Qed.

Lemma active_rows_elem {E} (d : db E) t v :
  (t, v) ∈ List.filter (fun tv => bool_decide (v_status (snd tv) = active))
             (map_to_list (law_dataset_versions d)) <->
  law_dataset_versions d !! t = Some v /\ v_status v = active.
Proof.
  rewrite list_elem_of_In, filter_In, <- list_elem_of_In,
    elem_of_map_to_list, bool_decide_eq_true. done.
Qed.

(** The row that [getActiveVersionTag] selects when its query does not
    throw. *)
Lemma getActiveVersionTag_cases {E} (d : db E) :
  ((forall t, status_of d t <> Some active) /\
   getActiveVersionTag false d = lit "legacy") \/
  (exists t0 v0,
     law_dataset_versions d !! t0 = Some v0 /\ v_status v0 = active /\
     (forall t v, law_dataset_versions d !! t = Some v ->
        v_status v = active -> (imported_at v <= imported_at v0)%Z) /\
     getActiveVersionTag false d
     = match t0 with [] => lit "legacy" | _ => t0 end).
Proof.
  unfold getActiveVersionTag.
  destruct (List.filter _ _) as [|tv l] eqn:Hf.
  - left. split; [|done]. intros t Ht. unfold status_of in Ht.
    destruct (law_dataset_versions d !! t) as [v|] eqn:Hv; [|done].
    injection Ht as Ht.
    assert (H : (t, v) ∈ @nil (list N * version)).
    { rewrite <- Hf. by apply active_rows_elem. }
    by apply elem_of_nil in H.
  - right. pose proof (fold_newest_elem l tv) as Hin.
    destruct (fold_left newest l tv) as [t0 v0] eqn:Hx.
    exists t0, v0. rewrite <- Hf in Hin.
    apply active_rows_elem in Hin as [Hl Ha].
    split; [done|]. split; [done|]. split; [|by destruct t0].
    intros t v Hv Hav.
    assert (H : (t, v) ∈ tv :: l).
    { rewrite <- Hf. by apply active_rows_elem. }
    apply fold_newest_max in H. by rewrite Hx in H.
Qed.

Lemma getActiveVersionTag_none {E} query_throws (d : db E) :
  (forall t, status_of d t <> Some active) ->
  getActiveVersionTag query_throws d = lit "legacy".
Proof.
  intros Hno. destruct query_throws; [done|].
  destruct (getActiveVersionTag_cases d)
    as [[_ ->]|(t0 & v0 & Hl & Ha & _ & _)]; [done|].
  destruct (Hno t0). unfold status_of. by rewrite Hl, <- Ha.
Qed.

(** X17.  [getActiveVersionTag] answers ["legacy"] when its query throws.
    When the query does not throw, it answers ["legacy"] or the tag of a
    version whose status is active, and among the active versions one that
    was imported last; it answers ["legacy"] when no version is active;
    when at most one version is active and the active one has a non-empty
    tag, it answers that tag. *)
Theorem getActiveVersionTag_spec {E} (d : db E) :
  getActiveVersionTag true d = lit "legacy" /\
  (getActiveVersionTag false d = lit "legacy" \/
   exists v0,
     law_dataset_versions d !! getActiveVersionTag false d = Some v0 /\
     v_status v0 = active /\
     forall t v, law_dataset_versions d !! t = Some v ->
       v_status v = active -> (imported_at v <= imported_at v0)%Z) /\
  ((forall t, status_of d t <> Some active) ->
   forall query_throws, getActiveVersionTag query_throws d = lit "legacy") /\
  (forall T, at_most_one_active d -> status_of d T = Some active ->
     T <> [] -> getActiveVersionTag false d = T).
Proof.
  split; [done|].
  split; [|split; [intros Hno qt; by apply getActiveVersionTag_none|]].
  - destruct (getActiveVersionTag_cases d)
      as [[Hno ->]|(t0 & v0 & Hl & Ha & Hmax & ->)]; [by left|].
    destruct t0 as [|c t0]; [by left|]. right. by exists v0.
  - intros T Hone HT Hne.
    destruct (getActiveVersionTag_cases d)
      as [[Hno _]|(t0 & v0 & Hl & Ha & Hmax & ->)]; [by destruct (Hno T)|].
    assert (H0 : status_of d t0 = Some active).
    { unfold status_of. by rewrite Hl, <- Ha. }
    rewrite (Hone _ _ H0 HT). by destruct T.
Qed.

Lemma filter_other_tag {E} T (cs : list (chunk E)) :
  List.filter (fun c => str_eqb (version_tag c) T)
    (List.filter (fun c => negb (str_eqb (version_tag c) T)) cs) = [].
Proof.
  induction cs as [|c cs IH]; [done|]. simpl.
  destruct (str_eqb (version_tag c) T) eqn:Hc; simpl; [done|].
  by rewrite Hc.
Qed.

Lemma filter_same_tag {E} T (new : list (chunk E)) :
  Forall (fun c => version_tag c = T) new ->
  List.filter (fun c => str_eqb (version_tag c) T) new = new.
Proof.
  induction 1 as [|c new Hc _ IH]; [done|]. simpl.
  by rewrite (proj2 (str_eqb_eq _ _) Hc), IH.
Qed.

(** X18.  After a run of [main] in [replace] mode for a non-empty tag that
    ends with its commit, both retrievers read the version of that run:
    its chunks are exactly the rows of the run; [getActiveVersionTag],
    when its query does not throw, answers its tag; every row that
    [retrieveLaws] then returns is a row of the run, and there are at most
    [topK] of them; and the server's effective version is the tag as soon
    as the run stored a row.  [retrieveLaws] returns rows for a non-blank
    query only when the embedding request answers with a vector of 1536
    numbers and the query for the rows does not throw. *)
Theorem committed_run_is_served {E} embedBatch fails T url batch_pred now
    mark_throws now' xmlFiles (d d' : db E) :
  main embedBatch fails T url replace batch_pred now mark_throws now'
       xmlFiles d = (Done, d') ->
  T <> [] ->
  exists new,
    embedded_files embedBatch T batch_pred xmlFiles = Some new /\
    map row_of new = concat xmlFiles /\
    chunks_of d' T = new /\
    getActiveVersionTag false d' = T /\
    (forall closer store_fails query vec topK rows,
       store_fails O = false ->
       retrieveLaws closer store_fails d' query vec topK = Some rows ->
       (length rows <= topK)%nat /\
       (forall c, c ∈ rows -> c ∈ new) /\
       (trim query <> [] -> vec = Some (Some 1536%nat) /\
                            store_fails 1%nat = false)) /\
    (new <> [] -> effective_version d' = Some T).
Proof.
  intros H HT. apply StoreMore.main_done in H as (new & Hnew & ->).
  destruct (StoreMore.embedded_files_spec _ _ _ _ _ Hnew) as [Hrows Htag].
  exists new. split; [done|]. split; [done|].
  set (d3 := Db _ _ _).
  assert (Hc : chunks_of (commitVersion T now d3) T = new).
  { unfold chunks_of. simpl.
    by rewrite List.filter_app, filter_other_tag, filter_same_tag. }
  assert (Hact : status_of (commitVersion T now d3) T = Some active).
  { apply commitVersion_tag. unfold status_of, d3. simpl.
    rewrite lookup_insert_eq. by eexists. }
  assert (Hg : getActiveVersionTag false (commitVersion T now d3) = T).
  { destruct (getActiveVersionTag_cases (commitVersion T now d3))
      as [[Hno _]|(t0 & v0 & Hl & Ha & _ & ->)]; [by destruct (Hno T)|].
    assert (H0 : status_of (commitVersion T now d3) t0 = Some active).
    { unfold status_of. by rewrite Hl, <- Ha. }
    apply commitVersion_active in H0 as ->. by destruct T. }
  split; [done|]. split; [done|]. split.
  - intros closer store_fails query vec topK rows Hf0. unfold retrieveLaws.
    destruct (trim query) as [|c0 q0].
    { intros [= <-]. split; [simpl; lia|]. split; [|done].
      by intros c ?%elem_of_nil. }
    destruct vec as [[n|]|]; [|done|done].
    destruct (Nat.eqb_spec n 1536) as [->|Hn]; [|done].
    rewrite Hf0, Hg, Hc. destruct (store_fails 1%nat) eqn:Hf1; [done|].
    intros [= <-]. split; [rewrite length_take; lia|]. split; [|done].
    intros c Hin%subseteq_take. by apply (proj1 (rank_elem closer new c)).
  - intros Hne. apply effective_version_pointer.
    + apply pointer_setPointer.
    + by rewrite Hc.
Qed.

Lemma committed_run_is_served_witness :
  let r := Examples.run_march Examples.embed_ok [Examples.rows_bgb] in
  r = (Done, snd r) /\ lit "2026-03-01" <> [] /\
  getActiveVersionTag false (snd r) = lit "2026-03-01" /\
  map row_of (chunks_of (snd r) (lit "2026-03-01")) = Examples.rows_bgb.
Proof.
  intros r.
  assert (Hr : r = (Done, snd r)) by (vm_compute; reflexivity).
  assert (HT : lit "2026-03-01" <> []) by (vm_compute; discriminate).
  split; [exact Hr|]. split; [exact HT|].
  destruct (committed_run_is_served _ _ _ _ _ _ _ _ _ _ _ Hr HT)
    as (new & _ & Hrows & Hc & Hg & _).
  split; [exact Hg|]. rewrite Hc, Hrows. reflexivity.
Defined.

(** X19.  When the run that fails is a new run for the tag of the active
    version, [markVersionFailed] marks that version failed: no version is
    active afterwards and [getActiveVersionTag] answers ["legacy"]
    (whether its query throws or not), while the chunks and the pointer
    are those of before the run. *)
Theorem failed_rerun_deactivates {E} embedBatch fails T url mode batch_pred
    now now' xmlFiles (d d' : db E) :
  main embedBatch fails T url mode batch_pred now false now'
       xmlFiles d = (INGEST_FAILED, d') ->
  at_most_one_active d ->
  status_of d T = Some active ->
  status_of d' T = Some failed /\
  (forall t, status_of d' t <> Some active) /\
  (forall query_throws, getActiveVersionTag query_throws d' = lit "legacy") /\
  law_chunks d' = law_chunks d /\
  pointer d' = pointer d.
Proof.
  intros H Hone HT. apply failed_run_frame in H as (Hc & Hm & Hv & Hs).
  rewrite HT in Hs. simpl in Hs.
  assert (Hno : forall t, status_of d' t <> Some active).
  { intros t Ht. destruct (decide (t = T)) as [->|Hne]; [congruence|].
    unfold status_of in Ht. rewrite (Hv t Hne) in Ht.
    apply Hne. by apply Hone. }
  split; [done|]. split; [done|]. split.
  - intros qt. by apply getActiveVersionTag_none.
  - split; [done|]. unfold pointer. by rewrite Hm.
Qed.

Lemma failed_rerun_deactivates_witness :
  let r := main Examples.embed_down Examples.store_ok (lit "2026-02-01") []
                replace 31 5 false 6 [Examples.rows_bgb]
                Examples.db_february in
  r = (INGEST_FAILED, snd r) /\
  status_of Examples.db_february (lit "2026-02-01") = Some active /\
  status_of (snd r) (lit "2026-02-01") = Some failed /\
  getActiveVersionTag false (snd r) = lit "legacy" /\
  law_chunks (snd r) = [Examples.chunk_823].
Proof.
  intros r.
  assert (Hr : r = (INGEST_FAILED, snd r)) by (vm_compute; reflexivity).
  assert (HT : status_of Examples.db_february (lit "2026-02-01")
               = Some active) by (vm_compute; reflexivity).
  assert (Hone : at_most_one_active Examples.db_february).
  { intros t1 t2 H1 H2. unfold status_of, Examples.db_february in *.
    simpl in *.
    destruct (decide (lit "2026-02-01" = t1)) as [<-|N1];
      [|by rewrite lookup_singleton_ne in H1].
    destruct (decide (lit "2026-02-01" = t2)) as [<-|N2];
      [done|by rewrite lookup_singleton_ne in H2]. }
  split; [exact Hr|]. split; [exact HT|].
  destruct (failed_rerun_deactivates _ _ _ _ _ _ _ _ _ _ _ Hr Hone HT)
    as (Hf & _ & Hg & Hc & _).
  split; [exact Hf|]. split; [exact (Hg false)|exact Hc].
Defined.

Lemma filter_all {A} (l : list A) : List.filter (fun _ => true) l = l.
Proof. induction l as [|a l IH]; simpl; [done|]. by rewrite IH. Qed.

Lemma server_rows {E} (closer : chunk E -> chunk E -> bool) LEGAL_TOP_K
    (d : db E) text embRes rows c :
  Server.retrieveLegalSources closer LEGAL_TOP_K (Some d) text embRes
  = Some rows ->
  c ∈ rows ->
  c ∈ law_chunks d /\ forall t, pointer d = Some t -> version_tag c = t.
Proof.
  unfold Server.retrieveLegalSources. destruct text as [|q text].
  { intros [= <-]. by intros ?%elem_of_nil. }
  destruct embRes as [[e|]|]; [|intros [= <-]; by intros ?%elem_of_nil|done].
  intros [= <-]. intros Hc%subseteq_take.
  apply (proj1 (rank_elem _ _ _)) in Hc.
  apply list_elem_of_In in Hc.
  apply filter_In in Hc as [Hc%list_elem_of_In Hp].
  split; [done|]. intros t Ht. rewrite Ht in Hp. by apply str_eqb_eq in Hp.
Qed.

(** X20.  [retrieveLegalSources] of [server.js] reads the version the
    pointer names and nothing else.  It returns at most [LEGAL_TOP_K]
    rows, each of them a stored chunk, and with a pointer each of them a
    chunk of the version the pointer names; so with a pointer to a version
    that holds no chunk it returns nothing, whatever else is stored, where
    the later retriever falls back: after the run for March that stored no
    row it returns the empty list and the later retriever the chunk of
    February.  When the version of the pointer holds a chunk, that version
    is the effective version of the later retriever.  It throws when the
    embedding provider does not answer [ok], and returns nothing when the
    answer holds no array. *)
Theorem server_retriever_follows_pointer {E}
    (closer : chunk E -> chunk E -> bool) LEGAL_TOP_K (d : db E)
    q queryText :
  (forall embRes rows,
     Server.retrieveLegalSources closer LEGAL_TOP_K (Some d) (q :: queryText)
       embRes = Some rows ->
     (length rows <= LEGAL_TOP_K)%nat /\
     forall c, c ∈ rows ->
       c ∈ law_chunks d /\
       forall t, pointer d = Some t ->
         version_tag c = t /\ effective_version d = Some t) /\
  (forall t e, pointer d = Some t -> chunks_of d t = [] ->
     Server.retrieveLegalSources closer LEGAL_TOP_K (Some d) (q :: queryText)
       (Some (Some e)) = Some []) /\
  Server.retrieveLegalSources closer LEGAL_TOP_K (Some d) (q :: queryText)
    None = None /\
  Server.retrieveLegalSources closer LEGAL_TOP_K (Some d) (q :: queryText)
    (Some None) = Some [] /\
  (Server.retrieveLegalSources Examples.any_order 5 (Some Examples.db_stale)
     (lit "Schadensersatz") (Some (Some tt)) = Some [] /\
   retrieveLegalSources Examples.any_order 5 (Some Examples.db_stale)
     (lit "Schadensersatz") (Some tt) None [] = [Examples.chunk_823]).
Proof.
  split; [|split; [|split; [done|split; [done|]]]].
  - intros embRes rows Hr. split.
    + revert Hr. unfold Server.retrieveLegalSources.
      destruct embRes as [[e|]|]; [|intros [= <-]; simpl; lia|done].
      intros [= <-]. rewrite length_take. lia.
    + intros c Hc. destruct (server_rows _ _ _ _ _ _ _ Hr Hc) as [Hin Hv].
      split; [done|]. intros t Ht. specialize (Hv t Ht). split; [done|].
      apply effective_version_pointer; [done|].
      intros Hnil. subst t.
      apply RetrievalFacts.chunks_of_elem in Hin.
      rewrite Hnil in Hin. by apply elem_of_nil in Hin.
  - intros t e Hp Hnil. unfold Server.retrieveLegalSources. rewrite Hp.
    fold (chunks_of d t). rewrite Hnil. simpl. by rewrite take_nil.
  - vm_compute. split; reflexivity.
Qed.

End RetrievalMore.

(** ** Merging the answers of two retrievals *)

Module MergeFacts.
Import Js Guard Store Merge GuardFacts.

Section Facts.
Context {E : Type}.
Implicit Types merged l : list (chunk E).

Lemma merge_step_seen merged (src : chunk E) :
  set_has (source_key src) (map source_key merged) = true ->
  merge_step (merged, map source_key merged) src
  = (merged, map source_key merged).
Proof. intros H. unfold merge_step. simpl. by rewrite H. Qed.

Lemma merge_step_fresh merged (src : chunk E) :
  set_has (source_key src) (map source_key merged) = false ->
  merge_step (merged, map source_key merged) src
  = (merged ++ [src], map source_key (merged ++ [src])).
Proof.
  intros H. unfold merge_step, set_add. simpl. rewrite H.
  by rewrite map_app.
Qed.

Lemma fold_merge l merged :
  NoDup (map source_key merged) ->
  exists rest,
    fold_left merge_step l (merged, map source_key merged)
    = (merged ++ rest, map source_key (merged ++ rest)) /\
    rest `sublist_of` l /\
    NoDup (map source_key (merged ++ rest)) /\
    forall src, src ∈ l ->
      source_key src ∈ map source_key (merged ++ rest).
Proof.
  revert merged. induction l as [|src l IH]; intros merged Hnd.
  - exists []. rewrite app_nil_r. split; [done|]. split; [done|].
    split; [done|]. by intros src ?%elem_of_nil.
  - simpl. destruct (set_has (source_key src) (map source_key merged)) eqn:Hs.
    + rewrite merge_step_seen by done.
      destruct (IH merged Hnd) as (rest & Hf & Hsub & Hnd' & Hall).
      exists rest. split; [done|]. split; [by apply sublist_cons|].
      split; [done|]. intros x [->|Hx]%elem_of_cons; [|by apply Hall].
      apply set_has_elem in Hs. rewrite map_app. apply elem_of_app. by left.
    + rewrite merge_step_fresh by done.
      assert (Hnd1 : NoDup (map source_key (merged ++ [src]))).
      { rewrite map_app. apply NoDup_app. split; [done|].
        split; [|apply NoDup_singleton].
        intros k Hk ->%list_elem_of_singleton.
        apply set_has_elem in Hk. simpl in Hk. congruence. }
      destruct (IH (merged ++ [src]) Hnd1) as (rest & Hf & Hsub & Hnd' & Hall).
      exists (src :: rest). rewrite <- app_assoc in Hf, Hnd', Hall.
      split; [done|]. split; [by apply sublist_skip|]. split; [done|].
      intros x [->|Hx]%elem_of_cons; [|by apply Hall].
      rewrite !map_app. simpl. apply elem_of_app. right. left.
Qed.

Lemma fold_merge_fresh l merged :
  NoDup (map source_key (merged ++ l)) ->
  fold_left merge_step l (merged, map source_key merged)
  = (merged ++ l, map source_key (merged ++ l)).
Proof.
  revert merged. induction l as [|src l IH]; intros merged Hnd.
  - by rewrite app_nil_r.
  - simpl. rewrite merge_step_fresh.
    + rewrite IH; rewrite <- app_assoc; done.
    + destruct (set_has _ _) eqn:Hs; [|done]. apply set_has_elem in Hs.
      rewrite map_app in Hnd. apply NoDup_app in Hnd as (_ & Hd & _).
      destruct (Hd _ Hs). simpl. left.
Qed.

End Facts.

(** X21.  [mergeLegalSourcesUnique] keeps, in their order, the first
    source of every key of [primary] followed by [secondary]: the result
    is a sublist of the two lists put together, no two of its sources have
    the same key, and the key of every given source is the key of a source
    of the result.  When no two sources of [primary] have the same key,
    the result is [primary] followed by sources of [secondary]. *)
Theorem mergeLegalSourcesUnique_spec {E} (primary secondary : list (chunk E)) :
  mergeLegalSourcesUnique primary secondary
    `sublist_of` (primary ++ secondary) /\
  NoDup (map source_key (mergeLegalSourcesUnique primary secondary)) /\
  (forall src, src ∈ primary ++ secondary ->
     source_key src
       ∈ map source_key (mergeLegalSourcesUnique primary secondary)) /\
  (NoDup (map source_key primary) ->
   exists rest,
     mergeLegalSourcesUnique primary secondary = primary ++ rest /\
     rest `sublist_of` secondary).
Proof.
  unfold mergeLegalSourcesUnique.
  destruct (fold_merge (primary ++ secondary) [] (NoDup_nil_2))
    as (rest & Hf & Hsub & Hnd & Hall).
  simpl in Hf. rewrite Hf. simpl.
  split; [done|]. split; [done|]. split; [done|].
  intros Hp. rewrite fold_left_app in Hf.
  pose proof (fold_merge_fresh primary [] Hp) as Hfresh. simpl in Hfresh.
  rewrite Hfresh in Hf.
  destruct (fold_merge secondary primary Hp) as (rest2 & Hf2 & Hsub2 & _).
  rewrite Hf2 in Hf. injection Hf as <- _. by exists rest2.
Qed.

End MergeFacts.

(** ** Pruning old versions *)

Module MonthlyFacts.
Import Js Store Monthly Notions GuardFacts StoreFacts.

Lemma filter_sublist {A} (f : A -> bool) (l : list A) :
  List.filter f l `sublist_of` l.
Proof.
  induction l as [|a l IH]; simpl; [done|].
  destruct (f a); [by apply sublist_skip|by apply sublist_cons].
Qed.

Lemma filter_filter_imp {A} (f g : A -> bool) (l : list A) :
  (forall x, f x = true -> g x = true) ->
  List.filter f (List.filter g l) = List.filter f l.
Proof.
  intros H. induction l as [|a l IH]; simpl; [done|].
  destruct (g a) eqn:Hg; simpl.
  - by rewrite IH.
  - destruct (f a) eqn:Hf; [|done]. apply H in Hf. congruence.
Qed.

Section Facts.
Context {E : Type}.
Implicit Types d : db E.

Lemma chunks_of_deleteChunks t t' d :
  t' <> t -> chunks_of (deleteChunks t d) t' = chunks_of d t'.
Proof.
  intros Hne. unfold chunks_of. simpl. apply filter_filter_imp.
  intros c Hc%str_eqb_eq. destruct (str_eqb (version_tag c) t) eqn:Ht; [|done].
  apply str_eqb_eq in Ht. congruence.
Qed.

Lemma chunks_of_deleteChunks_same t d : chunks_of (deleteChunks t d) t = [].
Proof. unfold chunks_of. simpl. apply RetrievalMore.filter_other_tag. Qed.

Lemma chunks_of_sublist d d' t :
  law_chunks d' `sublist_of` law_chunks d -> chunks_of d t = [] ->
  chunks_of d' t = [].
Proof.
  intros Hsub Hnil. destruct (chunks_of d' t) as [|c l] eqn:Hc; [done|].
  assert (Hin : c ∈ chunks_of d' t) by (rewrite Hc; left).
  unfold chunks_of in Hin. apply list_elem_of_In, filter_In in Hin as [Hin Ht].
  assert (H : c ∈ chunks_of d t).
  { unfold chunks_of. apply list_elem_of_In, filter_In. split; [|done].
    apply list_elem_of_In. eapply sublist_subseteq; [exact Hsub|].
    by apply list_elem_of_In. }
  rewrite Hnil in H. by apply elem_of_nil in H.
Qed.

Lemma status_archiveVersion t d t' :
  status_of (archiveVersion t d) t' =
  if decide (t = t') then (fun _ => archived) <$> status_of d t'
  else status_of d t'.
Proof.
  unfold status_of, archiveVersion. simpl. destruct (decide (t = t')) as [->|Hne].
  - rewrite lookup_alter_eq. by destruct (law_dataset_versions d !! t').
  - by rewrite lookup_alter_ne.
Qed.

Section Loop.
Variable fails : nat -> bool.

(** What the loop keeps, however far it gets. *)
Lemma prune_loop_frame k rows d d' b :
  prune_loop fails k rows d = (d', b) ->
  law_dataset_meta d' = law_dataset_meta d /\
  (forall t, t ∉ rows ->
     law_dataset_versions d' !! t = law_dataset_versions d !! t /\
     chunks_of d' t = chunks_of d t) /\
  (forall t, status_of d' t = status_of d t \/
             status_of d' t = Some archived) /\
  law_chunks d' `sublist_of` law_chunks d.
Proof.
  revert k d. induction rows as [|t0 rows IH]; intros k d H; simpl in H.
  { injection H as <- <-. repeat split; auto. }
  destruct (fails k).
  { injection H as <- <-. repeat split; auto. }
  destruct (fails (S k)).
  { injection H as <- <-. split; [done|]. split; [|split].
    - intros t Ht%not_elem_of_cons. split; [done|].
      apply chunks_of_deleteChunks. by destruct Ht.
    - intros t. by left.
    - apply filter_sublist. }
  apply IH in H as (Hm & Hv & Hs & Hc). split; [done|]. split; [|split].
  - intros t [Hne Ht]%not_elem_of_cons. destruct (Hv t Ht) as [-> ->].
    split.
    + simpl. by rewrite lookup_alter_ne.
    + by apply (chunks_of_deleteChunks t0 t d).
  - intros t. destruct (Hs t) as [->| ->]; [|by right].
    rewrite status_archiveVersion.
    destruct (decide (t0 = t)); [|by left].
    change (status_of (deleteChunks t0 d) t) with (status_of d t).
    destruct (status_of d t); [by right|by left].
  - etransitivity; [exact Hc|]. apply filter_sublist.
Qed.

(** What the loop has done when it ran to its end. *)
Lemma prune_loop_done k rows d d' :
  prune_loop fails k rows d = (d', true) ->
  forall t, t ∈ rows ->
    chunks_of d' t = [] /\
    status_of d' t = (fun _ => archived) <$> status_of d t.
Proof.
  revert k d. induction rows as [|t0 rows IH]; intros k d H t Ht.
  { by apply elem_of_nil in Ht. }
  simpl in H. destruct (fails k); [done|]. destruct (fails (S k)); [done|].
  set (d2 := archiveVersion t0 (deleteChunks t0 d)) in *.
  assert (Hs2 : (fun _ : status => archived) <$> status_of d2 t
                = (fun _ => archived) <$> status_of d t).
  { unfold d2. rewrite status_archiveVersion.
    change (status_of (deleteChunks t0 d) t) with (status_of d t).
    destruct (decide (t0 = t)); [|done]. by destruct (status_of d t). }
  destruct (decide (t ∈ rows)) as [Hin|Hnin].
  { destruct (IH _ _ H t Hin) as [Hc Hs]. split; [done|]. by rewrite Hs. }
  apply elem_of_cons in Ht as [->|Ht]; [|done].
  destruct (prune_loop_frame _ _ _ _ _ H) as (_ & Hv & _ & Hsub).
  destruct (Hv t0 Hnin) as [Hv0 Hc0]. split.
  - rewrite Hc0. apply chunks_of_deleteChunks_same.
  - unfold status_of at 1. rewrite Hv0. fold (status_of d2 t0).
    unfold d2. rewrite status_archiveVersion, decide_True by done. done.
Qed.

End Loop.
End Facts.

Lemma other_versions_elem {E} keep (d : db E) t :
  t ∈ other_versions keep d <->
  t <> keep /\ is_Some (law_dataset_versions d !! t).
Proof.
  unfold other_versions. rewrite list_elem_of_In, filter_In, in_map_iff.
  rewrite negb_true_iff. split.
  - intros [([t' v] & <- & Hin) Hne]. simpl in *.
    apply list_elem_of_In, elem_of_map_to_list in Hin. split; [|by eexists].
    intros ->. by rewrite (proj2 (str_eqb_eq keep keep) eq_refl) in Hne.
  - intros [Hne [v Hv]]. split.
    + exists (t, v). split; [done|].
      by apply list_elem_of_In, elem_of_map_to_list.
    + destruct (str_eqb t keep) eqn:Heq; [|done].
      by apply str_eqb_eq in Heq.
Qed.

(** X22.  However far [pruneOldVersions] gets before a statement throws,
    it leaves the pointer, the row and the chunks of the version to keep,
    and the chunks of tags without a version row as they were; it adds no
    chunk and activates no version. *)
Theorem pruneOldVersions_frame {E} fails keepVersionTag (d : db E) :
  law_dataset_meta (fst (pruneOldVersions fails keepVersionTag d))
  = law_dataset_meta d /\
  law_dataset_versions (fst (pruneOldVersions fails keepVersionTag d))
    !! keepVersionTag
  = law_dataset_versions d !! keepVersionTag /\
  chunks_of (fst (pruneOldVersions fails keepVersionTag d)) keepVersionTag
  = chunks_of d keepVersionTag /\
  (forall t, law_dataset_versions d !! t = None ->
     chunks_of (fst (pruneOldVersions fails keepVersionTag d)) t
     = chunks_of d t) /\
  law_chunks (fst (pruneOldVersions fails keepVersionTag d))
    `sublist_of` law_chunks d /\
  (forall t,
     status_of (fst (pruneOldVersions fails keepVersionTag d)) t
     = Some active -> status_of d t = Some active) /\
  (at_most_one_active d ->
   at_most_one_active (fst (pruneOldVersions fails keepVersionTag d))).
Proof.
  unfold pruneOldVersions. destruct (fails O).
  { simpl. repeat split; auto. }
  destruct (prune_loop fails 1 (other_versions keepVersionTag d) d)
    as [d' b] eqn:H.
  apply prune_loop_frame in H as (Hm & Hv & Hs & Hc). simpl.
  assert (Hk : keepVersionTag ∉ other_versions keepVersionTag d).
  { intros [Hne _]%other_versions_elem. done. }
  assert (Hact : forall t, status_of d' t = Some active ->
                           status_of d t = Some active).
  { intros t Ht. destruct (Hs t) as [H1|H1]; congruence. }
  split; [done|]. split; [apply (Hv _ Hk)|]. split; [apply (Hv _ Hk)|].
  split; [|split; [done|split; [done|]]].
  - intros t Ht. apply Hv. intros [_ [v Hv']]%other_versions_elem. congruence.
  - intros Hone t1 t2 H1 H2. apply Hone; by apply Hact.
Qed.

(** X23.  When [pruneOldVersions] runs to its end, every version row other
    than the one to keep is archived and has no chunk left. *)
Theorem pruneOldVersions_done {E} fails keepVersionTag (d : db E) :
  snd (pruneOldVersions fails keepVersionTag d) = true ->
  forall t, t <> keepVersionTag ->
    status_of (fst (pruneOldVersions fails keepVersionTag d)) t
    = (fun _ => archived) <$> status_of d t /\
    (is_Some (status_of d t) ->
     chunks_of (fst (pruneOldVersions fails keepVersionTag d)) t = []).
Proof.
  unfold pruneOldVersions. destruct (fails O); [done|].
  destruct (prune_loop fails 1 (other_versions keepVersionTag d) d)
    as [d' b] eqn:H.
  simpl. intros -> t Hne.
  destruct (law_dataset_versions d !! t) as [v|] eqn:Hv.
  - assert (Hin : t ∈ other_versions keepVersionTag d).
    { apply other_versions_elem. split; [done|by eexists]. }
    destruct (prune_loop_done _ _ _ _ _ H t Hin) as [Hc Hs]. by split.
  - apply prune_loop_frame in H as (_ & Hf & _).
    destruct (Hf t) as [Hv' _].
    { intros [_ [v Hv']]%other_versions_elem. congruence. }
    unfold status_of. rewrite Hv', Hv. split; [done|]. by intros [? [=]].
Qed.

Lemma pruneOldVersions_done_witness :
  let d := snd (Examples.run_march Examples.embed_ok [Examples.rows_bgb]) in
  let r := pruneOldVersions Examples.store_ok (lit "2026-03-01") d in
  snd r = true /\
  status_of (fst r) (lit "2026-02-01") = Some archived /\
  chunks_of d (lit "2026-02-01") = [Examples.chunk_823] /\
  chunks_of (fst r) (lit "2026-02-01") = [].
Proof.
  intros d r.
  assert (Hr : snd r = true) by (vm_compute; reflexivity).
  assert (Hne : lit "2026-02-01" <> lit "2026-03-01")
    by (vm_compute; discriminate).
  split; [exact Hr|].
  destruct (pruneOldVersions_done Examples.store_ok (lit "2026-03-01") d Hr
              (lit "2026-02-01") Hne) as [Hs Hc].
  unfold r. split; [rewrite Hs; vm_compute; reflexivity|].
  split; [vm_compute; reflexivity|].
  apply Hc. vm_compute. eexists. reflexivity.
Defined.

Lemma commit_lookup_other {E} T now (d3 : db E) t :
  t <> T ->
  is_Some (law_dataset_versions (commitVersion T now d3) !! t) <->
  is_Some (law_dataset_versions d3 !! t).
Proof.
  intros Hne. simpl. rewrite lookup_alter_ne, map_lookup_imap by done.
  destruct (law_dataset_versions d3 !! t); simpl; [|done].
  split; intros _; by eexists.
Qed.

(** X24.  Pruning, run to its end for the tag of a run of [main] in
    [replace] mode that has just committed, leaves that version as the
    only active one, with the pointer on it (so that
    [getCurrentActiveVersion] answers its tag) and exactly the rows of the
    run as its chunks; every other chunk that is left has a tag that had
    no version row before the run.  So when the run stored no row and all
    chunks belonged to versions of the table, no chunk is left. *)
Theorem prune_after_commit {E} embedBatch fails T url batch_pred now
    mark_throws now' xmlFiles fails2 (d d1 : db E) :
  main embedBatch fails T url replace batch_pred now mark_throws now'
       xmlFiles d = (Done, d1) ->
  snd (pruneOldVersions fails2 T d1) = true ->
  exists new,
    embedded_files embedBatch T batch_pred xmlFiles = Some new /\
    chunks_of (fst (pruneOldVersions fails2 T d1)) T = new /\
    (forall t, status_of (fst (pruneOldVersions fails2 T d1)) t = Some active
               <-> t = T) /\
    pointer (fst (pruneOldVersions fails2 T d1)) = Some T /\
    getCurrentActiveVersion (fst (pruneOldVersions fails2 T d1))
    = match T with [] => None | _ :: _ => Some T end /\
    (forall c, c ∈ law_chunks (fst (pruneOldVersions fails2 T d1)) ->
       c ∈ new \/
       (c ∈ law_chunks d /\ law_dataset_versions d !! version_tag c = None)) /\
    (new = [] ->
     (forall c, c ∈ law_chunks d ->
        is_Some (law_dataset_versions d !! version_tag c)) ->
     law_chunks (fst (pruneOldVersions fails2 T d1)) = []).
Proof.
  intros H Hp. apply StoreMore.main_done in H as (new & Hnew & ->).
  destruct (StoreMore.embedded_files_spec _ _ _ _ _ Hnew) as [_ Htag].
  set (d3 := Db _ _ _) in *. set (d1 := commitVersion T now d3) in *.
  assert (Hc1 : chunks_of d1 T = new).
  { unfold chunks_of. simpl.
    by rewrite List.filter_app, RetrievalMore.filter_other_tag,
      RetrievalMore.filter_same_tag. }
  assert (Hact : status_of d1 T = Some active).
  { apply commitVersion_tag. unfold status_of, d3. simpl.
    rewrite lookup_insert_eq. by eexists. }
  unfold pruneOldVersions in *. destruct (fails2 O); [done|].
  destruct (prune_loop fails2 1 (other_versions T d1) d1) as [d2 b] eqn:Hl.
  simpl in Hp. subst b. simpl.
  pose proof (prune_loop_done _ _ _ _ _ Hl) as Hdone.
  apply prune_loop_frame in Hl as (Hm & Hv & Hs & Hsub).
  assert (HT : T ∉ other_versions T d1).
  { intros [Hne _]%other_versions_elem. done. }
  destruct (Hv T HT) as [HvT HcT].
  assert (Hchunk : forall c, c ∈ law_chunks d2 ->
    c ∈ new \/
    (c ∈ law_chunks d /\ law_dataset_versions d !! version_tag c = None)).
  { intros c Hc.
    assert (Hc1' : c ∈ law_chunks d1) by (eapply sublist_subseteq; eauto).
    apply RetrievalFacts.chunks_of_elem in Hc.
    destruct (decide (version_tag c = T)) as [Heq|Hne].
    { left. rewrite Heq, HcT, Hc1 in Hc. done. }
    right. simpl in Hc1'. apply elem_of_app in Hc1' as [Hk|Hn].
    2:{ rewrite Forall_forall in Htag. destruct Hne.
        by apply Htag. }
    apply list_elem_of_In, filter_In in Hk as [Hk%list_elem_of_In _].
    split; [done|].
    destruct (law_dataset_versions d !! version_tag c) as [v|] eqn:Hv0;
      [|done].
    assert (Hin : version_tag c ∈ other_versions T d1).
    { apply other_versions_elem. split; [done|].
      apply commit_lookup_other; [done|]. unfold d3. simpl.
      rewrite lookup_insert_ne by done. by eexists. }
    destruct (Hdone _ Hin) as [Hnil _]. rewrite Hnil in Hc.
    by apply elem_of_nil in Hc. }
  assert (Hptr : pointer d2 = Some T).
  { unfold pointer. rewrite Hm. apply pointer_setPointer. }
  exists new. split; [done|]. split; [by rewrite HcT|].
  split; [|split; [|split; [|split]]].
  - intros t. split.
    + intros Ht. destruct (Hs t) as [H1|H1]; [|congruence].
      rewrite H1 in Ht. by apply commitVersion_active in Ht.
    + intros ->. unfold status_of. rewrite HvT. exact Hact.
  - exact Hptr.
  - unfold getCurrentActiveVersion. rewrite Hptr. by destruct T.
  - exact Hchunk.
  - intros -> Hreg. destruct (law_chunks d2) as [|c l] eqn:Hc; [done|].
    destruct (Hchunk c) as [Hn|[Hin Hnone]]; [left| |].
    + by apply elem_of_nil in Hn.
    + destruct (Hreg c Hin) as [v Hv']. congruence.
Qed.

Lemma prune_after_commit_witness :
  let r := Examples.run_march Examples.embed_ok [[]] in
  r = (Done, snd r) /\
  snd (pruneOldVersions Examples.store_ok (lit "2026-03-01") (snd r)) = true /\
  law_chunks Examples.db_february = [Examples.chunk_823] /\
  law_chunks (fst (pruneOldVersions Examples.store_ok (lit "2026-03-01")
                     (snd r))) = [].
Proof.
  intros r.
  assert (Hr : r = (Done, snd r)) by (vm_compute; reflexivity).
  assert (Hp : snd (pruneOldVersions Examples.store_ok (lit "2026-03-01")
                      (snd r)) = true) by (vm_compute; reflexivity).
  split; [exact Hr|]. split; [exact Hp|]. split; [reflexivity|].
  destruct (prune_after_commit _ _ _ _ _ _ _ _ _ _ _ _ Hr Hp)
    as (new & Hnew & _ & _ & _ & _ & _ & Hempty).
  apply Hempty.
  - vm_compute in Hnew. by injection Hnew as <-.
  - intros c Hc. apply list_elem_of_singleton in Hc as ->.
    vm_compute. eexists. reflexivity.
Defined.

End MonthlyFacts.

(** ** The guard of the first answerer *)

Module LegacyGuardFacts.
Import Js Re Guard LegacyGuard ReFacts.

(** Whether a match attempt succeeds depends on the continuation only
    through whether the continuation succeeds. *)
Lemma m_lit_ext {A B} l pw s (k1 : cont A) (k2 : cont B) :
  (forall q t, is_Some (k1 q t) <-> is_Some (k2 q t)) ->
  is_Some (m_lit l pw s k1) <-> is_Some (m_lit l pw s k2).
Proof.
  intros Hk. revert pw s. induction l as [|x l IH]; intros pw s; simpl; [done|].
  destruct s as [|c s]; [done|]. destruct (x =? c); [apply IH|done].
Qed.

Lemma m_rep_ext {A B} p mn mx pw s (k1 : cont A) (k2 : cont B) :
  (forall q t, is_Some (k1 q t) <-> is_Some (k2 q t)) ->
  is_Some (m_rep p mn mx pw s k1) <-> is_Some (m_rep p mn mx pw s k2).
Proof.
  intros Hk. revert mn mx pw.
  induction s as [|c s IH]; intros mn mx pw.
  - simpl. destruct mx as [[|n]|]; destruct mn; try done; apply Hk.
  - cbn [m_rep].
    assert (Hmore : is_Some (if p c then m_rep p (pred mn) (option_map pred mx)
                                           (is_word c) s k1 else None) <->
                    is_Some (if p c then m_rep p (pred mn) (option_map pred mx)
                                           (is_word c) s k2 else None)).
    { destruct (p c); [apply IH|done]. }
    assert (Hlast : is_Some (match mn with O => k1 pw (c :: s) | S _ => None end)
                    <-> is_Some (match mn with O => k2 pw (c :: s)
                                          | S _ => None end)).
    { destruct mn; [apply Hk|done]. }
    destruct mx as [[|n]|].
    + exact Hlast.
    + destruct (if p c then m_rep p (pred mn) (option_map pred (Some (S n)))
                            (is_word c) s k1 else None) eqn:H1;
      destruct (if p c then m_rep p (pred mn) (option_map pred (Some (S n)))
                            (is_word c) s k2 else None) eqn:H2;
      try exact Hlast; split; intros _; try (by eexists);
      [apply proj1 in Hmore|apply proj2 in Hmore];
      destruct Hmore as [? [=]]; by eexists.
    + destruct (if p c then m_rep p (pred mn) (option_map pred None)
                            (is_word c) s k1 else None) eqn:H1;
      destruct (if p c then m_rep p (pred mn) (option_map pred None)
                            (is_word c) s k2 else None) eqn:H2;
      try exact Hlast; split; intros _; try (by eexists);
      [apply proj1 in Hmore|apply proj2 in Hmore];
      destruct Hmore as [? [=]]; by eexists.
Qed.

Lemma m_ext {A B} r pw s (k1 : cont A) (k2 : cont B) :
  (forall q t, is_Some (k1 q t) <-> is_Some (k2 q t)) ->
  is_Some (m r pw s k1) <-> is_Some (m r pw s k2).
Proof.
  revert pw s k1 k2.
  induction r as [p|l|p mn mx|r1 IH1 r2 IH2|r1 IH1 r2 IH2|r1 IH1|];
    intros pw s k1 k2 Hk; cbn [m].
  - destruct s as [|c s]; [done|]. destruct (p c); [apply Hk|done].
  - by apply m_lit_ext.
  - by apply m_rep_ext.
  - apply IH1. intros q t. by apply IH2.
  - pose proof (IH1 pw s k1 k2 Hk) as H1. pose proof (IH2 pw s k1 k2 Hk) as H2.
    destruct (m r1 pw s k1) eqn:E1; destruct (m r1 pw s k2) eqn:E2;
      try exact H2; split; intros _; try (by eexists);
      [apply proj1 in H1|apply proj2 in H1];
      destruct H1 as [? [=]]; by eexists.
  - assert (H1 : is_Some (m r1 pw s (fun pw' s' =>
                   if (length s' <? length s)%nat then k1 pw' s' else None))
                 <-> is_Some (m r1 pw s (fun pw' s' =>
                   if (length s' <? length s)%nat then k2 pw' s' else None))).
    { apply IH1. intros q t. destruct (length t <? length s)%nat; [apply Hk|done]. }
    pose proof (Hk pw s) as H2.
    destruct (m r1 pw s (fun pw' s' =>
                if (length s' <? length s)%nat then k1 pw' s' else None)) eqn:E1;
    destruct (m r1 pw s (fun pw' s' =>
                if (length s' <? length s)%nat then k2 pw' s' else None)) eqn:E2;
      try exact H2; split; intros _; try (by eexists);
      [apply proj1 in H1|apply proj2 in H1];
      destruct H1 as [? [=]]; by eexists.
  - destruct (xorb pw (next_is_word s)); [apply Hk|done].
Qed.

Lemma m_rep_star_total {A} p pw s (k : cont A) :
  (forall q t, is_Some (k q t)) -> is_Some (m_rep p 0 None pw s k).
Proof.
  intros Hk. destruct s as [|c s]; cbn [m_rep]; [apply Hk|].
  destruct (if p c then _ else None); [by eexists|apply Hk].
Qed.

(** The two expressions of the guard match at the same places. *)
Lemma exec_citation pw s :
  is_Some (exec CITATION_TEST pw s) <-> is_Some (exec CITATION_REGEX pw s).
Proof.
  unfold exec, CITATION_TEST, CITATION_REGEX. cbn [seqs m].
  apply m_lit_ext. intros q t. apply m_rep_ext. intros q1 t1.
  apply m_rep_ext. intros q2 t2. split; intros _.
  - apply m_rep_star_total. intros ? ?. by eexists.
  - by eexists.
Qed.

Lemma test_from_ext r1 r2 pw s :
  (forall q t, is_Some (exec r1 q t) <-> is_Some (exec r2 q t)) ->
  test_from r1 pw s = test_from r2 pw s.
Proof.
  intros H. revert pw. induction s as [|c s IH]; intros pw; simpl.
  - pose proof (H pw []) as H0.
    destruct (exec r1 pw []), (exec r2 pw []); try done.
    + apply proj1 in H0. destruct H0 as [? [=]]. by eexists.
    + apply proj2 in H0. destruct H0 as [? [=]]. by eexists.
  - pose proof (H pw (c :: s)) as H0.
    destruct (exec r1 pw (c :: s)), (exec r2 pw (c :: s)); try done.
    + apply proj1 in H0. destruct H0 as [? [=]]. by eexists.
    + apply proj2 in H0. destruct H0 as [? [=]]. by eexists.
Qed.

Lemma test_from_scan r n pw s :
  (length s < n)%nat ->
  test_from r pw s = true <-> exists mt, Hit mt ∈ scan n r pw s.
Proof.
  revert pw s. induction n as [|n IH]; intros pw s Hn; [lia|].
  destruct s as [|c s]; cbn [scan test_from].
  - destruct (exec r pw []) as [rest|]; simpl.
    + split; [|done]. intros _. destruct (length rest); eexists; left.
    + split; [done|]. by intros [mt ?%elem_of_nil].
  - destruct (exec r pw (c :: s)) as [rest|].
    + split; [|done]. intros _.
      destruct (length (c :: s) - length rest)%nat; eexists; left.
    + rewrite IH by (simpl in Hn; lia). split.
      * intros [mt H]. exists mt. by right.
      * intros [mt H]. apply elem_of_cons in H as [[=]|H]. by exists mt.
Qed.

Lemma test_match_g r s :
  test r s = true <-> match_g r s <> [].
Proof.
  unfold test, match_g, pieces. rewrite (test_from_scan r (S (length s)))
    by lia.
  split.
  - intros [mt H] Hnil.
    assert (Hin : mt ∈ omap (fun p => match p with Hit mt => Some mt
                                            | Keep _ => None end)
                         (scan (S (length s)) r false s)).
    { apply list_elem_of_omap. by exists (Hit mt). }
    rewrite Hnil in Hin. by apply elem_of_nil in Hin.
  - intros Hne.
    destruct (omap _ _) as [|mt l] eqn:Ho; [done|].
    assert (Hin : mt ∈ mt :: l) by left. rewrite <- Ho in Hin.
    apply list_elem_of_omap in Hin as ([c|mt'] & Hin & Heq); [done|].
    by exists mt'.
Qed.

Lemma rebuild_fn_sublist (f : list N -> list N) ps :
  (forall mt, mt `sublist_of` f mt) ->
  concat (map piece_text ps) `sublist_of` rebuild_fn f ps.
Proof.
  intros Hf. induction ps as [|[c|mt] ps IH]; simpl; [done| |].
  - by apply sublist_skip.
  - by apply sublist_app.
Qed.

Lemma marked_sublist mt : mt `sublist_of` marked mt.
Proof.
  unfold marked. apply sublist_inserts_l, sublist_inserts_r. done.
Qed.

Lemma stripFakeCitations_sublist answer :
  answer `sublist_of` stripFakeCitations answer.
Proof.
  unfold stripFakeCitations, replace_fn. apply sublist_inserts_r.
  rewrite <- (pieces_text CITATION_REGEX answer) at 1.
  apply rebuild_fn_sublist, marked_sublist.
Qed.

Lemma stripFakeCitations_longer answer :
  (length answer < length (stripFakeCitations answer))%nat.
Proof.
  unfold stripFakeCitations. rewrite length_app.
  assert (H : (length answer
               <= length (replace_fn CITATION_REGEX marked answer))%nat).
  { apply sublist_length. unfold replace_fn.
    rewrite <- (pieces_text CITATION_REGEX answer) at 1.
    apply rebuild_fn_sublist, marked_sublist. }
  assert (Hw : (0 < length warning)%nat) by (vm_compute; lia).
  lia.
Qed.

(** X25.  [guardAnswer] never deletes text: the answer is a subsequence of
    the result.  The result is the answer itself exactly when there is law
    context (more than 40 characters after trimming) or the answer holds no
    match of [§\s*\d+[a-zA-Z]*]; otherwise it is the result of
    [stripFakeCitations], in which every match is marked and the warning
    is appended. *)
Theorem guardAnswer_spec (answer : list N)
    (contextLawsText : option (list N)) :
  answer `sublist_of` guardAnswer answer contextLawsText /\
  (guardAnswer answer contextLawsText = answer <->
   hasLawContext contextLawsText = true \/
   match_g CITATION_REGEX answer = []) /\
  (guardAnswer answer contextLawsText <> answer ->
   guardAnswer answer contextLawsText = stripFakeCitations answer).
Proof.
  assert (Ht : test CITATION_TEST answer = test CITATION_REGEX answer).
  { apply test_from_ext, exec_citation. }
  pose proof (test_match_g CITATION_REGEX answer) as Hm.
  pose proof (stripFakeCitations_longer answer) as Hlen.
  unfold guardAnswer. rewrite Ht.
  destruct (hasLawContext contextLawsText).
  { split; [done|]. split; [|done]. split; auto. }
  destruct (test CITATION_REGEX answer) eqn:Htest.
  - split; [apply stripFakeCitations_sublist|]. split; [|done]. split.
    + intros Heq. rewrite Heq in Hlen. lia.
    + intros [[=]|Hnil]. by apply Hm in Hnil.
  - split; [done|]. split; [|done]. split; [|done]. intros _. right.
    destruct (match_g CITATION_REGEX answer) eqn:Hg; [done|].
    assert (H : false = true) by by apply Hm. done.
Qed.

(** X26.  [answerLegalQuestion] returns an answer that cites a paragraph
    as the model wrote it only when the retrieval returned more than 40
    characters of context, and [used_context] is true then; in every other
    case (the retrieval threw, or returned less) the citations are marked
    and the warning is appended. *)
Theorem answerLegalQuestion_guarded (retrieved : option (list N))
    (raw : list N) :
  match_g CITATION_REGEX raw <> [] ->
  (fst (answerLegalQuestion retrieved raw) = raw /\
   snd (answerLegalQuestion retrieved raw) = true /\
   exists ctx, retrieved = Some ctx /\ (40 < length (trim ctx))%nat) \/
  (fst (answerLegalQuestion retrieved raw) = stripFakeCitations raw /\
   forall ctx, retrieved = Some ctx -> (length (trim ctx) <= 40)%nat).
Proof.
  intros Hne.
  assert (Ht : test CITATION_TEST raw = true).
  { unfold test. rewrite (test_from_ext CITATION_TEST CITATION_REGEX)
      by apply exec_citation. by apply test_match_g. }
  unfold answerLegalQuestion, guardAnswer, hasLawContext. simpl.
  rewrite Ht. destruct retrieved as [ctx|].
  - destruct (Nat.ltb_spec 40 (length (trim ctx))) as [Hl|Hl].
    + left. split; [done|]. split; [|by exists ctx].
      destruct ctx as [|c ctx]; [simpl in Hl; lia|].
      destruct (trim (c :: ctx)); [simpl in Hl; lia|done].
    + right. split; [done|]. by intros ? [= <-].
  - right. split; [done|]. by intros ? [=].
Qed.

Lemma answerLegalQuestion_guarded_witness :
  match_g CITATION_REGEX (lit "Siehe § 823 BGB.") <> [] /\
  fst (answerLegalQuestion None (lit "Siehe § 823 BGB."))
  = stripFakeCitations (lit "Siehe § 823 BGB.").
Proof.
  assert (H : match_g CITATION_REGEX (lit "Siehe § 823 BGB.") <> [])
    by (vm_compute; discriminate).
  split; [exact H|].
  destruct (answerLegalQuestion_guarded None (lit "Siehe § 823 BGB.") H)
    as [(_ & _ & ctx & Hc & _)|[Hs _]]; [discriminate Hc|exact Hs].
Defined.

End LegacyGuardFacts.

(** ** The allowlist of the citation guard *)

Module AllowlistFacts.
Import Js Re Guard Allowlist GuardFacts GuardMore.

Lemma set_add_inv x y l : x ∈ set_add y l <-> x = y \/ x ∈ l.
Proof.
  split.
  - unfold set_add. destruct (set_has y l); [by right|].
    intros [H|H%list_elem_of_singleton]%elem_of_app; auto.
  - intros [->|H]; [apply set_add_elem|by apply set_add_mono].
Qed.

Lemma ids_of_add_norm sid st norm n :
  ids_of (snd (add_norm sid st norm)) n =
  if decide (n = norm) then
    match sid with
    | [] => ids_of (snd st) n
    | _ :: _ => set_add sid (ids_of (snd st) n)
    end
  else ids_of (snd st) n.
Proof.
  unfold ids_of, add_norm. simpl. destruct (decide (n = norm)) as [->|Hne].
  - rewrite lookup_insert_eq. by destruct sid.
  - by rewrite lookup_insert_ne.
Qed.

Lemma fold_add_norm sid ns st :
  let st' := fold_left (add_norm sid) ns st in
  (NoDup (fst st) -> NoDup (fst st')) /\
  (forall n, n ∈ fst st' <-> n ∈ fst st \/ n ∈ ns) /\
  ((forall n, NoDup (ids_of (snd st) n)) ->
   forall n, NoDup (ids_of (snd st') n)) /\
  (forall n i, i ∈ ids_of (snd st') n <->
     i ∈ ids_of (snd st) n \/ (i = sid /\ sid <> [] /\ n ∈ ns)).
Proof.
  revert st. induction ns as [|norm ns IH]; intros st; cbv zeta.
  - simpl. split; [done|]. split.
    { intros n. rewrite elem_of_nil. tauto. }
    split; [done|]. intros n i. rewrite elem_of_nil. tauto.
  - simpl. destruct (IH (add_norm sid st norm)) as (H1 & H2 & H3 & H4).
    split; [|split; [|split]].
    + intros Hnd. apply H1. simpl. by apply set_add_NoDup.
    + intros n. rewrite H2. simpl. rewrite set_add_inv, elem_of_cons. tauto.
    + intros Hnd. apply H3. intros n. rewrite ids_of_add_norm.
      destruct (decide (n = norm)); [|done].
      destruct sid; [done|]. by apply set_add_NoDup.
    + intros n i. rewrite H4, ids_of_add_norm, elem_of_cons.
      destruct (decide (n = norm)) as [->|Hne].
      * destruct sid as [|c sid]; [intuition congruence|].
        rewrite set_add_inv. intuition congruence.
      * intuition congruence.
Qed.

Lemma fold_add_source srcs st :
  let st' := fold_left add_source srcs st in
  (NoDup (fst st) -> NoDup (fst st')) /\
  (forall n, n ∈ fst st' <->
     n ∈ fst st \/
     exists src, src ∈ srcs /\ n ∈ extractNorms (source_text src)) /\
  ((forall n, NoDup (ids_of (snd st) n)) ->
   forall n, NoDup (ids_of (snd st') n)) /\
  (forall n i, i ∈ ids_of (snd st') n <->
     i ∈ ids_of (snd st) n \/
     (i <> [] /\ exists src, src ∈ srcs /\ srcId src = i /\
                             n ∈ extractNorms (source_text src))).
Proof.
  revert st. induction srcs as [|src srcs IH]; intros st; cbv zeta.
  - simpl. split; [done|]. split.
    { intros n. split; [by left|]. intros [?|(src & ?%elem_of_nil & _)]; done. }
    split; [done|]. intros n i. split; [by left|].
    intros [?|(_ & src & ?%elem_of_nil & _)]; done.
  - simpl. destruct (IH (add_source st src)) as (H1 & H2 & H3 & H4).
    destruct (fold_add_norm (srcId src) (extractNorms (source_text src)) st)
      as (G1 & G2 & G3 & G4). fold (add_source st src) in G1, G2, G3, G4.
    split; [|split; [|split]].
    + intros Hnd. by apply H1, G1.
    + intros n. rewrite H2, G2. split.
      * intros [[?|?]|(s & Hs & Hn)]; auto.
        { right. exists src. split; [left|done]. }
        { right. exists s. split; [by right|done]. }
      * intros [?|(s & [->|Hs]%elem_of_cons & Hn)]; auto.
        right. by exists s.
    + intros Hnd. by apply H3, G3.
    + intros n i. rewrite H4, G4. split.
      * intros [[?|(-> & Hne & Hn)]|(Hne & s & Hs & Hi & Hn)]; auto.
        { right. split; [done|]. exists src. split; [left|done]. }
        { right. split; [done|]. exists s. split; [by right|done]. }
      * intros [?|(Hne & s & [->|Hs]%elem_of_cons & Hi & Hn)]; auto.
        { left. right. subst i. done. }
        { right. split; [done|]. by exists s. }
Qed.

Lemma insert_by_perm cmp a l : insert_by cmp a l ≡ₚ a :: l.
Proof.
  induction l as [|b l IH]; simpl; [done|].
  destruct (cmp a b <=? 0)%Z; [done|]. rewrite IH. apply Permutation_swap.
Qed.

Lemma sort_by_perm cmp l : sort_by cmp l ≡ₚ l.
Proof.
  induction l as [|a l IH]; simpl; [done|].
  by rewrite insert_by_perm, IH.
Qed.

(** The state of the loop over the sources. *)
Lemma allowed_state sources :
  let st := fold_left add_source sources ([], ∅) in
  NoDup (fst st) /\
  (forall n, n ∈ fst st <->
     exists src, src ∈ sources /\ n ∈ extractNorms (source_text src)) /\
  (forall n, NoDup (ids_of (snd st) n)) /\
  (forall n i, i ∈ ids_of (snd st) n <->
     i <> [] /\ exists src, src ∈ sources /\ srcId src = i /\
                            n ∈ extractNorms (source_text src)).
Proof.
  cbv zeta. destruct (fold_add_source sources ([], ∅)) as (H1 & H2 & H3 & H4).
  split; [apply H1, NoDup_nil_2|]. split; [|split].
  - intros n. rewrite H2. simpl. rewrite elem_of_nil. tauto.
  - apply H3. intros n. unfold ids_of. simpl. rewrite lookup_empty.
    apply NoDup_nil_2.
  - intros n i. rewrite H4. unfold ids_of at 1. simpl.
    rewrite lookup_empty. simpl. rewrite elem_of_nil. tauto.
Qed.

Section Facts.
Variable localeCompare : list N -> list N -> Z.

Lemma allowedNorms_eq sources maxNorms :
  allowedNorms (buildNormAllowlist localeCompare sources maxNorms)
  = take maxNorms
      (sort_by localeCompare (fst (fold_left add_source sources ([], ∅)))).
Proof. done. Qed.

Lemma allowedNorms_elem sources maxNorms n :
  n ∈ allowedNorms (buildNormAllowlist localeCompare sources maxNorms) ->
  exists src, src ∈ sources /\ n ∈ extractNorms (source_text src).
Proof.
  rewrite allowedNorms_eq. intros Hn%subseteq_take.
  rewrite sort_by_perm in Hn.
  by apply (proj1 (proj2 (allowed_state sources))).
Qed.

Lemma allowedNorms_complete sources maxNorms src n :
  src ∈ sources -> n ∈ extractNorms (source_text src) ->
  n ∈ allowedNorms (buildNormAllowlist localeCompare sources maxNorms) \/
  length (allowedNorms (buildNormAllowlist localeCompare sources maxNorms))
  = maxNorms.
Proof.
  intros Hsrc Hn. rewrite allowedNorms_eq.
  set (sorted := sort_by localeCompare _).
  destruct (Nat.le_gt_cases (length sorted) maxNorms) as [Hle|Hgt].
  - left. rewrite take_ge by done. unfold sorted. rewrite sort_by_perm.
    apply (proj1 (proj2 (allowed_state sources))). by exists src.
  - right. rewrite length_take. lia.
Qed.

End Facts.

(** X27.  The allowlist that [buildNormAllowlist] returns has no duplicate
    and at most [maxNorms] norms; each is extracted from the text of one
    of the sources and is a fixed point of [normalizeNorm]; and unless the
    cap of [maxNorms] is reached, every norm extracted from a source is in
    the allowlist. *)
Theorem buildNormAllowlist_sound localeCompare
    (sources : list source_doc) (maxNorms : nat) :
  NoDup (allowedNorms (buildNormAllowlist localeCompare sources maxNorms)) /\
  (length (allowedNorms (buildNormAllowlist localeCompare sources maxNorms))
   <= maxNorms)%nat /\
  (forall n,
     n ∈ allowedNorms (buildNormAllowlist localeCompare sources maxNorms) ->
     normalizeNorm n = n /\
     exists src, src ∈ sources /\ n ∈ extractNorms (source_text src)) /\
  (forall src n, src ∈ sources -> n ∈ extractNorms (source_text src) ->
     n ∈ allowedNorms (buildNormAllowlist localeCompare sources maxNorms) \/
     length (allowedNorms (buildNormAllowlist localeCompare sources maxNorms))
     = maxNorms).
Proof.
  split; [|split; [|split]].
  - rewrite allowedNorms_eq. eapply sublist_NoDup; [|apply sublist_take].
    rewrite sort_by_perm. apply (allowed_state sources).
  - rewrite allowedNorms_eq, length_take. lia.
  - intros n Hn. apply allowedNorms_elem in Hn as (src & Hsrc & Hn).
    split; [|by exists src].
    unfold extractNorms in Hn.
    apply fold_set_add_elem in Hn as [Hn|(raw & _ & ->)].
    + by apply elem_of_nil in Hn.
    + apply canonical_fixed, normalizeNorm_shape.
  - intros src n. apply allowedNorms_complete.
Qed.

(** X28.  [normToSourceIds] has one entry for every norm of the allowlist,
    in its order; the ids of a norm have no duplicate and are exactly the
    non-empty ids of the sources from whose text the norm is extracted. *)
Theorem buildNormAllowlist_sources localeCompare
    (sources : list source_doc) (maxNorms : nat) :
  map fst (normToSourceIds (buildNormAllowlist localeCompare sources maxNorms))
  = allowedNorms (buildNormAllowlist localeCompare sources maxNorms) /\
  forall n ids,
    (n, ids)
      ∈ normToSourceIds (buildNormAllowlist localeCompare sources maxNorms) ->
    NoDup ids /\
    forall i, i ∈ ids <->
      i <> [] /\ exists src, src ∈ sources /\ srcId src = i /\
                             n ∈ extractNorms (source_text src).
Proof.
  unfold buildNormAllowlist. cbn [normToSourceIds allowedNorms].
  set (st := fold_left add_source sources ([], ∅)).
  destruct (allowed_state sources) as (_ & _ & Hnd & Hids). fold st in Hnd, Hids.
  split.
  - rewrite map_map. simpl. apply map_id.
  - intros n ids Hin. apply list_elem_of_In, in_map_iff in Hin
      as (n' & [= -> <-] & _).
    change (default [] (snd st !! n)) with (ids_of (snd st) n).
    split; [rewrite sort_by_perm; apply Hnd|].
    intros i. rewrite sort_by_perm. apply Hids.
Qed.

(** X29.  Citations taken from the sources pass the guard: when the cap of
    [maxNorms] is not reached and the canonical form of every citation
    found in the answer is extracted from the text of one of the sources,
    [sanitizeAnswerCitations] with the allowlist built from the sources
    returns the answer unchanged and reports nothing. *)
Theorem sources_citations_pass localeCompare (sources : list source_doc)
    (maxNorms : nat) (answerText : list N) :
  (length (allowedNorms (buildNormAllowlist localeCompare sources maxNorms))
   < maxNorms)%nat ->
  forallb (fun raw =>
             existsb (fun src => set_has (normalizeNorm raw)
                                   (extractNorms (source_text src)))
                     sources)
          (match_g NORM_REGEX answerText) = true ->
  sanitizeAnswerCitations answerText
    (allowedNorms (buildNormAllowlist localeCompare sources maxNorms))
  = Sanitized answerText [] [].
Proof.
  intros Hcap Hall. apply sanitize_all_allowed.
  rewrite forallb_forall in Hall |- *. intros raw Hraw.
  apply Hall, existsb_exists in Hraw as (src & Hsrc%list_elem_of_In & Hn).
  apply set_has_elem in Hn. apply set_has_elem.
  destruct (allowedNorms_complete localeCompare sources maxNorms src _
              Hsrc Hn) as [H|H]; [done|lia].
Qed.

Lemma sources_citations_pass_witness :
  let sources :=
    [SourceDoc (lit "S1") [] [] (lit "§ 823") (lit "BGB")
               (lit "Schadensersatzpflicht")
               (lit "Wer vorsätzlich oder fahrlässig das Leben verletzt") []] in
  let A := buildNormAllowlist compare_units sources 80 in
  (length (allowedNorms A) < 80)%nat /\
  lit "§ 823 BGB" ∈ allowedNorms A /\
  sanitizeAnswerCitations (lit "Es gilt §823 BGB.") (allowedNorms A)
  = Sanitized (lit "Es gilt §823 BGB.") [] [].
Proof.
  intros sources A.
  assert (Hcap : (length (allowedNorms A) < 80)%nat) by (vm_compute; lia).
  split; [exact Hcap|]. split; [vm_compute; left|].
  apply (sources_citations_pass compare_units sources 80 _ Hcap).
  vm_compute. reflexivity.
Defined.

End AllowlistFacts.

(** ** Markup removal *)

Module HarvestFacts.
Import Js Re Guard Shape Harvest ReFacts NormFacts.

Lemma after_gt_length s rest :
  after_gt s = Some rest -> (length rest < length s)%nat.
Proof.
  induction s as [|c s IH]; simpl; [done|].
  destruct (c =? 62); [intros [= ->]; lia|]. intros H%IH. lia.
Qed.

Lemma after_gt_has s : is_Some (after_gt s) <-> existsb (N.eqb 62) s = true.
Proof.
  induction s as [|c s IH]; cbn [after_gt existsb].
  - split; [by intros [? [=]]|done].
  - rewrite (N.eqb_sym 62 c). destruct (c =? 62); cbn [orb]; [|done].
    split; [done|by eexists].
Qed.

Lemma m_rep_not_gt pw s :
  m_rep not_gt 0 None pw s
    (fun pw' s' => m_lit [62] pw' s' (fun _ s'' => Some s''))
  = after_gt s.
Proof.
  revert pw. induction s as [|c s IH]; intros pw; [done|].
  cbn [m_rep after_gt option_map pred]. unfold not_gt at 1.
  destruct (N.eqb_spec c 62) as [->|Hne]; [done|]. cbn [negb].
  rewrite IH. destruct (after_gt s); [done|].
  cbn [m_lit]. by rewrite (proj2 (N.eqb_neq 62 c)) by done.
Qed.

(** A match attempt of the tag expression. *)
Lemma exec_TAG pw s :
  exec TAG_REGEX pw s =
  match s with
  | c :: x :: tl => if (c =? 60) && not_gt x then after_gt tl else None
  | _ => None
  end.
Proof.
  unfold exec, TAG_REGEX. cbn [seqs m].
  change (lit "<") with [60]. change (lit ">") with [62].
  destruct s as [|c s]; [done|]. cbn [m_lit].
  rewrite (N.eqb_sym 60 c). destruct (c =? 60); [|by destruct s].
  destruct s as [|x tl]; [done|]. cbn [andb].
  unfold plus. cbn [m m_rep option_map pred].
  destruct (not_gt x); [|done].
  rewrite m_rep_not_gt. by destruct (after_gt tl).
Qed.

Lemma exec_TAG_here pw s : is_Some (exec TAG_REGEX pw s) <-> tag_here s = true.
Proof.
  rewrite exec_TAG. destruct s as [|c [|x tl]]; simpl;
    try (split; [by intros [? [=]]|done]).
  destruct ((c =? 60) && not_gt x); simpl; [apply after_gt_has|].
  split; [by intros [? [=]]|done].
Qed.

Lemma strip_eq s :
  replace_g TAG_REGEX (lit " ") s =
  match exec TAG_REGEX false s with
  | Some rest => 32 :: replace_g TAG_REGEX (lit " ") rest
  | None =>
      match s with
      | [] => []
      | c :: s' => c :: replace_g TAG_REGEX (lit " ") s'
      end
  end.
Proof.
  rewrite (replace_g_unfold _ _ (exec TAG_REGEX false)); [done|done| |].
  - intros pw t. by rewrite !exec_TAG.
  - intros t rest. rewrite exec_TAG. destruct t as [|c [|x tl]]; try done.
    destruct ((c =? 60) && not_gt x); [|done].
    intros H%after_gt_length. simpl. lia.
Qed.

Lemma exec_TAG_length pw s rest :
  exec TAG_REGEX pw s = Some rest -> (length rest < length s)%nat.
Proof.
  rewrite exec_TAG. destruct s as [|c [|x tl]]; try done.
  destruct ((c =? 60) && not_gt x); [|done].
  intros H%after_gt_length. simpl. lia.
Qed.

Lemma tag_here_None s : tag_here s = false -> exec TAG_REGEX false s = None.
Proof.
  intros H. destruct (exec TAG_REGEX false s) eqn:He; [|done].
  rewrite (proj1 (exec_TAG_here false s)) in H; [done|by eexists].
Qed.

Lemma tag_here_Some s rest :
  exec TAG_REGEX false s = Some rest -> tag_here s = true.
Proof. intros H. apply (exec_TAG_here false). by eexists. Qed.

Lemma tag_here_inv s :
  tag_here s = true ->
  exists x tl, s = 60 :: x :: tl /\ not_gt x = true /\
               existsb (N.eqb 62) tl = true.
Proof.
  destruct s as [|c [|x tl]]; try done. simpl.
  intros [[Hc Hx]%andb_true_iff Hg]%andb_true_iff.
  apply N.eqb_eq in Hc as ->. by exists x, tl.
Qed.

Lemma has_gt_strip s :
  existsb (N.eqb 62) (replace_g TAG_REGEX (lit " ") s) = true ->
  existsb (N.eqb 62) s = true.
Proof.
  induction s as [s IH] using len_ind. rewrite strip_eq.
  destruct (exec TAG_REGEX false s) as [rest|] eqn:He.
  - intros _. apply tag_here_Some, tag_here_inv in He
      as (x & tl & -> & _ & Hg).
    cbn [existsb]. rewrite Hg. by rewrite !orb_true_r.
  - destruct s as [|c s']; [done|]. cbn [existsb].
    intros [H|H]%orb_true_iff; [by rewrite H|].
    rewrite IH; [by rewrite orb_true_r| simpl; lia | done].
Qed.

Lemma no_tag_strip s : no_tag (replace_g TAG_REGEX (lit " ") s) = true.
Proof.
  induction s as [s IH] using len_ind. rewrite strip_eq.
  destruct (exec TAG_REGEX false s) as [rest|] eqn:He.
  - cbn [no_tag]. rewrite IH by (by apply exec_TAG_length in He).
    rewrite andb_true_r. by destruct (replace_g _ _ rest).
  - destruct s as [|c s']; [done|]. cbn [no_tag].
    rewrite IH by (simpl; lia). rewrite andb_true_r.
    destruct (tag_here (c :: replace_g TAG_REGEX (lit " ") s')) eqn:Ht; [|done].
    apply tag_here_inv in Ht as (x' & tl' & [= -> Hs'] & Hx & Hg).
    assert (Hnone : tag_here (60 :: s') = false).
    { destruct (tag_here (60 :: s')) eqn:H; [|done].
      apply (exec_TAG_here false) in H as [? H]. congruence. }
    destruct s' as [|x tl].
    { by rewrite strip_eq in Hs'. }
    rewrite strip_eq in Hs'.
    destruct (exec TAG_REGEX false (x :: tl)) as [rest|] eqn:He2.
    + apply tag_here_Some, tag_here_inv in He2
        as (y & tl2 & [= -> ->] & _ & Hg2).
      simpl in Hnone. rewrite Hg2 in Hnone. by rewrite orb_true_r in Hnone.
    + injection Hs' as -> <-. apply has_gt_strip in Hg.
      simpl in Hnone. by rewrite Hx, Hg in Hnone.
Qed.

Lemma no_tag_tail c s : no_tag (c :: s) = true -> no_tag s = true.
Proof. cbn [no_tag]. by intros [_ H]%andb_true_iff. Qed.

Lemma no_tag_app_r a b : no_tag (a ++ b) = true -> no_tag b = true.
Proof.
  induction a as [|c a IH]; [done|]. intros H%no_tag_tail. by apply IH.
Qed.

Lemma tag_here_app a b : tag_here a = true -> tag_here (a ++ b) = true.
Proof.
  intros (x & tl & -> & Hx & Hg)%tag_here_inv. simpl.
  by rewrite Hx, existsb_app, Hg.
Qed.

Lemma no_tag_app_l a b : no_tag (a ++ b) = true -> no_tag a = true.
Proof.
  induction a as [|c a IH]; [done|].
  change ((c :: a) ++ b) with (c :: (a ++ b)). cbn [no_tag].
  intros [Ht H]%andb_true_iff. rewrite IH by done. rewrite andb_true_r.
  destruct (tag_here (c :: a)) eqn:Hta; [|done].
  apply (tag_here_app _ b) in Hta.
  change ((c :: a) ++ b) with (c :: (a ++ b)) in Hta. by rewrite Hta in Ht.
Qed.

Lemma no_tag_drop_space s : no_tag s = true -> no_tag (drop_space s) = true.
Proof.
  destruct (drop_space_suffix s) as [a Ha]. intros H.
  rewrite Ha in H. by apply no_tag_app_r in H.
Qed.

Lemma no_tag_trim s : no_tag s = true -> no_tag (trim s) = true.
Proof.
  destruct (trim_decomp s) as (l & r & Hs). intros H. rewrite Hs in H.
  by apply no_tag_app_r, no_tag_app_l in H.
Qed.

Lemma has_gt_drop_space s :
  existsb (N.eqb 62) (drop_space s) = true -> existsb (N.eqb 62) s = true.
Proof.
  destruct (drop_space_suffix s) as [a Ha]. intros H.
  rewrite Ha, existsb_app, H. apply orb_true_r.
Qed.

Lemma has_gt_collapse s :
  existsb (N.eqb 62) (collapse_spaces s) = true ->
  existsb (N.eqb 62) s = true.
Proof.
  induction s as [s IH] using len_ind. rewrite collapse_spaces_eq.
  destruct s as [|c s']; [done|]. destruct (is_space c) eqn:Hc.
  - cbn [existsb]. change (62 =? 32) with false. cbn [orb].
    intros H. apply IH in H.
    + apply has_gt_drop_space in H. rewrite H. apply orb_true_r.
    + pose proof (drop_space_length s'). simpl. lia.
  - cbn [existsb]. intros [H|H]%orb_true_iff; [by rewrite H|].
    rewrite IH; [apply orb_true_r|simpl; lia|done].
Qed.

Lemma space_not_gt c : is_space c = true -> not_gt c = true.
Proof.
  intros H. unfold not_gt. destruct (N.eqb_spec c 62) as [->|]; done.
Qed.

Lemma no_tag_collapse s :
  no_tag s = true -> no_tag (collapse_spaces s) = true.
Proof.
  induction s as [s IH] using len_ind. intros Hs.
  rewrite collapse_spaces_eq. destruct s as [|c s']; [done|].
  destruct (is_space c) eqn:Hc.
  - cbn [no_tag]. rewrite IH.
    + rewrite andb_true_r. by destruct (collapse_spaces (drop_space s')).
    + pose proof (drop_space_length s'). simpl. lia.
    + by apply no_tag_tail, no_tag_drop_space in Hs.
  - cbn [no_tag]. rewrite IH; [|simpl; lia|by apply no_tag_tail in Hs].
    rewrite andb_true_r.
    destruct (tag_here (c :: collapse_spaces s')) eqn:Ht; [|done].
    apply tag_here_inv in Ht as (x' & tl' & [= -> Hs'] & Hx & Hg).
    cbn [no_tag] in Hs. apply andb_true_iff in Hs as [Hh _].
    rewrite collapse_spaces_eq in Hs'. destruct s' as [|y s'']; [done|].
    destruct (is_space y) eqn:Hy; injection Hs' as <- <-.
    + apply has_gt_collapse, has_gt_drop_space in Hg.
      simpl in Hh. by rewrite (space_not_gt y Hy), Hg in Hh.
    + apply has_gt_collapse in Hg. simpl in Hh. by rewrite Hx, Hg in Hh.
Qed.

Lemma strip_fixed s :
  no_tag s = true -> replace_g TAG_REGEX (lit " ") s = s.
Proof.
  induction s as [|c s IH]; intros H; rewrite strip_eq.
  - by rewrite tag_here_None.
  - cbn [no_tag] in H. apply andb_true_iff in H as [Ht Hs].
    rewrite tag_here_None by by apply negb_true_iff. by rewrite IH.
Qed.

Lemma scan_no_tag n pw s :
  no_tag s = true ->
  forall p, p ∈ scan n TAG_REGEX pw s -> exists c, p = Keep c.
Proof.
  revert pw s. induction n as [|n IH]; intros pw s Hs p Hp;
    [by apply elem_of_nil in Hp|].
  cbn [scan] in Hp. destruct (exec TAG_REGEX pw s) as [rest|] eqn:He.
  - assert (Ht : tag_here s = true).
    { apply (exec_TAG_here pw). by eexists. }
    destruct s; cbn [no_tag] in Hs; by rewrite Ht in Hs.
  - destruct s as [|c s]; [by apply elem_of_nil in Hp|].
    apply no_tag_tail in Hs.
    apply elem_of_cons in Hp as [->|Hp]; [eauto|]. exact (IH _ _ Hs p Hp).
Qed.

Lemma match_no_tag s : no_tag s = true -> match_g TAG_REGEX s = [].
Proof.
  intros Hs. unfold match_g, pieces.
  pose proof (scan_no_tag (S (length s)) false s Hs) as H.
  induction (scan (S (length s)) TAG_REGEX false s) as [|p l IH]; [done|].
  destruct (H p) as [c ->]; [by apply elem_of_cons; left|].
  simpl. apply IH. intros q Hq. apply H. by apply elem_of_cons; right.
Qed.

(** X30.  The result of [stripHtml] holds no tag (no match of
    [<[^>]+>]), its only white space is single U+0020 between other
    units, and it neither starts nor ends with white space; [stripHtml]
    leaves its own results unchanged. *)
Theorem stripHtml_clean (s : list N) :
  match_g TAG_REGEX (stripHtml s) = [] /\
  tidy (stripHtml s) = true /\
  starts_space (stripHtml s) = false /\
  ends_clean (stripHtml s) = true /\
  stripHtml (stripHtml s) = stripHtml s.
Proof.
  assert (Hn : no_tag (stripHtml s) = true).
  { apply no_tag_trim, no_tag_collapse, no_tag_strip. }
  assert (Ht : tidy (stripHtml s) = true).
  { apply tidy_trim, tidy_collapse. }
  split; [by apply match_no_tag|]. split; [done|].
  split; [apply starts_space_trim|]. split; [apply ends_clean_trim|].
  unfold stripHtml at 1. rewrite (strip_fixed _ Hn), (collapse_tidy _ Ht).
  apply trim_clean; [apply starts_space_trim|apply ends_clean_trim].
Qed.

End HarvestFacts.
